(** * Darell: plan execution, path resolution, tool adapters and usage accounting

    A shallow embedding of the core of the Darell CLI agent
    ([core/tools.ts], [core/pricing.ts], [core/agent.ts], [core/openai.ts],
    [core/confirm.ts], [core/config.ts]) and of the entry points that call
    it ([ui/CliApp.tsx], [ui/AgentApp.tsx]), together with the properties
    its specification states about it and further properties of the code.

    Conventions.
    - A JavaScript string is a [list ascii] (abbreviated [str]); string
      literals are read through the coercion [list_ascii_of_string].
    - A rejected promise / thrown [Error] is the [Err] case of [Result];
      the payload is the error's message.
    - A JavaScript number that takes part in arithmetic on amounts is an
      IEEE 754 double ([Number.double]); token counts are integers.
    - Node's [path] module is modelled for POSIX hosts ([path.sep] is "/").
    - The file system, the process table, the terminal and the language
      model are state threaded explicitly through the adapters. *)

From Stdlib Require Import QArith Ascii String Lia.
From Corelib Require Import SpecFloat.
From stdpp Require Import base gmap strings list option.

Abbreviation str := (list ascii).
Coercion list_ascii_of_string : string >-> list.

(** Literal lists of strings. *)
Definition strs (l : list string) : list str := list_ascii_of_string <$> l.

(** ** Errors and results *)

Inductive Result (A : Type) : Type :=
| Ok (value : A)
| Err (message : str).
Arguments Ok {A} value.
Arguments Err {A} message.

Definition isErr {A} (r : Result A) : bool :=
  match r with Ok _ => false | Err _ => true end.

(** [String(error)] for an [Error] instance: the name, a colon, the message. *)
Definition String_of_error (message : str) : str := ("Error: " : str) ++ message.

(** ** Asynchronous computations

    An [async] function over a world [W]: it runs to a state and either a
    value or a rejection.  [await] is sequencing. *)

Definition IO (W A : Type) : Type := W -> Result A * W.

Definition io_ret {W A} (a : A) : IO W A := fun w => (Ok a, w).

Definition io_throw {W A} (message : str) : IO W A := fun w => (Err message, w).

Definition io_bind {W A B} (m : IO W A) (k : A -> IO W B) : IO W B :=
  fun w => match m w with
           | (Ok a, w') => k a w'
           | (Err e, w') => (Err e, w')
           end.

(** [try { m } catch (error) { handler(error) }] *)
Definition io_catch {W A} (m : IO W A) (handler : str -> IO W A) : IO W A :=
  fun w => match m w with
           | (Ok a, w') => (Ok a, w')
           | (Err e, w') => handler e w'
           end.

(** [try { m } finally { cleanup }]: [cleanup] runs whatever [m] does; a
    failure of [cleanup] replaces the outcome of [m]. *)
Definition io_finally {W A} (m : IO W A) (cleanup : IO W unit) : IO W A :=
  fun w => let '(r, w') := m w in
           match cleanup w' with
           | (Ok _, w'') => (r, w'')
           | (Err e, w'') => (Err e, w'')
           end.

(** A synchronous function that may throw. *)
Definition io_lift {W A} (r : Result A) : IO W A := fun w => (r, w).

(** Reading and updating the world. *)
Definition io_get {W} : IO W W := fun w => (Ok w, w).
Definition io_modify {W} (f : W -> W) : IO W unit := fun w => (Ok tt, f w).

Notation "'let*' x := m 'in' k" := (io_bind m (fun x => k))
  (at level 10, x pattern, m at level 100, k at level 200,
   format "'[v' 'let*'  x  :=  m  'in' '/' k ']'").
Notation "m ;;; k" := (io_bind m (fun _ => k))
  (at level 100, k at level 200, right associativity).

(** * JavaScript string primitives *)

Module JS.

(** [s.startsWith(p)] *)
Fixpoint startsWith (s p : str) : bool :=
  match p, s with
  | [], _ => true
  | _ :: _, [] => false
  | a :: p', b :: s' => if decide (a = b) then startsWith s' p' else false
  end.

(** [s.indexOf(p)]: the least position at which [p] occurs, if any. *)
Fixpoint indexOf (s p : str) : option nat :=
  if startsWith s p then Some 0
  else match s with
       | [] => None
       | _ :: s' => S <$> indexOf s' p
       end.

(** [s.includes(p)] *)
Definition includes (s p : str) : bool :=
  match indexOf s p with Some _ => true | None => false end.

(** [parts.join(sep)] *)
Fixpoint join (sep : str) (parts : list str) : str :=
  match parts with
  | [] => []
  | [x] => x
  | x :: rest => x ++ sep ++ join sep rest
  end.

(** [s.split(sep)] for a non-empty separator, by the loop of the
    language definition: cut at the first occurrence, continue after it.
    Every round consumes at least one character, so [length s] rounds
    are enough ([splitFrom_enough]). *)
Fixpoint splitFrom (fuel : nat) (s sep : str) : list str :=
  match fuel with
  | 0 => [s]
  | S fuel' =>
      match indexOf s sep with
      | None => [s]
      | Some i => take i s :: splitFrom fuel' (drop (i + length sep) s) sep
      end
  end.

(** [s.split(sep)]; with the empty separator the string falls apart into
    its code units. *)
Definition split (s sep : str) : list str :=
  match sep with
  | [] => (fun c => [c]) <$> s
  | _ :: _ => splitFrom (length s) s sep
  end.

(** The replacement-template expansion of [String.prototype.replace] for a
    string pattern (no capture groups): "$$" is a dollar sign, "$&" the
    match, "$`" the text before it, "$'" the text after it; any other
    dollar sign stands for itself. *)
Fixpoint getSubstitution (matched before after template : str) : str :=
  match template with
  | [] => []
  | c :: t =>
      if decide (c = "$"%char) then
        match t with
        | d :: t' =>
            if decide (d = "$"%char) then "$"%char :: getSubstitution matched before after t'
            else if decide (d = "&"%char) then matched ++ getSubstitution matched before after t'
            else if decide (d = "`"%char) then before ++ getSubstitution matched before after t'
            else if decide (d = "'"%char) then after ++ getSubstitution matched before after t'
            else c :: getSubstitution matched before after t
        | [] => [c]
        end
      else c :: getSubstitution matched before after t
  end.

(** [s.replace(find, template)] with a string pattern: only the first
    occurrence is replaced. *)
Definition replace (s find template : str) : str :=
  match indexOf s find with
  | None => s
  | Some i =>
      let before := take i s in
      let after := drop (i + length find) s in
      before ++ getSubstitution find before after template ++ after
  end.

(** White space removed by [trim] (the part of it below code 256). *)
Definition isWhiteSpace (c : ascii) : bool :=
  match c with
  | "009" | "010" | "011" | "012" | "013" | " " | "160" => true
  | _ => false
  end%char.

Fixpoint trimStart (s : str) : str :=
  match s with
  | c :: s' => if isWhiteSpace c then trimStart s' else s
  | [] => []
  end.

Definition trim (s : str) : str := reverse (trimStart (reverse (trimStart s))).

(** [toLowerCase] on the letters A-Z. *)
Definition lowerChar (c : ascii) : ascii :=
  let n := nat_of_ascii c in
  if (65 <=? n)%nat && (n <=? 90)%nat then ascii_of_nat (n + 32) else c.

Definition toLowerCase (s : str) : str := lowerChar <$> s.

(** What indexing a plain object gives for a key that is not [undefined]:
    an own entry, or a member inherited from [Object.prototype] (a function,
    or the prototype itself for "__proto__").  An inherited member is truthy
    and has none of the fields of an entry. *)
Inductive Member (V : Type) : Type :=
| Own (value : V)
| Inherited.
Arguments Own {V} value.
Arguments Inherited {V}.

(** The property names of [Object.prototype]. *)
Definition objectPrototypeNames : list str :=
  strs [ "constructor"; "__defineGetter__"; "__defineSetter__"; "hasOwnProperty";
         "__lookupGetter__"; "__lookupSetter__"; "isPrototypeOf";
         "propertyIsEnumerable"; "toString"; "valueOf"; "__proto__";
         "toLocaleString" ].

(** [object[key]] on a plain object with the given own entries; [None] is
    [undefined]. *)
Definition getMember {V} (object : gmap str V) (key : str) : option (Member V) :=
  match object !! key with
  | Some value => Some (Own value)
  | None =>
      if bool_decide (key ∈ objectPrototypeNames) then Some Inherited else None
  end.

Definition lineFeed : ascii := "010"%char.
Definition carriageReturn : ascii := "013"%char.

(** [s.split(/\r?\n/)]: the text is cut at every line feed; a carriage
    return directly before a line feed belongs to the cut. *)
Fixpoint splitLines (s : str) : list str :=
  match s with
  | [] => [[]]
  | c :: s' =>
      if decide (c = lineFeed) then [] :: splitLines s'
      else if bool_decide (c = carriageReturn) && startsWith s' [lineFeed]
      then splitLines s'
      else match splitLines s' with
           | line :: lines => (c :: line) :: lines
           | [] => [[c]]
           end
  end.

(** The position an index argument of [slice] stands for among [len]
    elements: a negative one counts from the end. *)
Definition relativeIndex (len : nat) (i : Z) : nat :=
  if (i <? 0)%Z then Z.to_nat (Z.max 0 (Z.of_nat len + i))
  else Z.to_nat (Z.min i (Z.of_nat len)).

(** [l.slice(start, end)], on arrays and on strings alike. *)
Definition slice {A} (l : list A) (start end_ : Z) : list A :=
  let k := relativeIndex (length l) start in
  let final := relativeIndex (length l) end_ in
  take (final - k) (drop k l).

(** [l.slice(start)] *)
Definition sliceFrom {A} (l : list A) (start : Z) : list A :=
  slice l start (Z.of_nat (length l)).

End JS.

(** * JavaScript numbers

    A number is an IEEE 754 double.  The operations are those of
    [SpecFloat] at precision 53: every result is rounded to the nearest
    double, ties to even. *)

Module Number.

Definition double : Type := spec_float.

Definition prec : Z := 53.
Definition emax : Z := 1024.

Definition add : double -> double -> double := SFadd prec emax.
Definition mul : double -> double -> double := SFmul prec emax.
Definition div : double -> double -> double := SFdiv prec emax.

(** The number an integer stands for (as a literal, or read from JSON). *)
Definition ofZ (n : Z) : double := binary_normalize prec emax n 0 false.

(** The number a decimal literal stands for: the double nearest to the
    fraction, which is the rounded quotient of its numerator and
    denominator (both are far below 2^53 here, hence exact). *)
Definition ofQ (q : Q) : double := div (ofZ (Qnum q)) (ofZ (Zpos (Qden q))).

Definition zero : double := S754_zero false.

(** What arithmetic makes of [undefined]. *)
Definition NaN : double := S754_nan.

(** The exact value of a finite number, in lowest terms. *)
Definition value (x : double) : option Q :=
  match x with
  | S754_zero _ => Some 0%Q
  | S754_finite s m e => Some (Qred (inject_Z (cond_Zopp s (Zpos m)) * 2 ^ e))%Q
  | S754_infinity _ | S754_nan => None
  end.

End Number.

(** * Node's [path] module on a POSIX host

    [path.resolve], [path.join] and [path.dirname] are library code.  They
    are modelled on path components: a path is cut at "/", the components
    are normalised the way Node's [normalizeString] does it (empty and "."
    components dropped, ".." popping the component before it), and the
    result is joined again. *)

Module Path.

Definition sep : str := "/".

Definition isAbsolute (p : str) : bool :=
  match p with
  | c :: _ => bool_decide (c = "/"%char)
  | [] => false
  end.

(** The components of [p]: the pieces between occurrences of [c]. *)
Fixpoint splitChar (c : ascii) (p : str) : list str :=
  match p with
  | [] => [[]]
  | x :: p' =>
      if decide (x = c) then [] :: splitChar c p'
      else match splitChar c p' with
           | seg :: segs => (x :: seg) :: segs
           | [] => [[x]]
           end
  end.

(** [normalizeString]: [stack] holds the components kept so far, the
    last one first. *)
Fixpoint normalizeSegs (allowAboveRoot : bool) (stack segs : list str) : list str :=
  match segs with
  | [] => reverse stack
  | seg :: rest =>
      if decide (seg = [] \/ seg = ".") then normalizeSegs allowAboveRoot stack rest
      else if decide (seg = "..") then
        match stack with
        | top :: stack' =>
            if decide (top = "..")
            then normalizeSegs allowAboveRoot
                   (if allowAboveRoot then seg :: stack else stack) rest
            else normalizeSegs allowAboveRoot stack' rest
        | [] =>
            normalizeSegs allowAboveRoot
              (if allowAboveRoot then [seg] else []) rest
        end
      else normalizeSegs allowAboveRoot (seg :: stack) rest
  end.

Definition normalizeString (p : str) (allowAboveRoot : bool) : str :=
  JS.join sep (normalizeSegs allowAboveRoot [] (splitChar "/" p)).

(** The loop of [path.resolve]: arguments are taken from the right and
    prepended until an absolute one has been seen; empty ones are
    skipped. *)
Fixpoint prependUntilAbsolute (fromRight : list str) (resolvedPath : str) : str * bool :=
  match fromRight with
  | [] => (resolvedPath, false)
  | p :: rest =>
      match p with
      | [] => prependUntilAbsolute rest resolvedPath
      | _ :: _ =>
          let resolvedPath' := p ++ sep ++ resolvedPath in
          if isAbsolute p then (resolvedPath', true)
          else prependUntilAbsolute rest resolvedPath'
      end
  end.

(** [path.resolve(...args)] in a process whose working directory is [cwd]. *)
Definition resolve (cwd : str) (args : list str) : str :=
  let '(resolvedPath, resolvedAbsolute) :=
    prependUntilAbsolute (reverse (cwd :: args)) [] in
  let normalized := normalizeString resolvedPath (negb resolvedAbsolute) in
  if resolvedAbsolute then sep ++ normalized
  else match normalized with [] => "." | _ :: _ => normalized end.

(** [path.normalize(p)] *)
Definition normalize (p : str) : str :=
  match p with
  | [] => "."
  | _ :: _ =>
      let absolute := isAbsolute p in
      let trailingSeparator := bool_decide (list.last p = Some "/"%char) in
      let body := normalizeString p (negb absolute) in
      match body with
      | [] => if absolute then sep else if trailingSeparator then "./" else "."
      | _ :: _ =>
          let body' := if trailingSeparator then body ++ sep else body in
          if absolute then sep ++ body' else body'
      end
  end.

(** [path.join(...args)] *)
Definition join (args : list str) : str :=
  match filter (fun a : str => a <> []) args with
  | [] => "."
  | parts => normalize (JS.join sep parts)
  end.

(** The components a path names once the kernel has walked it. *)
Definition components (p : str) : list str :=
  filter (fun seg : str => seg <> []) (splitChar "/" p).

(** [path.dirname(p)], on the normalised absolute paths that
    [path.resolve] returns (the only arguments it receives here): the
    path without its last component. *)
Definition dirname (p : str) : str :=
  sep ++ JS.join sep (removelast (components p)).

(** A component as [path.resolve] leaves it: not empty, no separator. *)
Definition cleanSeg (seg : str) : Prop := seg <> [] /\ "/"%char ∉ seg.

(** The absolute path with the given components, each preceded by "/". *)
Fixpoint render (segs : list str) : str :=
  match segs with
  | [] => []
  | seg :: rest => "/"%char :: seg ++ render rest
  end.

(** A component that names an entry: clean, and neither "." nor "..". *)
Definition plainSeg (seg : str) : Prop := cleanSeg seg /\ seg <> "." /\ seg <> "..".

(** [sepHead x]: [x] is empty or begins with a separator. *)
Definition sepHead (x : str) : Prop := x = [] \/ exists x', x = "/"%char :: x'.

(** [inside rootPath p]: the absolute path [p] is the directory
    [rootPath] or lies below it, component by component. *)
Definition inside (rootPath p : str) : Prop :=
  components rootPath `prefix_of` components p.

End Path.



(** * Usage and cost accounting ([core/pricing.ts])

    JavaScript numbers are taken as exact: token counts are integers,
    prices and costs rationals (dollars per million tokens, dollars). *)

Module Pricing.

Record ModelPricing := {
  input : Number.double;
  output : Number.double;
  cachedInput : option Number.double;
}.

Record UsageSummary := {
  model : str;
  promptTokens : Z;
  completionTokens : Z;
  totalTokens : Z;
  cachedTokens : Z;
  cost : option Number.double;
}.

(** An entry of the table, written with the decimal literals of the
    source. *)
Definition pricing (i : Q) (c : option Q) (o : Q) : ModelPricing :=
  {| input := Number.ofQ i; cachedInput := Number.ofQ <$> c;
     output := Number.ofQ o |}.

Definition DEFAULT_PRICING : gmap str ModelPricing :=
  (list_to_map [
    (* GPT-5.x *)
    ("gpt-5.2" : str, pricing 1.75 (Some 0.175) 14);
    ("gpt-5.2-chat-latest" : str, pricing 1.75 (Some 0.175) 14);
    ("gpt-5.2-pro" : str, pricing 21 None 168);
    ("gpt-5.1" : str, pricing 1.25 (Some 0.125) 10);
    ("gpt-5.1-chat-latest" : str, pricing 1.25 (Some 0.125) 10);
    ("gpt-5-pro" : str, pricing 15 None 120);
    (* GPT-4o *)
    ("gpt-4o" : str, pricing 2.5 (Some 1.25) 10);
    ("gpt-4o-mini" : str, pricing 0.15 (Some 0.075) 0.6);
    (* GPT-4.1 *)
    ("gpt-4.1" : str, pricing 2.0 (Some 0.5) 8.0);
    ("gpt-4.1-mini" : str, pricing 0.4 (Some 0.1) 1.6);
    ("gpt-4.1-nano" : str, pricing 0.1 (Some 0.025) 0.4)
  ])%Q.

Definition normalizeModel (model : str) : str :=
  JS.toLowerCase (JS.trim model).

(** The names tried by the prefix fallback, in the order of the source. *)
Definition prefixCandidates : list str :=
  strs [ "gpt-5.2"; "gpt-5.1"; "gpt-5-pro"; "gpt-5.2-pro"; "gpt-4o-mini";
         "gpt-4o"; "gpt-4.1-mini"; "gpt-4.1-nano"; "gpt-4.1" ].

(** The tables are plain objects: a name that [Object.prototype] knows
    finds an inherited member where the table has no entry. *)
Definition resolvePricing (model : str) (overrides : option (gmap str ModelPricing))
  : option (JS.Member ModelPricing) :=
  let normalized := normalizeModel model in
  let direct :=
    match overrides with
    | Some overrides =>
        match JS.getMember overrides model with
        | Some found => Some found
        | None => JS.getMember overrides normalized
        end
    | None => None
    end in
  match direct with
  | Some found => Some found
  | None =>
      match JS.getMember DEFAULT_PRICING normalized with
      | Some found => Some found
      | None =>
          let prefixMatch :=
            List.find (fun prefix : str => JS.startsWith normalized (prefix ++ "-"))
                      prefixCandidates in
          match prefixMatch with
          | Some prefix => JS.getMember DEFAULT_PRICING prefix
          | None => None
          end
      end
  end.

(** The usage counters of a model response; every field may be missing. *)
Record PromptTokensDetails := { cached_tokens : option Z }.

Record RawUsage := {
  prompt_tokens : option Z;
  completion_tokens : option Z;
  total_tokens : option Z;
  prompt_tokens_details : option PromptTokensDetails;
}.

(** [pricing.input] and [pricing.output] as arithmetic reads them: an
    inherited member has no such field, and [undefined] counts as NaN. *)
Definition rateOf (field : ModelPricing -> Number.double)
    (pricing : JS.Member ModelPricing) : Number.double :=
  match pricing with
  | JS.Own entry => field entry
  | JS.Inherited => Number.NaN
  end.

(** [pricing.cachedInput ?? pricing.input] *)
Definition cachedRateOf (pricing : JS.Member ModelPricing) : Number.double :=
  match pricing with
  | JS.Own entry => default (input entry) (cachedInput entry)
  | JS.Inherited => Number.NaN
  end.

Definition summarizeUsage (model : str) (usage : option RawUsage)
    (overrides : option (gmap str ModelPricing)) : option UsageSummary :=
  match usage with
  | None => None
  | Some usage =>
      let promptTokens := default 0%Z (prompt_tokens usage) in
      let completionTokens := default 0%Z (completion_tokens usage) in
      let totalTokens :=
        default (promptTokens + completionTokens)%Z (total_tokens usage) in
      let cachedTokens :=
        default 0%Z (prompt_tokens_details usage ≫= cached_tokens) in
      match resolvePricing model overrides with
      | None =>
          Some {| model := model; promptTokens := promptTokens;
                  completionTokens := completionTokens;
                  totalTokens := totalTokens; cachedTokens := cachedTokens;
                  cost := None |}
      | Some pricing =>
          let cached := Z.min cachedTokens promptTokens in
          let billableInput := Z.max 0 (promptTokens - cached) in
          let cachedRate := cachedRateOf pricing in
          let million := Number.ofZ 1000000 in
          let cost :=
            Number.add
              (Number.add
                 (Number.div
                    (Number.mul (Number.ofZ billableInput) (rateOf input pricing))
                    million)
                 (Number.div (Number.mul (Number.ofZ cached) cachedRate) million))
              (Number.div
                 (Number.mul (Number.ofZ completionTokens) (rateOf output pricing))
                 million) in
          Some {| model := model; promptTokens := promptTokens;
                  completionTokens := completionTokens;
                  totalTokens := totalTokens; cachedTokens := cachedTokens;
                  cost := Some cost |}
      end
  end.

(** ** Vocabulary of the specification *)

(** The longest key of the pricing table that is a prefix of [name]. *)
Definition longestKnownPrefix (name : str) : option str :=
  foldr (fun key best =>
           if JS.startsWith name key
              && match best with
                 | Some b => (length b <? length key)%nat
                 | None => true
                 end
           then Some key else best)
        None (map_to_list DEFAULT_PRICING).*1.

(** The longest of the names tried by the prefix fallback that [normalized]
    continues with a dash. *)
Definition longestCandidate (normalized : str) : option str :=
  foldr (fun key best =>
           if JS.startsWith normalized (key ++ "-")
              && match best with
                 | Some b => (length b <? length key)%nat
                 | None => true
                 end
           then Some key else best)
        None prefixCandidates.

(** The cost the specification gives for a response with the given
    counters under the given rates (dollars per million tokens), in exact
    arithmetic: cached tokens capped at the prompt tokens, the rest of the
    prompt billed at the input rate. *)
Definition specifiedCost (prompt completion cachedCount : Z)
    (inputRate cachedRate outputRate : Q) : Q :=
  let cached := Z.min cachedCount prompt in
  let billable := (prompt - cached)%Z in
  ((inject_Z billable * inputRate + inject_Z cached * cachedRate
    + inject_Z completion * outputRate) / 1000000)%Q.

(** The same amount as the code computes it: each of the three terms is
    multiplied out, divided by a million and rounded on its own, and the
    terms are added from the left, in double arithmetic. *)
Definition roundedCost (prompt completion cachedCount : Z) (p : ModelPricing)
  : Number.double :=
  let cached := Z.min cachedCount prompt in
  let billable := (prompt - cached)%Z in
  let cachedRate := default (input p) (cachedInput p) in
  let term (tokens : Z) (rate : Number.double) :=
    Number.div (Number.mul (Number.ofZ tokens) rate) (Number.ofZ 1000000) in
  Number.add (Number.add (term billable (input p)) (term cached cachedRate))
             (term completion (output p)).

(** Counters as a response carries them. *)
Definition counters (prompt completion : Z) (cached : option Z) : RawUsage :=
  {| prompt_tokens := Some prompt;
     completion_tokens := Some completion;
     total_tokens := Some (prompt + completion)%Z;
     prompt_tokens_details := Some {| cached_tokens := cached |} |}.

End Pricing.

(** * The host: file system and processes

    The file system is a finite map from absolute paths, given by their
    components, to nodes; the root directory is the empty key and always
    present.  Symbolic links and permissions are left out, and the error
    texts are shortened forms of Node's.  Spawned
    processes are recorded in the order they start; what a process prints,
    how it exits and what it does to the files is the host's business. *)

Inductive Node :=
| File (content : str)
| Dir.

#[global] Instance Node_eq_dec : EqDecision Node.
Proof. solve_decision. Defined.

Record SpawnRequest := {
  spawn_file : str;
  spawn_args : list str;
  spawn_cwd : str;
  spawn_shell : bool;
}.

Inductive ProcessOutcome :=
| SpawnFailed (message : str)                       (* the 'error' event *)
| Closed (code : option Z) (stdout stderr : str).   (* the 'close' event *)

Record World := {
  files : gmap (list str) Node;
  spawned : list SpawnRequest;
  stdin : list str;          (* lines the user will type *)
  stdout_prompts : list str; (* questions printed on the terminal *)
}.

(** What the adapters need to know of the host besides its state. *)
Record Host := {
  cwd : str;      (* [process.cwd()] *)
  homedir : str;  (* [os.homedir()] *)
  run_process :
    SpawnRequest -> gmap (list str) Node -> ProcessOutcome * gmap (list str) Node;
  showNumber : Z -> str;  (* number to string conversion *)
}.

Module Fs.

Definition setFiles (fs : gmap (list str) Node) (w : World) : World :=
  {| files := fs; spawned := spawned w; stdin := stdin w;
     stdout_prompts := stdout_prompts w |}.

Definition lookupNode (fs : gmap (list str) Node) (key : list str) : option Node :=
  match key with
  | [] => Some Dir
  | _ :: _ => fs !! key
  end.

(** A regular file stands where the path needs a directory: some proper,
    non-empty prefix of [key] is a regular file.  The kernel then answers
    ENOTDIR instead of ENOENT. *)
Definition fileAbove (fs : gmap (list str) Node) (key : list str) : bool :=
  existsb (fun n => match fs !! take n key with
                    | Some (File _) => true
                    | _ => false
                    end)
          (seq 1 (length key - 1)).

(** [fs.access(p)] resolved to a boolean. *)
Definition exists_ (p : str) (w : World) : bool :=
  bool_decide (is_Some (lookupNode (files w) (Path.components p))).

(** [mkdir -p]: walk down from the root, creating what is missing;
    a file in the way is an error. *)
Fixpoint mkdirFrom (fs : gmap (list str) Node) (done todo : list str)
  : Result (gmap (list str) Node) :=
  match todo with
  | [] => Ok fs
  | seg :: rest =>
      let key := done ++ [seg] in
      match fs !! key with
      | Some Dir => mkdirFrom fs key rest
      | Some (File _) =>
          Err (match rest with
               | [] => "EEXIST: file already exists, mkdir"
               | _ :: _ => "ENOTDIR: not a directory, mkdir"
               end)
      | None => mkdirFrom (<[key := Dir]> fs) key rest
      end
  end.

(** [fs.mkdir(p, { recursive: true })] *)
Definition mkdirRecursive (p : str) : IO World unit :=
  fun w => match mkdirFrom (files w) [] (Path.components p) with
           | Ok fs => (Ok tt, setFiles fs w)
           | Err e => (Err e, w)
           end.

(** The node a write to [key] may replace: the parent must be a
    directory and the target must not be one. *)
Definition writableAt (fs : gmap (list str) Node) (key : list str)
  : Result (option str) :=
  match lookupNode fs key with
  | Some Dir => Err "EISDIR: illegal operation on a directory, open"
  | Some (File old) => Ok (Some old)
  | None =>
      match lookupNode fs (removelast key) with
      | Some Dir => Ok None
      | Some (File _) => Err "ENOTDIR: not a directory, open"
      | None =>
          if fileAbove fs key then Err "ENOTDIR: not a directory, open"
          else Err "ENOENT: no such file or directory, open"
      end
  end.

(** [fs.writeFile(p, content, 'utf8')] *)
Definition writeFile (p content : str) : IO World unit :=
  fun w => let key := Path.components p in
           match writableAt (files w) key with
           | Ok _ => (Ok tt, setFiles (<[key := File content]> (files w)) w)
           | Err e => (Err e, w)
           end.

(** [fs.appendFile(p, content, 'utf8')] *)
Definition appendFile (p content : str) : IO World unit :=
  fun w => let key := Path.components p in
           match writableAt (files w) key with
           | Ok old =>
               (Ok tt, setFiles (<[key := File (default [] old ++ content)]> (files w)) w)
           | Err e => (Err e, w)
           end.

(** [fs.readFile(p, 'utf8')] *)
Definition readFile (p : str) : IO World str :=
  fun w => match lookupNode (files w) (Path.components p) with
           | Some (File content) => (Ok content, w)
           | Some Dir => (Err "EISDIR: illegal operation on a directory, read", w)
           | None =>
               if fileAbove (files w) (Path.components p)
               then (Err "ENOTDIR: not a directory, open", w)
               else (Err "ENOENT: no such file or directory, open", w)
           end.

(** [fs.rm(p, { recursive: true, force: true })]: the path goes with
    everything below it; [force] makes a missing path fine, but not a path
    that runs through a regular file. *)
Definition rmRecursiveForce (p : str) : IO World unit :=
  fun w => let key := Path.components p in
           if fileAbove (files w) key
           then (Err "ENOTDIR: not a directory, lstat", w)
           else (Ok tt,
                 setFiles (filter (fun kv => ~ key `prefix_of` kv.1) (files w)) w).

(** [fs.rm(p, { force: true })]: a missing path is fine; a directory is
    refused, and so is a path that runs through a regular file. *)
Definition rmForce (p : str) : IO World unit :=
  fun w => let key := Path.components p in
           match lookupNode (files w) key with
           | Some Dir =>
               (Err (("Path is a directory: rm returned EISDIR (is a directory) " : str)
                     ++ p), w)
           | Some (File _) => (Ok tt, setFiles (delete key (files w)) w)
           | None =>
               if fileAbove (files w) key
               then (Err "ENOTDIR: not a directory, lstat", w)
               else (Ok tt, w)
           end.

(** Every node below the root sits in a chain of directories. *)
Definition wellFormed (fs : gmap (list str) Node) : Prop :=
  fs !! [] = None /\
  forall key seg node, fs !! (key ++ [seg]) = Some node -> lookupNode fs key = Some Dir.

(** The content of the regular file at [p], if there is one. *)
Definition contentAt (p : str) (w : World) : option str :=
  match lookupNode (files w) (Path.components p) with
  | Some (File content) => Some content
  | _ => None
  end.

End Fs.

(** * Tool adapters ([core/tools.ts]) *)

Module Tools.

Record ToolContext := {
  root : str;
  allowOutsideRoot : option bool;
}.

Section WithHost.
Context (host : Host).

Definition expandHome (target : str) : str :=
  if decide (target = "~") then homedir host
  else if JS.startsWith target ("~" ++ Path.sep)
       then Path.join [homedir host; drop 2 target]
       else target.

(** The default value of the third parameter applies when the caller
    passes [undefined]. *)
Definition resolveWithinRoot (root target : str) (allowOutsideRoot : option bool)
  : Result str :=
  let allowOutsideRoot := default true allowOutsideRoot in
  let resolved := Path.resolve (cwd host) [root; expandHome target] in
  let normalizedRoot := Path.resolve (cwd host) [root] in
  if negb allowOutsideRoot
     && negb (JS.startsWith resolved (normalizedRoot ++ Path.sep))
     && negb (bool_decide (resolved = normalizedRoot))
  then Err (("Path escapes root: " : str) ++ target)
  else Ok resolved.

(** [spawn(...)] and the promise settled by its 'error' or 'close'
    event. *)
Definition spawn (request : SpawnRequest) : IO World ProcessOutcome :=
  fun w =>
    let '(outcome, fs) := run_process host request (files w) in
    (Ok outcome,
     {| files := fs; spawned := spawned w ++ [request]; stdin := stdin w;
        stdout_prompts := stdout_prompts w |}).

Definition writeFile (ctx : ToolContext) (target content : str) : IO World str :=
  let* resolved := io_lift (resolveWithinRoot (root ctx) target (allowOutsideRoot ctx)) in
  Fs.mkdirRecursive (Path.dirname resolved) ;;;
  Fs.writeFile resolved content ;;;
  io_ret (("Wrote " : str) ++ target).

Definition appendFile (ctx : ToolContext) (target content : str) : IO World str :=
  let* resolved := io_lift (resolveWithinRoot (root ctx) target (allowOutsideRoot ctx)) in
  Fs.mkdirRecursive (Path.dirname resolved) ;;;
  Fs.appendFile resolved content ;;;
  io_ret (("Appended " : str) ++ target).

Definition createFile (ctx : ToolContext) (target content : str) (overwrite : bool)
  : IO World str :=
  let* resolved := io_lift (resolveWithinRoot (root ctx) target (allowOutsideRoot ctx)) in
  Fs.mkdirRecursive (Path.dirname resolved) ;;;
  let* w := io_get in
  let exists_ := Fs.exists_ resolved w in
  if exists_ && negb overwrite
  then io_throw (("File already exists: " : str) ++ target)
  else
    Fs.writeFile resolved content ;;;
    io_ret (("Created " : str) ++ target).

Definition deleteFile (ctx : ToolContext) (target : str) : IO World str :=
  let* resolved := io_lift (resolveWithinRoot (root ctx) target (allowOutsideRoot ctx)) in
  Fs.rmRecursiveForce resolved ;;;
  io_ret (("Deleted " : str) ++ target).

(** The new content [replaceInFile] computes from the old. *)
Definition replacedText (raw find replace : str) (replaceAll : bool) : str :=
  if replaceAll then JS.join replace (JS.split raw find)
  else JS.replace raw find replace.

Definition replaceInFile (ctx : ToolContext) (target find replace : str)
    (replaceAll : bool) : IO World str :=
  let* resolved := io_lift (resolveWithinRoot (root ctx) target (allowOutsideRoot ctx)) in
  let* raw := Fs.readFile resolved in
  let updated := replacedText raw find replace replaceAll in
  Fs.writeFile resolved updated ;;;
  io_ret (("Replaced text in " : str) ++ target).

(** [value || fallback] on strings. *)
Definition orElse (value fallback : str) : str :=
  match value with [] => fallback | _ :: _ => value end.

Definition showCode (code : option Z) : str :=
  match code with Some n => showNumber host n | None => "null" end.

(** The request [runShell] hands to [spawn]. *)
Definition shellRequest (ctx : ToolContext) (command : str) (args : list str)
  : SpawnRequest :=
  let useShell := bool_decide (length args = 0%nat) && JS.includes command " " in
  if useShell
  then {| spawn_file := command; spawn_args := []; spawn_cwd := root ctx;
          spawn_shell := true |}
  else {| spawn_file := command; spawn_args := args; spawn_cwd := root ctx;
          spawn_shell := false |}.

Definition runShell (ctx : ToolContext) (command : str) (args : list str)
  : IO World str :=
  let* outcome := spawn (shellRequest ctx command args) in
  match outcome with
  | SpawnFailed error => io_throw error
  | Closed code stdout stderr =>
      if decide (code = Some 0%Z)
      then io_ret (orElse (JS.trim stdout) "Command completed")
      else io_throw (orElse (JS.trim stderr)
                       (("Command failed with code " : str) ++ showCode code))
  end.

Definition runGit (ctx : ToolContext) (args : list str) : IO World str :=
  runShell ctx "git" args.

Definition readFile (ctx : ToolContext) (target : str) (start end_ : option Z)
  : IO World str :=
  let* resolved := io_lift (resolveWithinRoot (root ctx) target (allowOutsideRoot ctx)) in
  let* raw := Fs.readFile resolved in
  match start, end_ with
  | None, None => io_ret raw
  | _, _ =>
      let lines := JS.splitLines raw in
      let from := Z.max 1 (default 1%Z start) in
      let to := Z.min (Z.of_nat (length lines))
                      (default (Z.of_nat (length lines)) end_) in
      io_ret (JS.join [JS.lineFeed] (JS.slice lines (from - 1) to))
  end.

Section WithRename.
(** [fs.rename] is left to the host. *)
Context (rename : str -> str -> IO World unit).

Definition moveFile (ctx : ToolContext) (from to : str) : IO World str :=
  let* source := io_lift (resolveWithinRoot (root ctx) from (allowOutsideRoot ctx)) in
  let* dest := io_lift (resolveWithinRoot (root ctx) to (allowOutsideRoot ctx)) in
  Fs.mkdirRecursive (Path.dirname dest) ;;;
  rename source dest ;;;
  io_ret (("Moved " : str) ++ from ++ " -> " ++ to).

Definition renameFile (ctx : ToolContext) (from to : str) : IO World str :=
  let* source := io_lift (resolveWithinRoot (root ctx) from (allowOutsideRoot ctx)) in
  let* dest := io_lift (resolveWithinRoot (root ctx) to (allowOutsideRoot ctx)) in
  rename source dest ;;;
  io_ret (("Renamed " : str) ++ from ++ " -> " ++ to).

End WithRename.

Section WithClock.
(** [os.tmpdir()], an absolute path, and [Date.now()]. *)
Context (tmpdir : str) (now : Z).

Definition tempPath : str :=
  Path.join [tmpdir; ("darell-" : str) ++ showNumber host now ++ ".patch"].

Definition applyPatch (ctx : ToolContext) (patch : str) : IO World str :=
  let* resolved := io_lift (resolveWithinRoot (root ctx) "." (allowOutsideRoot ctx)) in
  Fs.writeFile tempPath patch ;;;
  io_finally
    (let gitPath := Path.join [resolved; (".git" : str)] in
     let* w := io_get in
     let useGit := Fs.exists_ gitPath w in
     (if useGit
      then runShell ctx "git" (strs ["apply"; "--whitespace=nowarn"] ++ [tempPath])
      else runShell ctx "patch" (strs ["-p0"; "-i"] ++ [tempPath])) ;;;
     io_ret ("Patch applied" : str))
    (Fs.rmForce tempPath).

End WithClock.

End WithHost.

(** ** Vocabulary of the specification *)

(** The occurrences of [find] in [s], counted from the left without
    overlap: after an occurrence the count goes on behind it.  For a
    non-empty [find] every round consumes a character, so [length s] rounds
    are enough ([countFrom_fuel]). *)
Fixpoint countFrom (fuel : nat) (s find : str) : nat :=
  match fuel with
  | 0 => 0
  | S fuel' =>
      match JS.indexOf s find with
      | None => 0
      | Some i => S (countFrom fuel' (drop (i + length find) s) find)
      end
  end.

Definition occurrences (s find : str) : nat := countFrom (length s) s find.

End Tools.

(** * Configuration and the model client ([core/config.ts], [core/openai.ts]) *)

Module Config.

Record DarellConfig := {
  apiKey : option str;
  baseUrl : option str;
  organization : option str;
  model : option str;
  autoApprove : option bool;
  allowOutsideRoot : option bool;
  pricing : option (gmap str Pricing.ModelPricing);
}.

(** [{ ...config, apiKey: `***${config.apiKey.slice(-4)}` }]; a missing or
    empty key leaves a plain copy. *)
Definition redactConfig (config : DarellConfig) : DarellConfig :=
  match apiKey config with
  | Some (c :: key) =>
      {| apiKey := Some (("***" : str) ++ JS.sliceFrom (c :: key) (-4));
         baseUrl := baseUrl config; organization := organization config;
         model := model config; autoApprove := autoApprove config;
         allowOutsideRoot := allowOutsideRoot config; pricing := pricing config |}
  | _ => config
  end.

End Config.

Inductive Role := system | user | assistant | developer | function.

Record ChatRequest := {
  req_model : str;
  req_messages : list (Role * str);
  req_json_object : bool;   (* [response_format: { type: "json_object" }] *)
  req_temperature : Q;
}.

Record ChatResponse := {
  resp_usage : option Pricing.RawUsage;
  resp_content : option str;  (* [choices[0]?.message?.content] *)
}.

Module OpenAI.

(** [createClient] only checks that a key is there; the empty key counts
    as missing. *)
Definition createClient (config : Config.DarellConfig) : Result unit :=
  match Config.apiKey config with
  | Some (_ :: _) => Ok tt
  | _ => Err "Missing OpenAI API key. Run `darell configure` or set OPENAI_API_KEY."
  end.

Definition resolveModel (config : Config.DarellConfig) : str :=
  match Config.model config with
  | Some (c :: m) => c :: m
  | _ => "gpt-4o-mini"
  end.

End OpenAI.

(** * The orchestrator ([core/agent.ts]) *)

Module Agent.

Inductive AgentAction :=
| read_file (path : str) (start end_ : option Z) (reason : option str)
| write_file (path content : str) (reason : option str)
| append_file (path content : str) (reason : option str)
| create_file (path content : str) (overwrite : option bool) (reason : option str)
| delete_file (path : str) (reason : option str)
| replace_in_file (path find replace : str) (replaceAll : option bool)
    (reason : option str)
| list_dir (path : str) (recursive includeHidden : option bool) (reason : option str)
| file_info (path : str) (reason : option str)
| search_files (query : str) (glob : option str) (reason : option str)
| apply_patch (patch : str) (reason : option str)
| move_file (from to : str) (reason : option str)
| rename_file (from to : str) (reason : option str)
| shell_command (command : str) (args : list str) (reason : option str)
| git (args : list str) (reason : option str).

Record AgentPlan := {
  summary : option str;
  response : option str;
  actions : list AgentAction;
}.

Inductive Phase := phase_plan | phase_followup | phase_run.

Inductive EventType := ev_plan | ev_action | ev_result | ev_error | ev_info.

Inductive AgentEvent :=
| Message (type : EventType) (message : str)
| Usage (message : str) (usage : Pricing.UsageSummary) (phase : Phase).

#[global] Instance Phase_eq_dec : EqDecision Phase.
Proof. solve_decision. Defined.

#[global] Instance EventType_eq_dec : EqDecision EventType.
Proof. solve_decision. Defined.

(** The tool adapters as the orchestrator sees them. *)
Record ToolAdapters (W : Type) := {
  readFile : Tools.ToolContext -> str -> option Z -> option Z -> IO W str;
  writeFile : Tools.ToolContext -> str -> str -> IO W str;
  appendFile : Tools.ToolContext -> str -> str -> IO W str;
  createFile : Tools.ToolContext -> str -> str -> bool -> IO W str;
  deleteFile : Tools.ToolContext -> str -> IO W str;
  replaceInFile : Tools.ToolContext -> str -> str -> str -> bool -> IO W str;
  listDir : Tools.ToolContext -> str -> bool -> bool -> IO W str;
  fileInfo : Tools.ToolContext -> str -> IO W str;
  searchFiles : Tools.ToolContext -> str -> option str -> IO W str;
  applyPatch : Tools.ToolContext -> str -> IO W str;
  moveFile : Tools.ToolContext -> str -> str -> IO W str;
  renameFile : Tools.ToolContext -> str -> str -> IO W str;
  runShell : Tools.ToolContext -> str -> list str -> IO W str;
  runGit : Tools.ToolContext -> list str -> IO W str;
}.

(** What else the orchestrator calls: the terminal, the model client,
    JSON parsing with schema validation, and a few conversions. *)
Record Services (W : Type) := {
  question : str -> IO W str;                   (* [rl.question] *)
  chatCompletion : ChatRequest -> IO W ChatResponse;
  parsePlan : str -> Result AgentPlan;          (* [PlanSchema.parse(JSON.parse(raw))] *)
  platform : str;
  release : str;
  arch : str;
  numberToString : Z -> str;
  toFixed6 : Number.double -> str;   (* [cost.toFixed(6)] *)
}.

Arguments readFile {W}. Arguments writeFile {W}. Arguments appendFile {W}.
Arguments createFile {W}. Arguments deleteFile {W}. Arguments replaceInFile {W}.
Arguments listDir {W}. Arguments fileInfo {W}. Arguments searchFiles {W}.
Arguments applyPatch {W}. Arguments moveFile {W}. Arguments renameFile {W}.
Arguments runShell {W}. Arguments runGit {W}.
Arguments question {W}. Arguments chatCompletion {W}. Arguments parsePlan {W}.
Arguments platform {W}. Arguments release {W}. Arguments arch {W}.
Arguments numberToString {W}. Arguments toFixed6 {W}.

Definition nl : str := ["010"%char].

Section WithRuntime.
Context {W : Type} (tools : ToolAdapters W) (services : Services W).

Record RunAgentOptions := {
  task : str;
  root : str;
  config : Config.DarellConfig;
  autoApprove : option bool;
  confirm : option (AgentAction -> IO W bool);
  history : option (list (Role * str));
}.

(** The state of a run: the world and the events handed to [onEvent]. *)
Definition Run : Type := W * list AgentEvent.

Definition inWorld {A} (m : IO W A) : IO Run A :=
  fun st => let '(r, w) := m st.1 in (r, (w, st.2)).

Definition emit (event : AgentEvent) : IO Run unit :=
  io_modify (fun st => (st.1, st.2 ++ [event])).

(** [confirmAction] of [core/confirm.ts]: the answer matches
    [/^y(es)?$/i] once trimmed. *)
Definition confirmAction (message : str) : IO W bool :=
  let* answer := question services (message ++ " (y/N): ") in
  let answer := JS.toLowerCase (JS.trim answer) in
  io_ret (bool_decide (answer = "y" \/ answer = "yes")).

Definition buildPrompt (root : str) (allowOutsideRoot : option bool) : str :=
  JS.join nl [
    ("You are a careful local CLI agent." : str);
    ("Operating system: " : str) ++ platform services ++ " " ++ release services
      ++ " (" ++ arch services ++ ").";
    ("Return a JSON object with a response and an ordered list of actions." : str);
    ("Available action types:" : str);
    ("read_file, write_file, append_file, create_file, delete_file, replace_in_file," : str);
    ("list_dir, file_info, search_files, apply_patch, move_file, rename_file, shell_command, git." : str);
    ("Use relative paths when possible and do not include unsafe or destructive commands." : str);
    ("Do not include explanatory text outside JSON." : str) ].

Definition phaseName (phase : Phase) : str :=
  match phase with
  | phase_plan => "plan"
  | phase_followup => "followup"
  | phase_run => "run"
  end.

Definition formatUsageMessage (usage : Pricing.UsageSummary) (phase : Phase) : str :=
  let cost :=
    match Pricing.cost usage with
    | Some c => ("$" : str) ++ toFixed6 services c
    | None => "n/a"
    end in
  ("Usage (" : str) ++ phaseName phase ++ "): in "
    ++ numberToString services (Pricing.promptTokens usage)
    ++ ", out " ++ numberToString services (Pricing.completionTokens usage)
    ++ ", total " ++ numberToString services (Pricing.totalTokens usage)
    ++ ", cost " ++ cost.

Definition typeName (a : AgentAction) : str :=
  match a with
  | read_file _ _ _ _ => "read_file"
  | write_file _ _ _ => "write_file"
  | append_file _ _ _ => "append_file"
  | create_file _ _ _ _ => "create_file"
  | delete_file _ _ => "delete_file"
  | replace_in_file _ _ _ _ _ => "replace_in_file"
  | list_dir _ _ _ _ => "list_dir"
  | file_info _ _ => "file_info"
  | search_files _ _ _ => "search_files"
  | apply_patch _ _ => "apply_patch"
  | move_file _ _ _ => "move_file"
  | rename_file _ _ _ => "rename_file"
  | shell_command _ _ _ => "shell_command"
  | git _ _ => "git"
  end.

Definition reasonOf (a : AgentAction) : option str :=
  match a with
  | read_file _ _ _ r | write_file _ _ r | append_file _ _ r
  | create_file _ _ _ r | delete_file _ r | replace_in_file _ _ _ _ r
  | list_dir _ _ _ r | file_info _ r | search_files _ _ r | apply_patch _ r
  | move_file _ _ r | rename_file _ _ r | shell_command _ _ r | git _ r => r
  end.

(** The fields the description shows, empty where the action has none. *)
Definition pathOf (a : AgentAction) : str :=
  match a with
  | read_file p _ _ _ | write_file p _ _ | append_file p _ _
  | create_file p _ _ _ | delete_file p _ | replace_in_file p _ _ _ _
  | list_dir p _ _ _ | file_info p _ => p
  | _ => []
  end.

Definition fromOf (a : AgentAction) : str :=
  match a with move_file f _ _ | rename_file f _ _ => f | _ => [] end.

Definition toOf (a : AgentAction) : str :=
  match a with move_file _ t _ | rename_file _ t _ => t | _ => [] end.

Definition commandOf (a : AgentAction) : str :=
  match a with shell_command c _ _ => c | _ => [] end.

Definition argsOf (a : AgentAction) : str :=
  match a with
  | shell_command _ args _ | git args _ => JS.join " " args
  | _ => []
  end.

Definition describe (a : AgentAction) : str :=
  JS.trim (typeName a ++ ": " ++ pathOf a ++ " " ++ fromOf a ++ " " ++ toOf a
           ++ " " ++ commandOf a ++ " " ++ argsOf a).

(** The [switch] over the action type. *)
Definition dispatch (ctx : Tools.ToolContext) (a : AgentAction) : IO W str :=
  match a with
  | read_file path start end_ _ => readFile tools ctx path start end_
  | write_file path content _ => writeFile tools ctx path content
  | append_file path content _ => appendFile tools ctx path content
  | create_file path content overwrite _ =>
      createFile tools ctx path content (default false overwrite)
  | delete_file path _ => deleteFile tools ctx path
  | replace_in_file path find replace replaceAll _ =>
      replaceInFile tools ctx path find replace (default true replaceAll)
  | list_dir path recursive includeHidden _ =>
      listDir tools ctx path (default false recursive) (default false includeHidden)
  | file_info path _ => fileInfo tools ctx path
  | search_files query glob _ => searchFiles tools ctx query glob
  | apply_patch patch _ => applyPatch tools ctx patch
  | move_file from to _ => moveFile tools ctx from to
  | rename_file from to _ => renameFile tools ctx from to
  | shell_command command args _ => runShell tools ctx command args
  | git args _ => runGit tools ctx args
  end.

(** The approval gate: asked unless the run auto-approves. *)
Definition approval (options : RunAgentOptions) (a : AgentAction) : IO W bool :=
  if negb (default false (autoApprove options)) then
    let confirm :=
      default (fun next : AgentAction =>
                 confirmAction
                   (JS.trim (("Run " : str) ++ typeName next ++ "? "
                             ++ default [] (reasonOf next))))
              (confirm options) in
    confirm a
  else io_ret true.

(** One round of the loop over [plan.actions]. *)
Definition runAction (options : RunAgentOptions) (ctx : Tools.ToolContext)
    (executionLog : list str) (a : AgentAction) : IO Run (list str) :=
  let description := describe a in
  emit (Message ev_action description) ;;;
  let* ok := inWorld (approval options a) in
  if negb ok then
    emit (Message ev_info (("Skipped: " : str) ++ description)) ;;;
    io_ret (executionLog ++ [("SKIPPED " : str) ++ description])
  else
    io_catch
      (let* result := inWorld (dispatch ctx a) in
       emit (Message ev_result result) ;;;
       io_ret (executionLog ++ [("OK " : str) ++ description ++ nl ++ result]))
      (fun error =>
         let message := String_of_error error in
         emit (Message ev_error message) ;;;
         io_ret (executionLog ++ [("ERROR " : str) ++ description ++ nl ++ message])).

Fixpoint runActions (options : RunAgentOptions) (ctx : Tools.ToolContext)
    (executionLog : list str) (todo : list AgentAction) : IO Run (list str) :=
  match todo with
  | [] => io_ret executionLog
  | a :: rest =>
      let* executionLog' := runAction options ctx executionLog a in
      runActions options ctx executionLog' rest
  end.

(** [runUsage.x += usage.x], the cost only when [usage] has one. *)
Definition accumulate (runUsage usage : Pricing.UsageSummary) : Pricing.UsageSummary :=
  {| Pricing.model := Pricing.model runUsage;
     Pricing.promptTokens := Pricing.promptTokens runUsage + Pricing.promptTokens usage;
     Pricing.completionTokens :=
       Pricing.completionTokens runUsage + Pricing.completionTokens usage;
     Pricing.totalTokens := Pricing.totalTokens runUsage + Pricing.totalTokens usage;
     Pricing.cachedTokens := Pricing.cachedTokens runUsage + Pricing.cachedTokens usage;
     Pricing.cost :=
       match Pricing.cost usage with
       | Some c => Some (Number.add (default Number.zero (Pricing.cost runUsage)) c)
       | None => Pricing.cost runUsage
       end |}.

(** Emit the usage of one model call and add it to the run total. *)
Definition recordUsage (phase : Phase) (usage : option Pricing.UsageSummary)
    (runUsage : Pricing.UsageSummary) : IO Run Pricing.UsageSummary :=
  match usage with
  | Some usage =>
      emit (Usage (formatUsageMessage usage phase) usage phase) ;;;
      io_ret (accumulate runUsage usage)
  | None => io_ret runUsage
  end.

(** The context every adapter call of a run receives. *)
Definition toolContext (options : RunAgentOptions) : Tools.ToolContext :=
  {| Tools.root := root options; Tools.allowOutsideRoot := Some true |}.

Definition nonEmpty (s : option str) : option str :=
  match s with Some (c :: s') => Some (c :: s') | _ => None end.

Definition runAgent (options : RunAgentOptions) : IO Run unit :=
  io_lift (OpenAI.createClient (config options)) ;;;
  let model := OpenAI.resolveModel (config options) in
  let runUsage :=
    {| Pricing.model := model; Pricing.promptTokens := 0;
       Pricing.completionTokens := 0; Pricing.totalTokens := 0;
       Pricing.cachedTokens := 0; Pricing.cost := None |} in
  emit (Message ev_info (("Using model " : str) ++ model)) ;;;
  let* completion :=
    inWorld (chatCompletion services
      {| req_model := model;
         req_messages :=
           (system, buildPrompt (root options)
                      (Config.allowOutsideRoot (config options)))
           :: match history options with
              | Some (m :: ms) => m :: ms
              | _ => [(user, task options)]
              end;
         req_json_object := true;
         req_temperature := 0 |}) in
  let initialUsage :=
    Pricing.summarizeUsage model (resp_usage completion)
      (Config.pricing (config options)) in
  let* runUsage := recordUsage phase_plan initialUsage runUsage in
  let raw := default [] (resp_content completion) in
  let* plan :=
    match parsePlan services raw with
    | Ok plan => io_ret plan
    | Err error =>
        io_throw (("Failed to parse plan: " : str) ++ error ++ nl ++ "Raw: " ++ raw)
    end in
  emit (Message ev_plan (default ("Plan ready" : str) (nonEmpty (summary plan)))) ;;;
  match nonEmpty (response plan) with
  | Some text => emit (Message ev_result text)
  | None => io_ret tt
  end ;;;
  let ctx := toolContext options in
  let* executionLog := runActions options ctx [] (actions plan) in
  let* runUsage :=
    if (0 <? length executionLog)%nat then
      let* followUp :=
        inWorld (chatCompletion services
          {| req_model := model;
             req_messages :=
               [ (system,
                  JS.join " " [
                    ("You are a concise CLI assistant." : str);
                    ("Summarize the outcome of the actions and answer the user request." : str);
                    ("If there were errors or skipped actions, mention them briefly." : str) ]);
                 (user,
                  ("User request: " : str) ++ task options ++ nl ++ nl
                    ++ "Action log:" ++ nl ++ JS.join (nl ++ nl) executionLog) ];
             req_json_object := false;
             req_temperature := 0.2 |}) in
      let followUsage :=
        Pricing.summarizeUsage model (resp_usage followUp)
          (Config.pricing (config options)) in
      let* runUsage := recordUsage phase_followup followUsage runUsage in
      match nonEmpty (JS.trim <$> resp_content followUp) with
      | Some text => emit (Message ev_result text)
      | None => io_ret tt
      end ;;;
      io_ret runUsage
    else io_ret runUsage in
  if (0 <? Pricing.totalTokens runUsage)%Z
  then emit (Usage (formatUsageMessage runUsage phase_run) runUsage phase_run)
  else io_ret tt.

End WithRuntime.

(** ** Vocabulary of the specification *)

(** The usage summaries a run reported under [phase], in order. *)
Definition usagesOf (phase : Phase) (events : list AgentEvent)
  : list Pricing.UsageSummary :=
  omap (fun e => match e with
                 | Usage _ u ph => if decide (ph = phase) then Some u else None
                 | Message _ _ => None
                 end) events.

(** The messages a run reported under [type], in order. *)
Definition messagesOf (type : EventType) (events : list AgentEvent) : list str :=
  omap (fun e => match e with
                 | Message ty m => if decide (ty = type) then Some m else None
                 | Usage _ _ _ => None
                 end) events.

(** The sum of the costs that are there, added up from the left in double
    arithmetic starting from 0; unset when none is. *)
Definition sumCosts (costs : list (option Number.double)) : option Number.double :=
  foldl (fun total cost =>
           match cost with
           | Some c => Some (Number.add (default Number.zero total) c)
           | None => total
           end) None costs.

Definition sumZ (l : list Z) : Z := foldr Z.add 0%Z l.

(** The run total before any model call. *)
Definition zeroUsage (model : str) : Pricing.UsageSummary :=
  {| Pricing.model := model; Pricing.promptTokens := 0;
     Pricing.completionTokens := 0; Pricing.totalTokens := 0;
     Pricing.cachedTokens := 0; Pricing.cost := None |}.

(** The two requests a run sends to the model: for the plan, and for the
    summary of what the actions did. *)
Definition planRequest {W} (services : Services W)
    (options : RunAgentOptions (W := W)) : ChatRequest :=
  {| req_model := OpenAI.resolveModel (config options);
     req_messages :=
       (system, buildPrompt services (root options)
                  (Config.allowOutsideRoot (config options)))
       :: match history options with
          | Some (m :: ms) => m :: ms
          | _ => [(user, task options)]
          end;
     req_json_object := true;
     req_temperature := 0 |}.

Definition followUpRequest {W} (options : RunAgentOptions (W := W))
    (executionLog : list str) : ChatRequest :=
  {| req_model := OpenAI.resolveModel (config options);
     req_messages :=
       [ (system,
          JS.join " " [
            ("You are a concise CLI assistant." : str);
            ("Summarize the outcome of the actions and answer the user request." : str);
            ("If there were errors or skipped actions, mention them briefly." : str) ]);
         (user,
          ("User request: " : str) ++ task options ++ nl ++ nl
            ++ "Action log:" ++ nl ++ JS.join (nl ++ nl) executionLog) ];
     req_json_object := false;
     req_temperature := 0.2 |}.

End Agent.

(** * The command line ([ui/CliApp.tsx]) and the agent view ([ui/AgentApp.tsx]) *)

Module Cli.

(** A value of the [args] record: a string, or [true]. *)
Inductive ArgValue :=
| Text (value : str)
| Flag.

Record Parsed := {
  command : option str;
  args : gmap str ArgValue;
  positionals : list str;
}.

(** The loop of [parseArgs] over [rest]; a long option without "=" takes
    the next token as its value when that token is not empty and does not
    begin with a dash. *)
Fixpoint parseRest (rest : list str) (args : gmap str ArgValue)
    (positionals : list str) : gmap str ArgValue * list str :=
  match rest with
  | [] => (args, positionals)
  | value :: rest' =>
      if JS.startsWith value "--" then
        match JS.split (drop 2 value) "=" with
        | key :: inlineValue :: _ =>
            parseRest rest' (<[key := Text inlineValue]> args) positionals
        | [key] =>
            match rest' with
            | next :: rest'' =>
                if bool_decide (next <> []) && negb (JS.startsWith next "-")
                then parseRest rest'' (<[key := Text next]> args) positionals
                else parseRest rest' (<[key := Flag]> args) positionals
            | [] => parseRest rest' (<[key := Flag]> args) positionals
            end
        | [] => parseRest rest' args positionals   (* [split] returns a piece *)
        end
      else if JS.startsWith value "-" then
        parseRest rest'
          (foldl (fun args flag => <[flag := Flag]> args) args
                 (JS.split (drop 1 value) []))
          positionals
      else parseRest rest' args (positionals ++ [value])
  end.

Definition parseArgs (argv : list str) : Parsed :=
  match argv with
  | [] => {| command := None; args := ∅; positionals := [] |}
  | command :: rest =>
      let '(args, positionals) := parseRest rest ∅ [] in
      {| command := Some command; args := args; positionals := positionals |}
  end.

(** The properties handed to [AgentApp]. *)
Record AgentProps := {
  task : str;
  root : str;
  config : Config.DarellConfig;
  autoApprove : option bool;
}.

(** [typeof args.key === 'string' ? args.key : otherwise] *)
Definition stringArg (args : gmap str ArgValue) (key : str) : option str :=
  match args !! key with
  | Some (Text value) => Some value
  | _ => None
  end.

(** Truthiness of [args.key]: [true] and non-empty strings. *)
Definition truthyArg (args : gmap str ArgValue) (key : str) : bool :=
  match args !! key with
  | Some Flag => true
  | Some (Text value) => bool_decide (value <> [])
  | None => false
  end.

(** The branch of [CliApp] for the command "agent", once the
    configuration is loaded: [None] stands for the hint to provide a
    task. *)
Definition agentCommand (cwd : str) (parsed : Parsed) (config : Config.DarellConfig)
  : option AgentProps :=
  let task := JS.join " " (positionals parsed) in
  match task with
  | [] => None
  | _ :: _ =>
      let root := default cwd (stringArg (args parsed) "root") in
      let model := stringArg (args parsed) "model" in
      let autoApprove := truthyArg (args parsed) "yes" || truthyArg (args parsed) "y" in
      Some {| task := task; root := root;
              config :=
                {| Config.apiKey := Config.apiKey config;
                   Config.baseUrl := Config.baseUrl config;
                   Config.organization := Config.organization config;
                   Config.model := model;
                   Config.autoApprove := Config.autoApprove config;
                   Config.allowOutsideRoot := Config.allowOutsideRoot config;
                   Config.pricing := Config.pricing config |};
              autoApprove :=
                if autoApprove then Some true else Config.autoApprove config |}
  end.

End Cli.

Module AgentApp.

(** [setEvents((prev) => [...prev, event].slice(-12))] *)
Definition pushEvent {E} (prev : list E) (event : E) : list E :=
  JS.sliceFrom (prev ++ [event]) (-12).

(** The events on display after [onEvent] has been called with each of
    [events] in turn. *)
Definition display {E} (events : list E) : list E := foldl pushEvent [] events.

End AgentApp.

(** * The orchestrator on the host *)

Module Runtime.

(** The adapters whose inner working the properties below do not need:
    they are taken as given. *)
Record OtherAdapters := {
  readFile : Tools.ToolContext -> str -> option Z -> option Z -> IO World str;
  listDir : Tools.ToolContext -> str -> bool -> bool -> IO World str;
  fileInfo : Tools.ToolContext -> str -> IO World str;
  searchFiles : Tools.ToolContext -> str -> option str -> IO World str;
  applyPatch : Tools.ToolContext -> str -> IO World str;
  moveFile : Tools.ToolContext -> str -> str -> IO World str;
  renameFile : Tools.ToolContext -> str -> str -> IO World str;
}.

Definition tools (host : Host) (other : OtherAdapters) : Agent.ToolAdapters World :=
  {| Agent.readFile := readFile other;
     Agent.writeFile := Tools.writeFile host;
     Agent.appendFile := Tools.appendFile host;
     Agent.createFile := Tools.createFile host;
     Agent.deleteFile := Tools.deleteFile host;
     Agent.replaceInFile := Tools.replaceInFile host;
     Agent.listDir := listDir other;
     Agent.fileInfo := fileInfo other;
     Agent.searchFiles := searchFiles other;
     Agent.applyPatch := applyPatch other;
     Agent.moveFile := moveFile other;
     Agent.renameFile := renameFile other;
     Agent.runShell := Tools.runShell host;
     Agent.runGit := Tools.runGit host |}.

(** [rl.question]: print the prompt, take the next line typed (the empty
    line once there is none). *)
Definition question (prompt : str) : IO World str :=
  fun w =>
    (Ok (hd [] (stdin w)),
     {| files := files w; spawned := spawned w; stdin := tl (stdin w);
        stdout_prompts := stdout_prompts w ++ [prompt] |}).

(** A model endpoint that answers each request by a fixed function. *)
Definition services (host : Host) (endpoint : ChatRequest -> Result ChatResponse)
    (parsePlan : str -> Result Agent.AgentPlan) (toFixed6 : Number.double -> str)
  : Agent.Services World :=
  {| Agent.question := question;
     Agent.chatCompletion := fun request => io_lift (endpoint request);
     Agent.parsePlan := parsePlan;
     Agent.platform := "linux";
     Agent.release := "6.1.0";
     Agent.arch := "x64";
     Agent.numberToString := showNumber host;
     Agent.toFixed6 := toFixed6 |}.

End Runtime.

(** * A small scenario, used to exercise the statements below *)

Module Scenario.

Definition host : Host :=
  {| cwd := "/home/dev/project";
     homedir := "/home/dev";
     run_process := fun request fs =>
       if decide (spawn_file request = "false")
       then (Closed (Some 1%Z) [] "boom", fs)
       else (Closed (Some 0%Z) "done" [], fs);
     showNumber := fun _ => "#" |}.

Definition unavailable {A} : IO World A := io_throw "adapter not available".

Definition other : Runtime.OtherAdapters :=
  {| Runtime.readFile := fun _ _ _ _ => unavailable;
     Runtime.listDir := fun _ _ _ _ => unavailable;
     Runtime.fileInfo := fun _ _ => unavailable;
     Runtime.searchFiles := fun _ _ _ => unavailable;
     Runtime.applyPatch := fun _ _ => unavailable;
     Runtime.moveFile := fun _ _ _ => unavailable;
     Runtime.renameFile := fun _ _ _ => unavailable |}.

Definition tools : Agent.ToolAdapters World := Runtime.tools host other.

Definition counters (prompt completion : Z) : Pricing.RawUsage :=
  {| Pricing.prompt_tokens := Some prompt;
     Pricing.completion_tokens := Some completion;
     Pricing.total_tokens := None;
     Pricing.prompt_tokens_details := None |}.

(** The endpoint proposes [thePlan] (as the text "PLAN") when asked for
    JSON and a summary otherwise. *)
Definition endpoint (request : ChatRequest) : Result ChatResponse :=
  if req_json_object request
  then Ok {| resp_usage := Some (counters 1200 300);
             resp_content := Some ("PLAN" : str) |}
  else Ok {| resp_usage := Some (counters 800 100);
             resp_content := Some ("All done." : str) |}.

Definition services (thePlan : Agent.AgentPlan) : Agent.Services World :=
  Runtime.services host endpoint
    (fun raw => if decide (raw = "PLAN") then Ok thePlan else Err "SyntaxError")
    (fun _ => "0.000000").

Definition emptyWorld : World :=
  {| files := ∅; spawned := []; stdin := []; stdout_prompts := [] |}.

Definition theConfig : Config.DarellConfig :=
  {| Config.apiKey := Some ("sk-test" : str); Config.baseUrl := None;
     Config.organization := None;
     Config.model := Some ("gpt-4.1" : str); Config.autoApprove := None;
     Config.allowOutsideRoot := None; Config.pricing := None |}.

Definition options (auto : bool) : Agent.RunAgentOptions (W := World) :=
  {| Agent.task := "tidy up"; Agent.root := "/work"; Agent.config := theConfig;
     Agent.autoApprove := Some auto; Agent.confirm := None; Agent.history := None |}.

(** A workspace holding one file. *)
Definition workspace : World :=
  {| files := <[ strs ["work"; "notes.txt"] := File "hello" ]>
                (<[ strs ["work"] := Dir ]> ∅);
     spawned := []; stdin := []; stdout_prompts := [] |}.

Definition confined : Tools.ToolContext :=
  {| Tools.root := "/work"; Tools.allowOutsideRoot := Some false |}.

Definition planOf (todo : list Agent.AgentAction) : Agent.AgentPlan :=
  {| Agent.summary := None; Agent.response := None; Agent.actions := todo |}.

End Scenario.

(** * Facts about the string primitives *)

Section StringFacts.
Implicit Types s p t : str.

Lemma startsWith_prefix s p : JS.startsWith s p = true <-> p `prefix_of` s.
Proof.
  revert s; induction p as [|a p IH]; intros [|b s]; simpl.
  - split; [intros _; apply prefix_nil | done].
  - split; [intros _; apply prefix_nil | done].
  - split; [done | intros H; apply prefix_nil_inv in H; done].
  - destruct (decide (a = b)) as [->|Hne].
    + rewrite IH. split; [apply prefix_cons | apply prefix_cons_inv_2].
    + split; [done | intros H; apply prefix_cons_inv_1 in H; done].
Qed.

Lemma startsWith_app s p : JS.startsWith (p ++ s) p = true.
Proof. apply startsWith_prefix, prefix_app_r; reflexivity. Qed.

Lemma startsWith_nil s : JS.startsWith s [] = true.
Proof. by destruct s. Qed.

End StringFacts.

(** * Facts about paths *)

Section PathFacts.
Implicit Types (p : str) (seg : str) (segs : list str).

Lemma splitChar_nonempty c p : Path.splitChar c p <> [].
Proof.
  destruct p as [|x p]; simpl; [done|].
  destruct (decide (x = c)); [done|]. by destruct (Path.splitChar c p).
Qed.

Lemma splitChar_free c p : Forall (fun seg => c ∉ seg) (Path.splitChar c p).
Proof.
  induction p as [|x p IH]; simpl.
  - constructor; [apply not_elem_of_nil | constructor].
  - destruct (decide (x = c)) as [->|Hne].
    + constructor; [apply not_elem_of_nil | done].
    + destruct (Path.splitChar c p) as [|seg segs].
      * constructor; [|constructor]. rewrite list_elem_of_singleton. congruence.
      * inversion IH; subst. constructor; [|done].
        rewrite elem_of_cons. intros [?|?]; congruence.
Qed.

Lemma cleanSeg_dotdot : Path.cleanSeg "..".
Proof.
  split; [done|]. simpl. rewrite !elem_of_cons, elem_of_nil. intuition discriminate.
Qed.

Lemma normalizeSegs_clean allowAboveRoot stack segs :
  Forall Path.cleanSeg stack ->
  Forall (fun seg => "/"%char ∉ seg) segs ->
  Forall Path.cleanSeg (Path.normalizeSegs allowAboveRoot stack segs).
Proof.
  revert stack; induction segs as [|seg segs IH]; intros stack Hst Hsegs; simpl.
  - by apply Forall_reverse.
  - inversion Hsegs as [|?? Hseg Hrest]; subst.
    case_decide as Hne; [by apply IH|].
    case_decide as Hdd.
    + destruct stack as [|top stack'].
      * apply IH; [|done]. destruct allowAboveRoot; [|done].
        subst seg. constructor; [apply cleanSeg_dotdot | done].
      * case_decide.
        -- apply IH; [|done]. destruct allowAboveRoot; [|done].
           subst seg. constructor; [apply cleanSeg_dotdot | done].
        -- apply IH; [|done]. by inversion Hst.
    + apply IH; [|done]. constructor; [|done]. split; [tauto | done].
Qed.

Lemma sep_join_render segs :
  segs <> [] -> Path.sep ++ JS.join Path.sep segs = Path.render segs.
Proof.
  induction segs as [|seg [|seg' rest] IH]; intros Hne; [done| |].
  - simpl. by rewrite app_nil_r.
  - change (JS.join Path.sep (seg :: seg' :: rest))
      with (seg ++ Path.sep ++ JS.join Path.sep (seg' :: rest)).
    rewrite IH by done. reflexivity.
Qed.

Lemma prependUntilAbsolute_absolute l1 p l2 acc :
  Path.isAbsolute p = true ->
  snd (Path.prependUntilAbsolute (l1 ++ p :: l2) acc) = true.
Proof.
  intros Hp. revert acc. induction l1 as [|q l1 IH]; intros acc; simpl.
  - destruct p; [done|]. by rewrite Hp.
  - destruct q as [|c q]; [apply IH|].
    destruct (Path.isAbsolute (c :: q)); [done | apply IH].
Qed.

(** With an absolute working directory [path.resolve] returns an absolute
    path made of clean components. *)
Lemma resolve_absolute wd args :
  Path.isAbsolute wd = true ->
  exists segs, Forall Path.cleanSeg segs /\
    Path.resolve wd args = Path.sep ++ JS.join Path.sep segs.
Proof.
  intros Hwd. unfold Path.resolve.
  pose proof (prependUntilAbsolute_absolute (reverse args) wd [] [] Hwd) as Habs.
  rewrite reverse_cons.
  destruct (Path.prependUntilAbsolute (reverse args ++ [wd]) []) as [rp ra].
  simpl in Habs; subst ra. simpl.
  eexists; split; [|reflexivity].
  apply normalizeSegs_clean; [constructor | apply splitChar_free].
Qed.

Lemma render_sepHead segs : Path.sepHead (Path.render segs).
Proof. destruct segs; [by left | right; simpl; eauto]. Qed.

Lemma seg_app_inj a b x y :
  "/"%char ∉ a -> "/"%char ∉ b -> Path.sepHead x -> Path.sepHead y ->
  a ++ x = b ++ y -> a = b /\ x = y.
Proof.
  revert b; induction a as [|c a IH]; intros [|d b] Ha Hb Hx Hy Heq; simpl in *.
  - done.
  - subst x. destruct Hx as [?|[x' ?]]; [done|]. simplify_eq.
    exfalso; apply Hb; left.
  - subst y. destruct Hy as [?|[y' ?]]; [done|]. simplify_eq.
    exfalso; apply Ha; left.
  - simplify_eq. rewrite not_elem_of_cons in Ha, Hb.
    destruct (IH b) as [-> ->]; tauto.
Qed.

Lemma seg_app_prefix a b x y :
  "/"%char ∉ a -> "/"%char ∉ b -> Path.sepHead y ->
  (a ++ "/"%char :: x) `prefix_of` (b ++ y) <->
  a = b /\ ("/"%char :: x) `prefix_of` y.
Proof.
  intros Ha Hb Hy. split.
  - intros [k Hk]. rewrite <- app_assoc in Hk. symmetry in Hk.
    apply seg_app_inj in Hk as [-> Hk]; [| done | done | right; eauto | done].
    split; [done|]. exists k. by rewrite Hk.
  - intros [-> Hp]. by apply prefix_app.
Qed.

Lemma render_inj rs ss :
  Forall Path.cleanSeg rs -> Forall Path.cleanSeg ss ->
  Path.render rs = Path.render ss -> rs = ss.
Proof.
  revert ss; induction rs as [|a rs IH]; intros [|b ss] Hrs Hss Heq;
    simpl in *; try done.
  inversion Hrs as [|?? [_ Ha] Hrs']; inversion Hss as [|?? [_ Hb] Hss']; subst.
  simplify_eq.
  apply seg_app_inj in Heq as [-> Heq]; auto using render_sepHead.
  f_equal; by apply IH.
Qed.

(** A rendered path extended by a separator is a prefix of another
    rendered path exactly when its components are a proper prefix. *)
Lemma render_sep_prefix rs ss :
  Forall Path.cleanSeg rs -> Forall Path.cleanSeg ss ->
  (Path.render rs ++ Path.sep) `prefix_of` Path.render ss <->
  exists seg rest, ss = rs ++ seg :: rest.
Proof.
  revert ss; induction rs as [|a rs IH]; intros ss Hrs Hss.
  - destruct ss as [|b ss]; simpl.
    + split; [intros H; by apply prefix_nil_inv in H | by intros (?&?&?)].
    + split; [eauto|]. intros _. apply prefix_cons, prefix_nil.
  - inversion Hrs as [|?? [_ Ha] Hrs']; subst.
    destruct ss as [|b ss].
    + split; [intros H; by apply prefix_nil_inv in H | by intros (?&?&?)].
    + inversion Hss as [|?? [_ Hb] Hss']; subst. simpl.
      assert (exists x, Path.render rs ++ Path.sep = "/"%char :: x) as [x Hx].
      { destruct rs; simpl; eauto. }
      rewrite <- app_assoc, Hx. split.
      * intros Hp. apply prefix_cons_inv_2 in Hp.
        apply seg_app_prefix in Hp as [-> Hp]; auto using render_sepHead.
        rewrite <- Hx in Hp. apply IH in Hp as (seg & rest & ->); eauto.
      * intros (seg & rest & Heq). simplify_eq. apply prefix_cons.
        apply seg_app_prefix; auto using render_sepHead. split; [done|].
        rewrite <- Hx. apply IH; eauto.
Qed.

Lemma splitChar_free_id c seg : c ∉ seg -> Path.splitChar c seg = [seg].
Proof.
  induction seg as [|x seg IH]; intros Hc; simpl; [done|].
  rewrite not_elem_of_cons in Hc. destruct Hc as [Hx Hc].
  rewrite decide_False by done. by rewrite IH.
Qed.

Lemma splitChar_app_sep c seg more :
  c ∉ seg -> Path.splitChar c (seg ++ c :: more) = seg :: Path.splitChar c more.
Proof.
  induction seg as [|x seg IH]; intros Hc; simpl.
  - by rewrite decide_True.
  - rewrite not_elem_of_cons in Hc. destruct Hc as [Hx Hc].
    rewrite decide_False by done. by rewrite IH.
Qed.

Lemma splitChar_render_tail seg segs :
  Forall Path.cleanSeg (seg :: segs) ->
  Path.splitChar "/" (seg ++ Path.render segs) = seg :: segs.
Proof.
  revert seg; induction segs as [|seg' segs IH]; intros seg Hall;
    inversion Hall as [|?? [_ Hseg] Hrest]; subst; simpl.
  - rewrite app_nil_r. by apply splitChar_free_id.
  - rewrite splitChar_app_sep by done. f_equal. by apply IH.
Qed.

(** Cutting a rendered path gives its components back. *)
Lemma components_render segs :
  Forall Path.cleanSeg segs -> Path.components (Path.render segs) = segs.
Proof.
  intros Hall. unfold Path.components. destruct segs as [|seg segs]; [done|].
  simpl. rewrite splitChar_render_tail by done.
  rewrite filter_cons_False by (intros H; by apply H).
  induction Hall as [|s l [Hs _] _ IH]; [done|].
  rewrite filter_cons_True by done. by f_equal.
Qed.

End PathFacts.

(** * Resolution within the root *)

Section RootFacts.
Context (host : Host).
Hypothesis cwd_absolute : Path.isAbsolute (cwd host) = true.

(** Every resolved path is "/" followed by its clean components. *)
Lemma resolve_components args :
  exists segs, Forall Path.cleanSeg segs /\
    Path.resolve (cwd host) args = Path.sep ++ JS.join Path.sep segs /\
    Path.components (Path.resolve (cwd host) args) = segs.
Proof.
  destruct (resolve_absolute (cwd host) args cwd_absolute) as (segs & Hclean & Heq).
  exists segs. split; [done|]. split; [done|]. rewrite Heq.
  destruct segs as [|seg segs]; [done|].
  rewrite sep_join_render by done. by apply components_render.
Qed.

(** The test of [resolveWithinRoot], read on components: when the root
    has at least one component, the string test accepts exactly the paths
    whose components extend the root's. *)
Lemma roottest_components rs ss :
  Forall Path.cleanSeg rs -> Forall Path.cleanSeg ss -> rs <> [] ->
  let resolved := Path.sep ++ JS.join Path.sep ss in
  let normalizedRoot := Path.sep ++ JS.join Path.sep rs in
  JS.startsWith resolved (normalizedRoot ++ Path.sep)
    || bool_decide (resolved = normalizedRoot) = true
  <-> rs `prefix_of` ss.
Proof.
  intros Hrs Hss Hne resolved normalizedRoot.
  subst resolved normalizedRoot.
  rewrite orb_true_iff, startsWith_prefix, bool_decide_eq_true.
  rewrite (sep_join_render rs) by done.
  destruct ss as [|b ss].
  - split.
    + intros [Hp|Heq]; exfalso.
      * apply prefix_length in Hp. destruct rs as [|a rs]; [done|].
        simpl in Hp. rewrite !length_app in Hp. simpl in Hp. lia.
      * destruct rs as [|a rs]; [done|]. inversion Hrs as [|?? [Ha _] _]; subst.
        simpl in Heq. destruct a; [done|]. discriminate.
    + intros Hp. apply prefix_nil_inv in Hp. done.
  - rewrite (sep_join_render (b :: ss)) by done.
    rewrite render_sep_prefix by done. split.
    + intros [(seg & rest & ->)|Heq].
      * by apply prefix_app_r.
      * apply render_inj in Heq; [by subst | done | done].
    + intros [k Hk]. destruct k as [|seg rest].
      * right. rewrite app_nil_r in Hk. by subst.
      * left. eauto.
Qed.

(** Any failure of [resolveWithinRoot] is the escape error. *)
Lemma resolveWithinRoot_err_escape r t flag msg :
  Tools.resolveWithinRoot host r t flag = Err msg ->
  flag = Some false /\ msg = ("Path escapes root: " : str) ++ t.
Proof.
  unfold Tools.resolveWithinRoot.
  destruct flag as [[|]|]; simpl; try done.
  case_match; [|done]. intros [= <-]. done.
Qed.

(** With outside-root resolution allowed (or the flag left undefined)
    resolution never fails. *)
Lemma resolveWithinRoot_allowed r t flag :
  default true flag = true ->
  Tools.resolveWithinRoot host r t flag
  = Ok (Path.resolve (cwd host) [r; Tools.expandHome host t]).
Proof. unfold Tools.resolveWithinRoot. by intros ->. Qed.

(** For a root that is not the file-system root, resolution with
    [allowOutsideRoot = false] fails exactly on the targets that resolve
    outside the root. *)
Lemma resolveWithinRoot_escape_iff_below r t :
  Path.resolve (cwd host) [r] <> Path.sep ->
  isErr (Tools.resolveWithinRoot host r t (Some false)) = true
  <-> ~ Path.inside (Path.resolve (cwd host) [r])
          (Path.resolve (cwd host) [r; Tools.expandHome host t]).
Proof.
  intros Hroot. unfold Path.inside, Tools.resolveWithinRoot.
  destruct (resolve_components [r]) as (rs & Hrs & Er & Cr).
  destruct (resolve_components [r; Tools.expandHome host t]) as (ss & Hss & Es & Cs).
  rewrite Cr, Cs, Er, Es. simpl default. cbv zeta.
  assert (rs <> []) as Hne.
  { intros ->. apply Hroot. by rewrite Er. }
  pose proof (roottest_components rs ss Hrs Hss Hne) as Htest. simpl in Htest.
  rewrite <- Htest. simpl negb at 1. rewrite andb_true_l, <- negb_orb.
  destruct (JS.startsWith _ _ || bool_decide _); simpl; split; done.
Qed.

End RootFacts.

(** * Searching in strings *)

Section SearchFacts.
Implicit Types s p : str.

Lemma indexOf_cons_false c s p :
  JS.startsWith (c :: s) p = false ->
  JS.indexOf (c :: s) p = S <$> JS.indexOf s p.
Proof.
  intros H.
  change (JS.indexOf (c :: s) p)
    with (if JS.startsWith (c :: s) p then Some 0 else S <$> JS.indexOf s p).
  by rewrite H.
Qed.

Lemma indexOf_here s p : JS.startsWith s p = true -> JS.indexOf s p = Some 0.
Proof.
  intros H. destruct s as [|c s].
  - change (JS.indexOf [] p) with (if JS.startsWith [] p then Some 0 else None).
    by rewrite H.
  - change (JS.indexOf (c :: s) p)
      with (if JS.startsWith (c :: s) p then Some 0 else S <$> JS.indexOf s p).
    by rewrite H.
Qed.

Lemma indexOf_nil_false p : JS.startsWith [] p = false -> JS.indexOf [] p = None.
Proof.
  intros H.
  change (JS.indexOf [] p) with (if JS.startsWith [] p then Some 0 else None).
  by rewrite H.
Qed.

(** [indexOf] finds an occurrence, and it is the first one. *)
Lemma indexOf_Some s p i :
  JS.indexOf s p = Some i ->
  JS.startsWith (drop i s) p = true /\
  forall j, j < i -> JS.startsWith (drop j s) p = false.
Proof.
  revert i; induction s as [|c s IH]; intros i.
  - destruct (JS.startsWith [] p) eqn:E.
    + rewrite indexOf_here by done. intros [= <-]. split; [done | intros; lia].
    + by rewrite indexOf_nil_false.
  - destruct (JS.startsWith (c :: s) p) eqn:E.
    + rewrite indexOf_here by done. intros [= <-]. split; [done | intros; lia].
    + rewrite indexOf_cons_false by done.
      destruct (JS.indexOf s p) as [k|]; [|done]. intros [= <-].
      destruct (IH k eq_refl) as [Hk Hlt]. split; [done|].
      intros [|j] Hj; [done|]. simpl. apply Hlt. lia.
Qed.

Lemma indexOf_None s p :
  JS.indexOf s p = None -> forall j, JS.startsWith (drop j s) p = false.
Proof.
  induction s as [|c s IH].
  - destruct (JS.startsWith [] p) eqn:E.
    + by rewrite indexOf_here.
    + intros _ j. by rewrite drop_nil.
  - destruct (JS.startsWith (c :: s) p) eqn:E.
    + by rewrite indexOf_here.
    + rewrite indexOf_cons_false by done.
      destruct (JS.indexOf s p) eqn:E'; [done|]. intros _ [|j]; [done|].
      simpl. by apply IH.
Qed.

(** [includes] says that the pattern occurs somewhere. *)
Lemma includes_true s p :
  JS.includes s p = true <-> exists u v, s = u ++ p ++ v.
Proof.
  unfold JS.includes. split.
  - destruct (JS.indexOf s p) as [i|] eqn:E; [|done]. intros _.
    apply indexOf_Some in E as [Hi _].
    apply startsWith_prefix in Hi as [v Hv].
    exists (take i s), v. by rewrite <- Hv, take_drop.
  - intros (u & v & ->). destruct (JS.indexOf (u ++ p ++ v) p) eqn:E; [done|].
    pose proof (indexOf_None _ _ E (length u)) as H.
    rewrite drop_app_length, startsWith_app in H. done.
Qed.

Lemma includes_char s c : JS.includes s [c] = true <-> c ∈ s.
Proof.
  rewrite includes_true. split.
  - intros (u & v & ->). rewrite elem_of_app. right. left.
  - intros (u & v & ->)%list_elem_of_split. by exists u, v.
Qed.

End SearchFacts.

(** * Shell commands *)

(** C10.  [runShell] starts exactly one process.  The command goes through
    the system shell, as a single command line without arguments, exactly
    when the argument list is empty and the command contains a space; in
    every other case the command is started directly, as an executable with
    its argument list.  The orchestrator hands a [shell_command] action's
    command and arguments to [runShell] unchanged. *)
Theorem runShell_uses_shell_iff host other ctx command (args : list str) reason w :
  let request := Tools.shellRequest ctx command args in
  Agent.dispatch (Runtime.tools host other) ctx
    (Agent.shell_command command args reason) = Tools.runShell host ctx command args
  /\ spawned (Tools.runShell host ctx command args w).2 = spawned w ++ [request]
  /\ (spawn_shell request = true <-> args = [] /\ " "%char ∈ command)
  /\ request =
       if spawn_shell request
       then {| spawn_file := command; spawn_args := []; spawn_cwd := Tools.root ctx;
               spawn_shell := true |}
       else {| spawn_file := command; spawn_args := args; spawn_cwd := Tools.root ctx;
               spawn_shell := false |}.
Proof.
  intros request. split; [reflexivity|]. split.
  - unfold Tools.runShell, io_bind, Tools.spawn. fold request.
    destruct (run_process host request (files w)) as [outcome fs].
    destruct outcome as [e|code out err]; [done|].
    case_decide; reflexivity.
  - subst request. unfold Tools.shellRequest.
    rewrite <- (includes_char command " ").
    change (JS.includes command (" " : str)) with (JS.includes command [" "%char]).
    destruct args as [|a args]; simpl.
    + destruct (JS.includes command [" "%char]); simpl; (split; [|done]).
      * by split.
      * split; [done | intros [_ ?]; done].
    + split; [|done]. split; [done | intros [? _]; done].
Qed.

(** * Pricing *)

(** Dated variants of most known models price as their base model. *)
Example resolvePricing_dated_variants :
  Pricing.resolvePricing "gpt-5-pro-2025-10-06" None
    = JS.Own <$> Pricing.DEFAULT_PRICING !! ("gpt-5-pro" : str)
  /\ Pricing.resolvePricing "gpt-4o-mini-2024-07-18" None
    = JS.Own <$> Pricing.DEFAULT_PRICING !! ("gpt-4o-mini" : str)
  /\ Pricing.resolvePricing " GPT-4.1-nano-2025-04-14 " None
    = JS.Own <$> Pricing.DEFAULT_PRICING !! ("gpt-4.1-nano" : str)
  /\ Pricing.resolvePricing "gpt-4o-2024-08-06" None
    = JS.Own <$> Pricing.DEFAULT_PRICING !! ("gpt-4o" : str).
Proof. vm_compute. done. Qed.

Lemma startsWith_comparable n p q :
  JS.startsWith n p = true -> JS.startsWith n q = true ->
  JS.startsWith p q || JS.startsWith q p = true.
Proof.
  rewrite !startsWith_prefix. intros Hp Hq. apply orb_true_iff.
  rewrite !startsWith_prefix.
  destruct (prefix_weak_total _ _ _ Hp Hq); auto.
Qed.

Lemma startsWith_trans n p q :
  JS.startsWith n p = true -> JS.startsWith p q = true -> JS.startsWith n q = true.
Proof. rewrite !startsWith_prefix. intros Hp Hq. by etrans. Qed.

(** Two tests of the prefix fallback: they exclude each other, or one
    implies the other. *)
Ltac relate_tests Ha Hb :=
  match type of Ha with
  | ?a = JS.startsWith ?n ?p =>
      match type of Hb with
      | ?b = JS.startsWith n ?q =>
          first
            [ assert (a = true -> b = true -> False)
                by (rewrite Ha, Hb; intros A B;
                    pose proof (startsWith_comparable _ _ _ A B) as C;
                    vm_compute in C; discriminate)
            | assert (a = true -> b = true)
                by (rewrite Ha, Hb; intros A;
                    apply (startsWith_trans _ _ _ A); vm_compute; reflexivity)
            | assert (b = true -> a = true)
                by (rewrite Ha, Hb; intros B;
                    apply (startsWith_trans _ _ _ B); vm_compute; reflexivity) ]
      end
  end.

Ltac prune_tests :=
  try (exfalso;
       match goal with
       | H : true = true -> true = true -> False |- _ => exact (H eq_refl eq_refl)
       | H : true = true -> false = true |- _ => discriminate (H eq_refl)
       end).

(** Apart from the names that begin with "gpt-5.2-pro-", the prefix
    fallback picks the longest candidate that the name continues with a
    dash: the first match of the list is the longest one. *)
Lemma prefixMatch_longest normalized :
  JS.startsWith normalized "gpt-5.2-pro-" = false ->
  List.find (fun prefix : str => JS.startsWith normalized (prefix ++ "-"))
            Pricing.prefixCandidates
  = Pricing.longestCandidate normalized.
Proof.
  intros Hpro. unfold Pricing.longestCandidate, Pricing.prefixCandidates, strs.
  cbn [fmap list_fmap List.find foldr].
  change (list_ascii_of_string "gpt-5.2-pro" ++ "-")
    with (list_ascii_of_string "gpt-5.2-pro-"). rewrite Hpro.
  remember (JS.startsWith normalized (list_ascii_of_string "gpt-5.2" ++ "-")) as b1 eqn:H1.
  remember (JS.startsWith normalized (list_ascii_of_string "gpt-5.1" ++ "-")) as b2 eqn:H2.
  remember (JS.startsWith normalized (list_ascii_of_string "gpt-5-pro" ++ "-")) as b3 eqn:H3.
  remember (JS.startsWith normalized (list_ascii_of_string "gpt-4o-mini" ++ "-")) as b5 eqn:H5.
  remember (JS.startsWith normalized (list_ascii_of_string "gpt-4o" ++ "-")) as b6 eqn:H6.
  remember (JS.startsWith normalized (list_ascii_of_string "gpt-4.1-mini" ++ "-")) as b7 eqn:H7.
  remember (JS.startsWith normalized (list_ascii_of_string "gpt-4.1-nano" ++ "-")) as b8 eqn:H8.
  remember (JS.startsWith normalized (list_ascii_of_string "gpt-4.1" ++ "-")) as b9 eqn:H9.
  relate_tests H1 H2. relate_tests H1 H3. relate_tests H1 H5. relate_tests H1 H6.
  relate_tests H1 H7. relate_tests H1 H8. relate_tests H1 H9.
  relate_tests H2 H3. relate_tests H2 H5. relate_tests H2 H6. relate_tests H2 H7.
  relate_tests H2 H8. relate_tests H2 H9.
  relate_tests H3 H5. relate_tests H3 H6. relate_tests H3 H7. relate_tests H3 H8.
  relate_tests H3 H9.
  relate_tests H5 H6. relate_tests H5 H7. relate_tests H5 H8. relate_tests H5 H9.
  relate_tests H6 H7. relate_tests H6 H8. relate_tests H6 H9.
  relate_tests H7 H8. relate_tests H7 H9. relate_tests H8 H9.
  clear H1 H2 H3 H5 H6 H7 H8 H9 Hpro.
  destruct b1; destruct b2; prune_tests; destruct b3; prune_tests;
    destruct b5; prune_tests; destruct b6; prune_tests; destruct b7; prune_tests;
    destruct b8; prune_tests; destruct b9; prune_tests; reflexivity.
Qed.

(** C3.  The claim asks for the entry of the longest known name that is a
    prefix of the queried name.  For the dated variant
    "gpt-5.2-pro-2025-12-11" of the known model "gpt-5.2-pro" there is no
    exact entry, the longest known prefix is "gpt-5.2-pro", and yet
    [resolvePricing] returns the entry of "gpt-5.2", which comes first in
    the list of prefixes tried: input 1.75 instead of 21, output 14 instead
    of 168. *)
Theorem resolvePricing_dated_pro_variant :
  let name : str := "gpt-5.2-pro-2025-12-11" in
  Pricing.DEFAULT_PRICING !! name = None
  /\ Pricing.longestKnownPrefix name = Some ("gpt-5.2-pro" : str)
  /\ Pricing.resolvePricing name None
     = Some (JS.Own (Pricing.pricing 1.75 (Some 0.175%Q) 14))
  /\ Pricing.DEFAULT_PRICING !! ("gpt-5.2-pro" : str)
     = Some (Pricing.pricing 21 None 168)
  /\ Pricing.resolvePricing name None
     <> (Pricing.longestKnownPrefix name ≫= JS.getMember Pricing.DEFAULT_PRICING).
Proof. vm_compute. repeat split; discriminate. Qed.

(** * Usage summaries *)

Section CostFacts.
Import Pricing.

Lemma summarizeUsage_priced m u o p :
  resolvePricing m o = Some (JS.Own p) ->
  summarizeUsage m (Some u) o
  = Some {| model := m;
            promptTokens := default 0%Z (prompt_tokens u);
            completionTokens := default 0%Z (completion_tokens u);
            totalTokens :=
              default (default 0 (prompt_tokens u)
                       + default 0 (completion_tokens u))%Z (total_tokens u);
            cachedTokens := default 0%Z (prompt_tokens_details u ≫= cached_tokens);
            cost :=
              Some (roundedCost (default 0%Z (prompt_tokens u))
                      (default 0%Z (completion_tokens u))
                      (default 0%Z (prompt_tokens_details u ≫= cached_tokens)) p) |}.
Proof.
  intros Hp. unfold summarizeUsage, roundedCost. rewrite Hp. cbv zeta.
  set (pt := default 0%Z (prompt_tokens u)).
  set (ct := default 0%Z (prompt_tokens_details u ≫= cached_tokens)).
  replace (Z.max 0 (pt - Z.min ct pt)) with (pt - Z.min ct pt)%Z by lia.
  reflexivity.
Qed.

Lemma summarizeUsage_unpriced m u o :
  resolvePricing m o = None ->
  exists s, summarizeUsage m (Some u) o = Some s /\ cost s = None.
Proof. intros Hp. unfold summarizeUsage. rewrite Hp. eauto. Qed.

(** C5, as the code has it.  [summarizeUsage] returns null exactly when no
    usage counters were supplied.  Otherwise the summary carries the
    counters (missing ones as 0, a missing total as prompt + completion).
    When the model has a pricing entry, the cost is the amount
      billable input x input rate / 1,000,000
      + cached x cached rate / 1,000,000
      + completion x output rate / 1,000,000
    computed in double arithmetic, each term rounded on its own and the
    terms added from the left, with cached tokens capped at the prompt
    tokens, billable input the rest of the prompt, and the cached rate
    defaulting to the input rate; when no price resolves the cost is left
    unset.  (A name that finds an inherited member of the table instead of
    an entry is left aside.)  On "gpt-4.1" (input 2.00 and cached input
    0.50 dollars per million) the two examples come out exact: a million
    prompt tokens, none cached, cost the double 2; with half of them
    cached, the double 1.25. *)
Theorem summarizeUsage_cost m usage o :
  (summarizeUsage m usage o = None <-> usage = None)
  /\ match usage with
     | None => summarizeUsage m usage o = None
     | Some u =>
         exists s,
           summarizeUsage m usage o = Some s
           /\ promptTokens s = default 0%Z (prompt_tokens u)
           /\ completionTokens s = default 0%Z (completion_tokens u)
           /\ cachedTokens s = default 0%Z (prompt_tokens_details u ≫= cached_tokens)
           /\ match resolvePricing m o with
              | Some (JS.Own p) =>
                  cost s = Some (roundedCost (promptTokens s) (completionTokens s)
                                   (cachedTokens s) p)
              | Some JS.Inherited => True
              | None => cost s = None
              end
     end
  /\ (exists s,
        summarizeUsage "gpt-4.1" (Some (counters 1000000 0 (Some 0%Z))) None = Some s
        /\ cost s = Some (Number.ofZ 2)
        /\ Number.value (Number.ofZ 2) = Some 2%Q)
  /\ (exists s,
        summarizeUsage "gpt-4.1" (Some (counters 1000000 0 (Some 500000%Z))) None
        = Some s
        /\ cost s = Some (Number.ofQ 1.25)
        /\ Number.value (Number.ofQ 1.25) = Some (5 # 4)%Q).
Proof.
  split; [|split; [|split]].
  - destruct usage as [u|]; [|done]. unfold summarizeUsage.
    destruct (resolvePricing m o); split; done.
  - destruct usage as [u|]; [|done].
    destruct (resolvePricing m o) as [[p|]|] eqn:Hp.
    + rewrite (summarizeUsage_priced m u o p Hp). eexists; repeat split.
    + unfold summarizeUsage. rewrite Hp. eexists; repeat split.
    + unfold summarizeUsage. rewrite Hp. eexists; repeat split.
  - eexists. split; [vm_compute; reflexivity|]. split; vm_compute; reflexivity.
  - eexists. split; [vm_compute; reflexivity|]. split; vm_compute; reflexivity.
Qed.

(** The claim C5 as stated fails: it gives the cost as the exact amount
    (billable x input + cached x cached rate + completion x output)
    / 1,000,000.  On "gpt-4.1" (2 dollars per million input tokens, 8 per
    million output tokens) with 800 prompt and 100 completion tokens that
    amount is 3/1250 (0.0024); the code, adding two rounded quotients,
    returns the double 5534023222112866 x 2^-61, which is
    0.0024000000000000002 and not the double nearest to 0.0024 either. *)
Lemma summarizeUsage_cost_counterexample :
  exists s c v,
    summarizeUsage "gpt-4.1" (Some (counters 800 100 None)) None = Some s
    /\ cost s = Some c
    /\ Number.value c = Some v
    /\ (specifiedCost 800 100 0 2 0.5 8 == 3 # 1250)%Q
    /\ ~ (v == specifiedCost 800 100 0 2 0.5 8)%Q
    /\ c <> Number.ofQ (3 # 1250).
Proof.
  eexists _, _, _. split; [vm_compute; reflexivity|].
  split; [reflexivity|]. split; [vm_compute; reflexivity|].
  split; [reflexivity|]. split; [|vm_compute; discriminate].
  vm_compute. discriminate.
Qed.

(** An inherited member in place of an entry makes the cost NaN: the name
    "constructor" finds [Object.prototype.constructor] in the table. *)
Example summarizeUsage_inherited_member :
  resolvePricing "constructor" None = Some JS.Inherited
  /\ exists s,
       summarizeUsage "constructor" (Some (counters 800 100 None)) None = Some s
       /\ cost s = Some Number.NaN.
Proof. split; [vm_compute; reflexivity|]. eexists. split; vm_compute; reflexivity. Qed.

End CostFacts.

(** * Resolution at work *)

(** The parts of C2 about the root itself and about a sibling whose name
    begins with the root's name, on the root "/work". *)
Example resolveWithinRoot_rootand_sibling host :
  Tools.resolveWithinRoot host "/work" "." (Some false) = Ok ("/work" : str)
  /\ Tools.resolveWithinRoot host "/work" "../workshop/notes" (Some false)
     = Err ("Path escapes root: ../workshop/notes" : str)
  /\ Tools.resolveWithinRoot host "/work" "/workshop" (Some false)
     = Err ("Path escapes root: /workshop" : str)
  /\ Tools.resolveWithinRoot host "/work" "a/../b" (Some false) = Ok ("/work/b" : str).
Proof. repeat split. Qed.

(** C2.  The claim asks for an escape error exactly when the resolved path
    is neither the resolved root nor nested under it.  With the file-system
    root as workspace root, "etc" resolves to "/etc", which lies under "/",
    and is rejected all the same: the test compares with the root followed
    by a separator, "//", which no resolved path begins with.  For every
    other root the claim holds ([resolveWithinRoot_escape_iff_below]). *)
Theorem resolveWithinRoot_rejects_below_fs_root host :
  Path.resolve (cwd host) [("/" : str)] = ("/" : str)
  /\ Path.resolve (cwd host) [("/" : str); Tools.expandHome host "etc"] = ("/etc" : str)
  /\ Path.inside "/" "/etc"
  /\ Tools.resolveWithinRoot host "/" "etc" (Some false)
     = Err ("Path escapes root: etc" : str).
Proof.
  repeat split. vm_compute. apply prefix_nil.
Qed.

(** The end-to-end scenario of the specification: auto-approve on, empty
    workspace, a plan with one [create_file] action.  The run reports
    "Created notes.txt" and the file holds exactly "hello". *)
Example runAgent_creates_notes :
  let todo := [Agent.create_file "notes.txt" "hello" None None] in
  let run :=
    Agent.runAgent Scenario.tools (Scenario.services (Scenario.planOf todo))
      (Scenario.options true) (Scenario.emptyWorld, []) in
  run.1 = Ok tt
  /\ Agent.messagesOf Agent.ev_action run.2.2 = strs ["create_file: notes.txt"]
  /\ Agent.messagesOf Agent.ev_result run.2.2 = strs ["Created notes.txt"; "All done."]
  /\ Fs.contentAt "/work/notes.txt" run.2.1 = Some ("hello" : str).
Proof. vm_compute. repeat split. Qed.

(** Under the context of a run no target is ever refused, whatever the
    configuration of the run. *)
Lemma toolContext_never_escapes {W} host (options : Agent.RunAgentOptions (W := W))
    target :
  Tools.resolveWithinRoot host (Tools.root (Agent.toolContext options)) target
    (Tools.allowOutsideRoot (Agent.toolContext options))
  = Ok (Path.resolve (cwd host) [Agent.root options; Tools.expandHome host target]).
Proof. reflexivity. Qed.

(** C1.  The claim asks that, unless the configuration enables the
    allow-outside-root flag, the paths of a plan are resolved with
    outside-root resolution disabled.  [runAgent] builds the context of
    every adapter call with the flag set, whatever the configuration says.
    In the scenario the configuration leaves the flag unset, the workspace
    root is "/work" and the plan creates "../escaped.txt": the run reports
    no error and the file "/escaped.txt" exists afterwards, whereas the same
    adapter call with outside-root resolution disabled fails with the escape
    error and leaves the files alone. *)
Theorem runAgent_resolves_outside_root :
  let todo := [Agent.create_file "../escaped.txt" "x" None None] in
  let options := Scenario.options true in
  let run :=
    Agent.runAgent Scenario.tools (Scenario.services (Scenario.planOf todo)) options
      (Scenario.emptyWorld, []) in
  Config.allowOutsideRoot (Agent.config options) = None
  /\ (forall W (o : Agent.RunAgentOptions (W := W)),
        Tools.allowOutsideRoot (Agent.toolContext o) = Some true)
  /\ run.1 = Ok tt
  /\ Agent.messagesOf Agent.ev_error run.2.2 = []
  /\ Agent.messagesOf Agent.ev_result run.2.2
     = strs ["Created ../escaped.txt"; "All done."]
  /\ Fs.contentAt "/escaped.txt" run.2.1 = Some ("x" : str)
  /\ Tools.createFile Scenario.host Scenario.confined
       "../escaped.txt" "x" false Scenario.emptyWorld
     = (Err ("Path escapes root: ../escaped.txt" : str), Scenario.emptyWorld).
Proof. vm_compute. repeat split. Qed.

(** * The file system *)

Section FsFacts.
Implicit Types (fs : gmap (list str) Node) (key done todo : list str).

Lemma setFiles_same w : Fs.setFiles (files w) w = w.
Proof. by destruct w. Qed.

Lemma lookupNode_nonempty fs key : key <> [] -> Fs.lookupNode fs key = fs !! key.
Proof. by destruct key. Qed.

Lemma lookupNode_snoc fs key seg : Fs.lookupNode fs (key ++ [seg]) = fs !! (key ++ [seg]).
Proof. apply lookupNode_nonempty. by destruct key. Qed.

(** In a well-formed file system everything above a node is a directory. *)
Lemma wellFormed_ancestors fs key rest node :
  Fs.wellFormed fs -> Fs.lookupNode fs (key ++ rest) = Some node -> rest <> [] ->
  Fs.lookupNode fs key = Some Dir.
Proof.
  intros [_ Hwf]. revert node. induction rest as [|seg rest IH] using rev_ind;
    intros node Hnode Hne; [done|].
  rewrite app_assoc, lookupNode_snoc in Hnode. apply Hwf in Hnode.
  destruct rest as [|seg' rest'] using rev_ind.
  - by rewrite app_nil_r in Hnode.
  - eapply IH; [done|]. by destruct rest'.
Qed.

(** [mkdir -p] changes nothing when the chain of directories is there. *)
Lemma mkdirFrom_present fs done todo :
  (forall pre, pre <> [] -> pre `prefix_of` todo -> fs !! (done ++ pre) = Some Dir) ->
  Fs.mkdirFrom fs done todo = Ok fs.
Proof.
  revert done; induction todo as [|seg rest IH]; intros done Hdirs; simpl; [done|].
  rewrite (Hdirs [seg]); [| done | by apply prefix_cons, prefix_nil].
  apply IH. intros pre Hne Hpre. rewrite <- app_assoc. simpl.
  apply Hdirs; [done | by apply prefix_cons].
Qed.

(** [mkdir -p] succeeds unless a regular file is in the way; it touches
    only the chain it creates. *)
Lemma mkdirFrom_creates fs done todo :
  (forall pre c, pre <> [] -> pre `prefix_of` todo -> fs !! (done ++ pre) <> Some (File c)) ->
  exists fs',
    Fs.mkdirFrom fs done todo = Ok fs'
    /\ (forall pre, pre <> [] -> pre `prefix_of` todo -> fs' !! (done ++ pre) = Some Dir)
    /\ (forall key, (forall pre, pre <> [] -> pre `prefix_of` todo -> key <> done ++ pre) ->
          fs' !! key = fs !! key).
Proof.
  revert fs done; induction todo as [|seg rest IH]; intros fs done Hfree; simpl.
  - exists fs. split; [done|]. split; [|done].
    intros pre Hne Hpre. apply prefix_nil_inv in Hpre. done.
  - assert (forall fs1,
               fs1 !! (done ++ [seg]) = Some Dir ->
               (forall key, key <> done ++ [seg] -> fs1 !! key = fs !! key) ->
               exists fs',
                 Fs.mkdirFrom fs1 (done ++ [seg]) rest = Ok fs'
                 /\ (forall pre, pre <> [] -> pre `prefix_of` seg :: rest ->
                       fs' !! (done ++ pre) = Some Dir)
                 /\ (forall key,
                       (forall pre, pre <> [] -> pre `prefix_of` seg :: rest ->
                          key <> done ++ pre) ->
                       fs' !! key = fs !! key)) as Hstep.
    { intros fs1 Hdir Hsame.
      destruct (IH fs1 (done ++ [seg])) as (fs' & Hmk & Hdirs & Hother).
      { intros pre c Hne Hpre. rewrite <- app_assoc. simpl.
        destruct (decide (done ++ seg :: pre = done ++ [seg])) as [Heq|Hneq].
        - rewrite Heq, Hdir. done.
        - rewrite Hsame by done.
          apply Hfree; [done | by apply prefix_cons]. }
      exists fs'. split; [done|]. split.
      - intros pre Hne Hpre. destruct pre as [|s pre]; [done|].
        pose proof (prefix_cons_inv_1 _ _ _ _ Hpre) as ->.
        apply prefix_cons_inv_2 in Hpre.
        destruct pre as [|s' pre].
        + rewrite Hother; [done|]. intros pre' Hne' _ Heq.
          rewrite <- app_assoc in Heq. apply app_inv_head in Heq.
          destruct pre'; [done|]. discriminate.
        + specialize (Hdirs (s' :: pre)). rewrite <- app_assoc in Hdirs.
          by apply Hdirs.
      - intros key Hkey. rewrite Hother.
        + apply Hsame. apply (Hkey [seg]); [done | by apply prefix_cons, prefix_nil].
        + intros pre Hne Hpre. rewrite <- app_assoc. simpl.
          apply Hkey; [done | by apply prefix_cons]. }
    destruct (fs !! (done ++ [seg])) as [[c|]|] eqn:Hlook.
    + exfalso. eapply (Hfree [seg] c); [done | by apply prefix_cons, prefix_nil | done].
    + by apply Hstep.
    + apply Hstep.
      * by rewrite lookup_insert_eq.
      * intros key Hkey. by rewrite lookup_insert_ne.
Qed.

End FsFacts.

(** * [create_file] *)

Section CreateFileFacts.
Context (host : Host).
Hypothesis cwd_absolute : Path.isAbsolute (cwd host) = true.

Lemma Forall_removelast {A} (P : A -> Prop) (l : list A) :
  Forall P l -> Forall P (removelast l).
Proof.
  induction 1 as [|x l Hx Hl IH]; simpl; [done|].
  destruct l; [done|]. by constructor.
Qed.

Lemma removelast_not_extension {A} (key pre rest : list A) :
  pre <> [] -> removelast key = pre ++ rest -> key <> pre.
Proof.
  intros Hne Hr ->. destruct pre as [|x pre _] using rev_ind; [done|].
  rewrite removelast_last in Hr. apply (f_equal length) in Hr.
  rewrite !length_app in Hr. simpl in Hr. lia.
Qed.

Lemma components_join_clean segs :
  Forall Path.cleanSeg segs ->
  Path.components (Path.sep ++ JS.join Path.sep segs) = segs.
Proof.
  intros Hclean. destruct segs as [|seg segs]; [done|].
  rewrite sep_join_render by done. by apply components_render.
Qed.

(** The directory of a resolved path, component-wise. *)
Lemma components_dirname r t flag resolved :
  Tools.resolveWithinRoot host r t flag = Ok resolved ->
  Path.components (Path.dirname resolved) = removelast (Path.components resolved).
Proof.
  unfold Tools.resolveWithinRoot. intros Hres.
  assert (resolved = Path.resolve (cwd host) [r; Tools.expandHome host t]) as ->.
  { by case_match; simplify_eq. }
  destruct (resolve_components host cwd_absolute [r; Tools.expandHome host t])
    as (segs & Hclean & _ & Hc).
  unfold Path.dirname. rewrite Hc.
  apply components_join_clean. by apply Forall_removelast.
Qed.

Lemma mkdir_dirname_existing w key :
  Fs.wellFormed (files w) ->
  is_Some (Fs.lookupNode (files w) key) ->
  Fs.mkdirFrom (files w) [] (removelast key) = Ok (files w).
Proof.
  intros Hwf [node Hnode]. apply mkdirFrom_present. intros pre Hne [rest Hrest].
  simpl. rewrite <- (lookupNode_nonempty _ pre) by done.
  destruct key as [|seg key _] using rev_ind.
  { simpl in Hrest. by destruct pre. }
  rewrite removelast_last in Hrest. subst key.
  apply (wellFormed_ancestors _ pre (rest ++ [seg]) node Hwf).
  - by rewrite app_assoc.
  - by destruct rest.
Qed.

(** On an existing path [createFile] without the overwrite flag fails
    with "File already exists" and leaves the world as it was. *)
Lemma createFile_existing ctx target content w resolved :
  Fs.wellFormed (files w) ->
  Tools.resolveWithinRoot host (Tools.root ctx) target (Tools.allowOutsideRoot ctx)
  = Ok resolved ->
  Fs.exists_ resolved w = true ->
  Tools.createFile host ctx target content false w
  = (Err (("File already exists: " : str) ++ target), w).
Proof.
  intros Hwf Hres Hex. unfold Tools.createFile, io_bind, io_lift.
  rewrite Hres. unfold Fs.mkdirRecursive.
  rewrite (components_dirname _ _ _ _ Hres).
  pose proof Hex as Hsome. apply bool_decide_eq_true in Hsome.
  rewrite (mkdir_dirname_existing w _ Hwf Hsome), setFiles_same.
  unfold io_get. by rewrite Hex.
Qed.

(** With the overwrite flag [createFile] writes the content, provided no
    regular file is among the directories to create and the path is not a
    directory. *)
Lemma createFile_overwriting ctx target content w resolved :
  Tools.resolveWithinRoot host (Tools.root ctx) target (Tools.allowOutsideRoot ctx)
  = Ok resolved ->
  (forall pre c, pre <> [] -> pre `prefix_of` removelast (Path.components resolved) ->
     files w !! pre <> Some (File c)) ->
  Fs.lookupNode (files w) (Path.components resolved) <> Some Dir ->
  exists w',
    Tools.createFile host ctx target content true w
    = (Ok (("Created " : str) ++ target), w')
    /\ Fs.contentAt resolved w' = Some content.
Proof.
  intros Hres Hfree Hnodir. unfold Tools.createFile, io_bind, io_lift.
  rewrite Hres. unfold Fs.mkdirRecursive.
  rewrite (components_dirname _ _ _ _ Hres).
  unfold io_get, io_ret, Fs.writeFile, Fs.contentAt.
  remember (Path.components resolved) as key eqn:Hkeydef.
  destruct (mkdirFrom_creates (files w) [] (removelast key) Hfree)
    as (fs' & -> & Hdirs & Hother).
  cbn [negb andb]. rewrite andb_false_r. simpl files.
  assert (key <> []) as Hkey.
  { intros E. rewrite E in Hnodir. by apply Hnodir. }
  assert (fs' !! key = files w !! key) as Hsame.
  { apply Hother. intros pre Hne [rest Hrest]. simpl.
    by eapply removelast_not_extension. }
  assert (exists old, Fs.writableAt fs' key = Ok old) as [old Hw].
  { unfold Fs.writableAt. rewrite lookupNode_nonempty, Hsame by done.
    rewrite lookupNode_nonempty in Hnodir by done.
    destruct (files w !! key) as [[c|]|] eqn:E; [eauto | done |].
    destruct (removelast key) as [|s l] eqn:Er; [simpl; eauto|].
    rewrite lookupNode_nonempty by done.
    specialize (Hdirs (s :: l)). simpl in Hdirs. rewrite Hdirs; eauto. }
  rewrite Hw. eexists. split; [reflexivity|]. simpl files.
  by rewrite lookupNode_nonempty, lookup_insert_eq.
Qed.

End CreateFileFacts.

Lemma workspace_wellFormed : Fs.wellFormed (files Scenario.workspace).
Proof.
  split; [done|]. intros key seg node. simpl.
  intros [[Hk _]|[_ H]]%lookup_insert_Some.
  - apply (app_inj_tail [_]) in Hk as [<- _]. done.
  - apply lookup_insert_Some in H as [[Hk _]|[_ H]]; [|done].
    apply (app_inj_tail []) in Hk as [<- _]. done.
Qed.

(** C6, as the code has it.  For a target that [resolveWithinRoot] lets through: on an
    existing path [create_file] with [overwrite = false] fails with
    "File already exists" and changes nothing; with [overwrite = true] it
    succeeds and the file holds exactly the supplied content afterwards,
    provided no regular file stands where a parent directory is needed and
    the path itself is not a directory. *)
Theorem createFile_overwrite_flag host ctx target content w resolved :
  Path.isAbsolute (cwd host) = true ->
  Fs.wellFormed (files w) ->
  Tools.resolveWithinRoot host (Tools.root ctx) target (Tools.allowOutsideRoot ctx)
  = Ok resolved ->
  (Fs.exists_ resolved w = true ->
   Tools.createFile host ctx target content false w
   = (Err (("File already exists: " : str) ++ target), w))
  /\ ((forall pre c, pre <> [] -> pre `prefix_of` removelast (Path.components resolved) ->
         files w !! pre <> Some (File c)) ->
      Fs.lookupNode (files w) (Path.components resolved) <> Some Dir ->
      exists w',
        Tools.createFile host ctx target content true w
        = (Ok (("Created " : str) ++ target), w')
        /\ Fs.contentAt resolved w' = Some content).
Proof.
  intros Habs Hwf Hres. split.
  - by apply createFile_existing.
  - by apply createFile_overwriting.
Qed.

Lemma createFile_overwrite_flag_witness :
  Tools.createFile Scenario.host Scenario.confined "notes.txt" "new" false
    Scenario.workspace
  = (Err ("File already exists: notes.txt" : str), Scenario.workspace)
  /\ exists w',
       Tools.createFile Scenario.host Scenario.confined "notes.txt" "new" true
         Scenario.workspace
       = (Ok ("Created notes.txt" : str), w')
       /\ Fs.contentAt "/work/notes.txt" w' = Some ("new" : str).
Proof.
  destruct (createFile_overwrite_flag Scenario.host Scenario.confined "notes.txt"
              "new" Scenario.workspace "/work/notes.txt" eq_refl
              workspace_wellFormed eq_refl) as [Hkeep Hwrite].
  split.
  - apply Hkeep. reflexivity.
  - apply Hwrite.
    + intros pre c Hne Hpre Hfile.
      change (removelast (Path.components ("/work/notes.txt" : str)))
        with (strs ["work"]) in Hpre.
      destruct Hpre as [rest Hrest]. destruct pre as [|s pre]; [done|].
      destruct pre; [|by destruct pre].
      vm_compute in Hrest. injection Hrest as <- _. vm_compute in Hfile. done.
    + vm_compute. done.
Defined.

(** The claim C6 as stated fails: with [overwrite = true] the adapter does
    not always succeed.  A target outside the root is refused by
    [resolveWithinRoot], a directory cannot be written as a file, and a regular file
    cannot serve as parent directory. *)
Lemma createFile_overwrite_counterexample :
  Tools.createFile Scenario.host Scenario.confined "../notes.txt" "new" true
    Scenario.workspace
  = (Err ("Path escapes root: ../notes.txt" : str), Scenario.workspace)
  /\ Tools.createFile Scenario.host {| Tools.root := "/"; Tools.allowOutsideRoot := None |}
       "work" "new" true Scenario.workspace
     = (Err ("EISDIR: illegal operation on a directory, open" : str), Scenario.workspace)
  /\ Tools.createFile Scenario.host Scenario.confined "notes.txt/draft" "new" true
       Scenario.workspace
     = (Err ("EEXIST: file already exists, mkdir" : str), Scenario.workspace).
Proof. vm_compute. repeat split. Qed.

(** * The loop over the actions of a plan *)

Section LoopFacts.
Context {W : Type} (tools : Agent.ToolAdapters W) (services : Agent.Services W).
Context (options : Agent.RunAgentOptions (W := W)) (ctx : Tools.ToolContext).

Implicit Types (a : Agent.AgentAction) (todo : list Agent.AgentAction).
Implicit Types (log : list str) (w : W) (events : list Agent.AgentEvent).

Local Abbreviation runAction := (Agent.runAction tools services options ctx).
Local Abbreviation runActions := (Agent.runActions tools services options ctx).
Local Abbreviation approval := (Agent.approval services options).
Local Abbreviation dispatch := (Agent.dispatch tools ctx).

(** The three ways a round of the loop ends. *)
Lemma runAction_declined a log w events w' :
  approval a w = (Ok false, w') ->
  runAction log a (w, events)
  = (Ok (log ++ [("SKIPPED " : str) ++ Agent.describe a]),
     (w', events ++ [Agent.Message Agent.ev_action (Agent.describe a);
                     Agent.Message Agent.ev_info
                       (("Skipped: " : str) ++ Agent.describe a)])).
Proof.
  intros Hno. unfold Agent.runAction, io_bind, Agent.emit, io_modify, Agent.inWorld.
  simpl. rewrite Hno. simpl. by rewrite <- app_assoc.
Qed.

Lemma runAction_failed a log w events w1 w2 e :
  approval a w = (Ok true, w1) ->
  dispatch a w1 = (Err e, w2) ->
  runAction log a (w, events)
  = (Ok (log ++ [("ERROR " : str) ++ Agent.describe a ++ Agent.nl ++ String_of_error e]),
     (w2, events ++ [Agent.Message Agent.ev_action (Agent.describe a);
                     Agent.Message Agent.ev_error (String_of_error e)])).
Proof.
  intros Hyes Herr.
  unfold Agent.runAction, io_bind, io_catch, Agent.emit, io_modify, Agent.inWorld.
  simpl. rewrite Hyes. simpl. rewrite Herr. simpl. by rewrite <- app_assoc.
Qed.

Lemma runAction_succeeded a log w events w1 w2 text :
  approval a w = (Ok true, w1) ->
  dispatch a w1 = (Ok text, w2) ->
  runAction log a (w, events)
  = (Ok (log ++ [("OK " : str) ++ Agent.describe a ++ Agent.nl ++ text]),
     (w2, events ++ [Agent.Message Agent.ev_action (Agent.describe a);
                     Agent.Message Agent.ev_result text])).
Proof.
  intros Hyes Hok.
  unfold Agent.runAction, io_bind, io_catch, Agent.emit, io_modify, Agent.inWorld.
  simpl. rewrite Hyes. simpl. rewrite Hok. simpl. by rewrite <- app_assoc.
Qed.

(** A round fails only when the confirmation itself does. *)
Lemma runAction_aborted a log w events w' e :
  approval a w = (Err e, w') ->
  runAction log a (w, events)
  = (Err e, (w', events ++ [Agent.Message Agent.ev_action (Agent.describe a)])).
Proof.
  intros Hthrow. unfold Agent.runAction, io_bind, Agent.emit, io_modify, Agent.inWorld.
  simpl. by rewrite Hthrow.
Qed.

(** Whatever the adapter does, a round whose confirmation returns ends
    normally, with one more log entry and the action reported once. *)
Lemma runAction_one_entry a log w events b w1 :
  approval a w = (Ok b, w1) ->
  exists entry w2 outcome,
    runAction log a (w, events)
    = (Ok (log ++ [entry]),
       (w2, events ++ [Agent.Message Agent.ev_action (Agent.describe a); outcome]))
    /\ Agent.messagesOf Agent.ev_action [outcome] = [].
Proof.
  intros Hb. destruct b.
  - destruct (dispatch a w1) as [[text|e] w2] eqn:Hd.
    + rewrite (runAction_succeeded _ _ _ _ _ _ _ Hb Hd). eauto.
    + rewrite (runAction_failed _ _ _ _ _ _ _ Hb Hd). eauto.
  - rewrite (runAction_declined _ _ _ _ _ Hb). eauto.
Qed.

Lemma runActions_cons a todo log st :
  runActions log (a :: todo) st
  = match runAction log a st with
    | (Ok log', st') => runActions log' todo st'
    | (Err e, st') => (Err e, st')
    end.
Proof. reflexivity. Qed.

Lemma runActions_app todo1 todo2 log st :
  runActions log (todo1 ++ todo2) st
  = match runActions log todo1 st with
    | (Ok log', st') => runActions log' todo2 st'
    | (Err e, st') => (Err e, st')
    end.
Proof.
  revert log st; induction todo1 as [|a todo1 IH]; intros log st; [done|].
  simpl app. rewrite !runActions_cons.
  destruct (runAction log a st) as [[log'|e] st']; [apply IH | done].
Qed.

(** A completed loop has reported every action once, in the order of the
    plan, and has logged one entry for each. *)
Lemma runActions_reports_all todo log st log' st' :
  runActions log todo st = (Ok log', st') ->
  Agent.messagesOf Agent.ev_action st'.2
  = Agent.messagesOf Agent.ev_action st.2 ++ (Agent.describe <$> todo)
  /\ exists entries, log' = log ++ entries /\ length entries = length todo.
Proof.
  revert log st; induction todo as [|a todo IH]; intros log [w events] Hrun.
  - simpl in Hrun. injection Hrun as <- <-. rewrite app_nil_r. split; [done|].
    exists []. by rewrite app_nil_r.
  - rewrite runActions_cons in Hrun.
    destruct (approval a w) as [[b|e] w1] eqn:Hb.
    + destruct (runAction_one_entry a log w events b w1 Hb)
        as (entry & w2 & outcome & Heq & Hout).
      rewrite Heq in Hrun. apply IH in Hrun as [Hev (entries & -> & Hlen)]. split.
      * rewrite Hev. simpl snd. unfold Agent.messagesOf in *.
        rewrite omap_app. simpl omap at 2.
        change (omap _ [outcome]) with (Agent.messagesOf Agent.ev_action [outcome]) in Hout.
        destruct outcome as [ty m|]; simpl in *.
        -- destruct (decide (ty = Agent.ev_action)); [done|]. by rewrite <- app_assoc.
        -- by rewrite <- app_assoc.
      * exists (entry :: entries). rewrite <- app_assoc. split; [done|]. simpl. lia.
    + by rewrite (runAction_aborted _ _ _ _ _ _ Hb) in Hrun.
Qed.

(** With blanket approval the loop always completes. *)
Lemma runActions_autoApprove_completes todo log st :
  Agent.autoApprove options = Some true ->
  exists log' st', runActions log todo st = (Ok log', st').
Proof.
  intros Hauto. revert log st; induction todo as [|a todo IH]; intros log [w events].
  - simpl. eauto.
  - rewrite runActions_cons.
    assert (approval a w = (Ok true, w)) as Hb.
    { unfold Agent.approval. by rewrite Hauto. }
    destruct (runAction_one_entry a log w events true w Hb)
      as (entry & w2 & outcome & -> & _).
    apply IH.
Qed.

End LoopFacts.

(** C7.  When the adapter of an approved action raises, the round catches
    the error, reports it, appends exactly one ERROR entry carrying the
    error's message to the log, and the loop goes on with the actions after
    it, in the order of the plan: the whole loop equals the loop over the
    remaining actions started from the state the failure left.  A run that
    completes has reported every action of the plan once, in order, and has
    logged an entry for each of the remaining ones; with blanket approval it
    always completes. *)
Theorem adapter_failure_is_not_contagious {W} (tools : Agent.ToolAdapters W)
    (services : Agent.Services W) (options : Agent.RunAgentOptions)
    (ctx : Tools.ToolContext) (before after : list Agent.AgentAction) (a : Agent.AgentAction)
    (log log1 : list str) (st : Agent.Run) (w1 w2 w3 : W)
    (events1 : list Agent.AgentEvent) (e : str) :
  Agent.runActions tools services options ctx log before st = (Ok log1, (w1, events1)) ->
  Agent.approval services options a w1 = (Ok true, w2) ->
  Agent.dispatch tools ctx a w2 = (Err e, w3) ->
  let entry := ("ERROR " : str) ++ Agent.describe a ++ Agent.nl ++ String_of_error e in
  let st3 := (w3, events1 ++ [Agent.Message Agent.ev_action (Agent.describe a);
                              Agent.Message Agent.ev_error (String_of_error e)]) in
  Agent.runAction tools services options ctx log1 a (w1, events1)
  = (Ok (log1 ++ [entry]), st3)
  /\ Agent.runActions tools services options ctx log (before ++ a :: after) st
     = Agent.runActions tools services options ctx (log1 ++ [entry]) after st3
  /\ (forall logN stN,
        Agent.runActions tools services options ctx log (before ++ a :: after) st
        = (Ok logN, stN) ->
        Agent.messagesOf Agent.ev_action stN.2
        = Agent.messagesOf Agent.ev_action st.2
          ++ (Agent.describe <$> before ++ a :: after)
        /\ exists entries,
             logN = log1 ++ entry :: entries /\ length entries = length after)
  /\ (Agent.autoApprove options = Some true ->
      exists logN stN,
        Agent.runActions tools services options ctx log (before ++ a :: after) st
        = (Ok logN, stN)).
Proof.
  intros Hbefore Hyes Herr entry st3.
  pose proof (runAction_failed tools services options ctx a log1 w1 events1 w2 w3 e
                Hyes Herr) as Hround.
  assert (Agent.runActions tools services options ctx log (before ++ a :: after) st
          = Agent.runActions tools services options ctx (log1 ++ [entry]) after st3)
    as Hloop.
  { rewrite runActions_app, Hbefore, runActions_cons, Hround. done. }
  split; [done|]. split; [done|]. split.
  - intros logN stN Hrun. split.
    + by apply (runActions_reports_all _ _ _ _ _ _ _ _ _ Hrun).
    + rewrite Hloop in Hrun.
      apply runActions_reports_all in Hrun as [_ (entries & -> & Hlen)].
      exists entries. by rewrite <- app_assoc.
  - intros Hauto. by apply runActions_autoApprove_completes.
Qed.

Lemma adapter_failure_is_not_contagious_witness :
  let todo1 := [Agent.create_file "notes.txt" "hello" None None] in
  let failing := Agent.shell_command "false" [] None in
  let todo2 := [Agent.create_file "later.txt" "still here" None None] in
  let services := Scenario.services (Scenario.planOf []) in
  exists logN stN,
    Agent.runActions Scenario.tools services (Scenario.options true) Scenario.confined
      [] (todo1 ++ failing :: todo2) (Scenario.emptyWorld, [])
    = (Ok logN, stN)
    /\ Fs.contentAt "/work/later.txt" stN.1 = Some ("still here" : str).
Proof.
  intros todo1 failing todo2 services.
  pose (r := Agent.runActions Scenario.tools services (Scenario.options true)
               Scenario.confined [] todo1 (Scenario.emptyWorld, [])).
  pose (log1 := match r.1 with Ok l => l | Err _ => [] end).
  pose (d := Agent.dispatch Scenario.tools Scenario.confined failing r.2.1).
  destruct (adapter_failure_is_not_contagious Scenario.tools services
              (Scenario.options true) Scenario.confined todo1 todo2 failing
              [] log1 (Scenario.emptyWorld, []) r.2.1 r.2.1 d.2 r.2.2 "boom")
    as (_ & Hloop & _ & _).
  - vm_compute. reflexivity.
  - reflexivity.
  - vm_compute. reflexivity.
  - rewrite Hloop. vm_compute. eexists _, _. split; reflexivity.
Defined.

(** The default confirmation only reads and writes the terminal. *)
Lemma default_confirmation_terminal_only host endpoint parsePlan toFixed6
    (options : Agent.RunAgentOptions) a w r w' :
  Agent.confirm options = None ->
  Agent.approval (Runtime.services host endpoint parsePlan toFixed6) options a w = (r, w') ->
  files w' = files w /\ spawned w' = spawned w.
Proof.
  unfold Agent.approval. intros ->.
  destruct (negb (default false (Agent.autoApprove options))).
  - unfold Agent.confirmAction, io_bind, default. simpl.
    intros [= <- <-]. done.
  - intros [= <- <-]. done.
Qed.

(** C8.  When the confirmation declines an action, the round does not
    depend on the adapters at all (no adapter is invoked): the world is the
    one the confirmation left, the log receives exactly one SKIPPED entry,
    the action and the skip are reported, and the loop goes on with the next
    action.  Such a round only happens with auto-approval off.  With the
    default interactive confirmation the files and the process list are
    untouched. *)
Theorem declined_action_is_skipped (tools tools' : Agent.ToolAdapters World)
    host endpoint parsePlan toFixed6 (options : Agent.RunAgentOptions)
    (ctx : Tools.ToolContext) (a : Agent.AgentAction) (rest : list Agent.AgentAction)
    (log : list str) (w w' : World) (events : list Agent.AgentEvent) :
  let services := Runtime.services host endpoint parsePlan toFixed6 in
  Agent.approval services options a w = (Ok false, w') ->
  let st' := (w', events ++ [Agent.Message Agent.ev_action (Agent.describe a);
                             Agent.Message Agent.ev_info
                               (("Skipped: " : str) ++ Agent.describe a)]) in
  default false (Agent.autoApprove options) = false
  /\ Agent.runAction tools services options ctx log a (w, events)
     = (Ok (log ++ [("SKIPPED " : str) ++ Agent.describe a]), st')
  /\ Agent.runAction tools' services options ctx log a (w, events)
     = Agent.runAction tools services options ctx log a (w, events)
  /\ Agent.runActions tools services options ctx log (a :: rest) (w, events)
     = Agent.runActions tools services options ctx
         (log ++ [("SKIPPED " : str) ++ Agent.describe a]) rest st'
  /\ (Agent.confirm options = None -> files w' = files w /\ spawned w' = spawned w).
Proof.
  intros services Hno st'.
  pose proof (runAction_declined tools services options ctx a log w events w' Hno)
    as Hround.
  split; [|split; [done|split; [|split]]].
  - unfold Agent.approval in Hno.
    destruct (default false (Agent.autoApprove options)); [|done]. by simpl in Hno.
  - rewrite Hround. apply runAction_declined. done.
  - by rewrite runActions_cons, Hround.
  - intros Hc. by eapply default_confirmation_terminal_only.
Qed.

Lemma declined_action_is_skipped_witness :
  let services := Scenario.services (Scenario.planOf []) in
  let a := Agent.delete_file "notes.txt" None in
  let asked :=
    {| files := files Scenario.workspace; spawned := [];
       stdin := []; stdout_prompts := [("Run delete_file? (y/N): " : str)] |} in
  Agent.runAction Scenario.tools services (Scenario.options false) Scenario.confined
    [] a ({| files := files Scenario.workspace; spawned := [];
             stdin := [("n" : str)]; stdout_prompts := [] |}, [])
  = (Ok [("SKIPPED delete_file: notes.txt" : str)],
     (asked, [Agent.Message Agent.ev_action ("delete_file: notes.txt" : str);
              Agent.Message Agent.ev_info ("Skipped: delete_file: notes.txt" : str)])).
Proof.
  intros services a asked.
  apply (declined_action_is_skipped Scenario.tools Scenario.tools Scenario.host
           Scenario.endpoint
           (fun raw => if decide (raw = "PLAN") then Ok (Scenario.planOf []) else Err "SyntaxError")
           (fun _ => "0.000000") (Scenario.options false) Scenario.confined a [] []
           {| files := files Scenario.workspace; spawned := [];
              stdin := [("n" : str)]; stdout_prompts := [] |} asked []).
  reflexivity.
Defined.

(** * Usage events of a run *)

Section UsageFacts.
Context {W : Type} (tools : Agent.ToolAdapters W) (services : Agent.Services W).
Context (options : Agent.RunAgentOptions (W := W)).

Implicit Types (events : list Agent.AgentEvent) (phase : Agent.Phase).

Lemma usagesOf_app phase events1 events2 :
  Agent.usagesOf phase (events1 ++ events2)
  = Agent.usagesOf phase events1 ++ Agent.usagesOf phase events2.
Proof. apply omap_app. Qed.

Lemma usagesOf_message phase events ty m :
  Agent.usagesOf phase (events ++ [Agent.Message ty m]) = Agent.usagesOf phase events.
Proof. rewrite usagesOf_app. simpl. by rewrite app_nil_r. Qed.

(** The loop over the actions reports no usage. *)
Lemma runAction_usages ctx log a st r st' phase :
  Agent.runAction tools services options ctx log a st = (r, st') ->
  Agent.usagesOf phase st'.2 = Agent.usagesOf phase st.2.
Proof.
  destruct st as [w events].
  destruct (Agent.approval services options a w) as [[[|]|e] w1] eqn:Hb.
  - destruct (Agent.dispatch tools ctx a w1) as [[text|e] w2] eqn:Hd.
    + rewrite (runAction_succeeded _ _ _ _ _ _ _ _ _ _ _ Hb Hd). intros [= <- <-].
      simpl. rewrite usagesOf_app. simpl. by rewrite app_nil_r.
    + rewrite (runAction_failed _ _ _ _ _ _ _ _ _ _ _ Hb Hd). intros [= <- <-].
      simpl. rewrite usagesOf_app. simpl. by rewrite app_nil_r.
  - rewrite (runAction_declined _ _ _ _ _ _ _ _ _ Hb). intros [= <- <-].
    simpl. rewrite usagesOf_app. simpl. by rewrite app_nil_r.
  - rewrite (runAction_aborted _ _ _ _ _ _ _ _ _ _ Hb). intros [= <- <-].
    simpl. by rewrite usagesOf_message.
Qed.

Lemma runActions_usages ctx todo log st r st' phase :
  Agent.runActions tools services options ctx log todo st = (r, st') ->
  Agent.usagesOf phase st'.2 = Agent.usagesOf phase st.2.
Proof.
  revert log st; induction todo as [|a todo IH]; intros log st.
  - simpl. by intros [= <- <-].
  - rewrite runActions_cons.
    destruct (Agent.runAction tools services options ctx log a st) as [[log'|e] st1] eqn:Ha.
    + intros Hrest. rewrite (IH _ _ Hrest). by eapply runAction_usages.
    + intros [= <- <-]. by eapply runAction_usages.
Qed.

(** What [recordUsage] reports and returns. *)
Lemma recordUsage_spec phase usage runUsage w events :
  Agent.recordUsage services phase usage runUsage (w, events)
  = (Ok (foldl Agent.accumulate runUsage (option_list usage)),
     (w, events ++ match usage with
                   | Some u => [Agent.Usage (Agent.formatUsageMessage services u phase) u phase]
                   | None => []
                   end)).
Proof.
  destruct usage as [u|]; simpl.
  - reflexivity.
  - by rewrite app_nil_r.
Qed.

End UsageFacts.

Section RunFacts.
Context {W : Type} (tools : Agent.ToolAdapters W) (services : Agent.Services W).
Context (options : Agent.RunAgentOptions (W := W)).

Lemma io_bind_Ok {S A B} (m : IO S A) (k : A -> IO S B) s b s' :
  io_bind m k s = (Ok b, s') ->
  exists a s1, m s = (Ok a, s1) /\ k a s1 = (Ok b, s').
Proof.
  unfold io_bind. destruct (m s) as [[a|e] s1]; [eauto | done].
Qed.

Lemma emit_message_usages phase ty m (st : Agent.Run (W := W)) r st' :
  Agent.emit (Agent.Message ty m) st = (r, st') ->
  Agent.usagesOf phase st'.2 = Agent.usagesOf phase st.2.
Proof. intros [= <- <-]. simpl. apply usagesOf_message. Qed.

Lemma inWorld_events {A} (m : IO W A) (st : Agent.Run (W := W)) r st' :
  Agent.inWorld m st = (r, st') -> st'.2 = st.2.
Proof. unfold Agent.inWorld. destruct (m st.1). by intros [= <- <-]. Qed.

Lemma inWorld_Ok {A} (m : IO W A) (st : Agent.Run (W := W)) a st' :
  Agent.inWorld m st = (Ok a, st') -> m st.1 = (Ok a, st'.1) /\ st'.2 = st.2.
Proof.
  unfold Agent.inWorld. destruct (m st.1) as [r w1]. by intros [= -> <-].
Qed.

(** A completed run, call by call: the plan call and, when the plan has
    actions, the follow-up call; the usage events are the summaries of the
    responses of these calls, and the run total when its token total is
    positive. *)
Lemma runAgent_usage_events w w' events :
  Agent.runAgent tools services options (w, []) = (Ok tt, (w', events)) ->
  let summarize (response : ChatResponse) :=
    Pricing.summarizeUsage (OpenAI.resolveModel (Agent.config options))
      (resp_usage response) (Config.pricing (Agent.config options)) in
  exists planResponse w1 plan (followResponse : option ChatResponse),
    Agent.chatCompletion services (Agent.planRequest services options) w
    = (Ok planResponse, w1)
    /\ Agent.parsePlan services (default [] (resp_content planResponse)) = Ok plan
    /\ match followResponse with
       | Some response =>
           Agent.actions plan <> []
           /\ exists log w2 w3,
                length log = length (Agent.actions plan)
                /\ Agent.chatCompletion services (Agent.followUpRequest options log) w2
                   = (Ok response, w3)
       | None => Agent.actions plan = []
       end
    /\ Agent.usagesOf Agent.phase_plan events = option_list (summarize planResponse)
    /\ Agent.usagesOf Agent.phase_followup events
       = option_list (followResponse ≫= summarize)
    /\ let total :=
         foldl Agent.accumulate
           (Agent.zeroUsage (OpenAI.resolveModel (Agent.config options)))
           (option_list (summarize planResponse)
            ++ option_list (followResponse ≫= summarize)) in
       Agent.usagesOf Agent.phase_run events
       = if (0 <? Pricing.totalTokens total)%Z then [total] else [].
Proof.
  intros H summarize. unfold Agent.runAgent in H.
  apply io_bind_Ok in H as ([] & st0 & E0 & H).
  apply io_bind_Ok in H as ([] & st1 & E1 & H).
  apply io_bind_Ok in H as (completion & st2 & E2 & H).
  apply io_bind_Ok in H as (runUsage1 & st3 & E3 & H).
  apply io_bind_Ok in H as (plan & st4 & E4 & H).
  apply io_bind_Ok in H as ([] & st5 & E5 & H).
  apply io_bind_Ok in H as ([] & st6 & E6 & H).
  apply io_bind_Ok in H as (log & st7 & E7 & H).
  apply io_bind_Ok in H as (runUsage2 & st8 & E8 & H).
  set (model := OpenAI.resolveModel (Agent.config options)) in *.
  set (initial := Pricing.summarizeUsage model (resp_usage completion)
                    (Config.pricing (Agent.config options))) in *.
  (* the states up to the loop *)
  unfold io_lift in E0. injection E0 as _ <-.
  assert (st1.1 = w) as Hw1.
  { unfold Agent.emit, io_modify in E1. by injection E1 as <-. }
  assert (forall ph, Agent.usagesOf ph st1.2 = []) as U1.
  { intros ph. by rewrite (emit_message_usages ph _ _ _ _ _ E1). }
  apply inWorld_Ok in E2 as [Hcall E2]. rewrite Hw1 in Hcall.
  destruct st2 as [w2 ev2]. rewrite recordUsage_spec in E3. injection E3 as <- <-.
  assert (Agent.parsePlan services (default [] (resp_content completion)) = Ok plan
          /\ st4 = (w2, ev2 ++ match initial with
                               | Some u =>
                                   [Agent.Usage
                                      (Agent.formatUsageMessage services u Agent.phase_plan)
                                      u Agent.phase_plan]
                               | None => []
                               end)) as [Hplan ->].
  { destruct (Agent.parsePlan services _); [by injection E4 as -> <- | done]. }
  assert (forall ph, Agent.usagesOf ph st7.2
                     = if decide (ph = Agent.phase_plan) then option_list initial else [])
    as U7.
  { intros ph. rewrite (runActions_usages _ _ _ _ _ _ _ _ _ ph E7).
    assert (Agent.usagesOf ph st6.2 = Agent.usagesOf ph st5.2) as ->.
    { destruct (Agent.nonEmpty (Agent.response plan)).
      - by eapply emit_message_usages.
      - by injection E6 as <-. }
    rewrite (emit_message_usages ph _ _ _ _ _ E5). simpl snd.
    rewrite usagesOf_app. simpl in E2. rewrite E2, U1. simpl.
    destruct initial as [u|]; simpl; [|by case_decide].
    destruct ph; simpl; done. }
  (* the log has one entry for each action *)
  assert (length log = length (Agent.actions plan)) as Hlog.
  { destruct (runActions_reports_all _ _ _ _ _ _ _ _ _ E7)
      as (_ & entries & Hentries & Hlength).
    rewrite Hentries. exact Hlength. }
  (* the follow-up call *)
  assert (exists followResponse : option ChatResponse,
             match followResponse with
             | Some response =>
                 Agent.actions plan <> []
                 /\ exists w2 w3,
                      Agent.chatCompletion services (Agent.followUpRequest options log) w2
                      = (Ok response, w3)
             | None => Agent.actions plan = []
             end
             /\ runUsage2 = foldl Agent.accumulate (Agent.zeroUsage model)
                              (option_list initial
                               ++ option_list (followResponse ≫= summarize))
             /\ forall ph, Agent.usagesOf ph st8.2
                  = if decide (ph = Agent.phase_plan) then option_list initial
                    else if decide (ph = Agent.phase_followup)
                         then option_list (followResponse ≫= summarize)
                    else []) as (followResponse & Hfollow & -> & U8).
  { destruct (0 <? length log) eqn:Hpos.
    - apply io_bind_Ok in E8 as (followUp & st71 & F1 & E8).
      apply io_bind_Ok in E8 as (ru & st72 & F2 & E8).
      apply io_bind_Ok in E8 as ([] & st73 & F3 & E8).
      injection E8 as <- <-.
      apply inWorld_Ok in F1 as [Fcall F1]. destruct st71 as [w71 ev71].
      rewrite recordUsage_spec in F2. injection F2 as <- <-.
      exists (Some followUp). split; [|split].
      + split; [|by exists st7.1, w71].
        apply Nat.ltb_lt in Hpos. rewrite Hlog in Hpos.
        intros Hnil. rewrite Hnil in Hpos. simpl in Hpos. lia.
      + by rewrite foldl_app.
      + intros ph. simpl in F1. simpl mbind. unfold summarize.
        destruct (Agent.nonEmpty (JS.trim <$> resp_content followUp));
          [rewrite (emit_message_usages ph _ _ _ _ _ F3) | injection F3 as <-];
          simpl snd; rewrite usagesOf_app, F1, U7;
          destruct (Pricing.summarizeUsage model (resp_usage followUp) _) as [u|];
          destruct ph; simpl; by rewrite ?app_nil_r.
    - unfold io_ret in E8. inversion E8; subst st8. exists None. split; [|split].
      + apply Nat.ltb_ge in Hpos. rewrite Hlog in Hpos.
        destruct (Agent.actions plan); [done | simpl in Hpos; lia].
      + by rewrite app_nil_r.
      + intros ph. rewrite U7. by destruct ph. }
  exists completion, w2, plan, followResponse.
  split; [exact Hcall|]. split; [exact Hplan|]. split.
  { destruct followResponse as [response|]; [|done].
    destruct Hfollow as (Hne & wa & wb & Hc). split; [done|]. by exists log, wa, wb. }
  pose proof (U8 Agent.phase_plan) as Up. pose proof (U8 Agent.phase_followup) as Uf.
  pose proof (U8 Agent.phase_run) as Ur. simpl in Up, Uf, Ur.
  fold initial. cbv zeta.
  destruct (0 <? Pricing.totalTokens _)%Z.
  - unfold Agent.emit, io_modify in H. injection H as _ <-.
    rewrite !usagesOf_app, Up, Uf, Ur. simpl. by rewrite !app_nil_r.
  - unfold io_ret in H. injection H as Hst. rewrite Hst in Up, Uf, Ur. done.
Qed.

End RunFacts.

Lemma sumZ_cons x l : Agent.sumZ (x :: l) = (x + Agent.sumZ l)%Z.
Proof. reflexivity. Qed.

(** The run total, field by field. *)
Lemma foldl_accumulate_tokens l z :
  Pricing.model (foldl Agent.accumulate z l) = Pricing.model z
  /\ Pricing.promptTokens (foldl Agent.accumulate z l)
     = (Pricing.promptTokens z + Agent.sumZ (Pricing.promptTokens <$> l))%Z
  /\ Pricing.completionTokens (foldl Agent.accumulate z l)
     = (Pricing.completionTokens z + Agent.sumZ (Pricing.completionTokens <$> l))%Z
  /\ Pricing.totalTokens (foldl Agent.accumulate z l)
     = (Pricing.totalTokens z + Agent.sumZ (Pricing.totalTokens <$> l))%Z
  /\ Pricing.cachedTokens (foldl Agent.accumulate z l)
     = (Pricing.cachedTokens z + Agent.sumZ (Pricing.cachedTokens <$> l))%Z.
Proof.
  revert z; induction l as [|u l IH]; intros z.
  - unfold Agent.sumZ. simpl. repeat split; lia.
  - change (foldl Agent.accumulate z (u :: l))
      with (foldl Agent.accumulate (Agent.accumulate z u) l).
    destruct (IH (Agent.accumulate z u)) as (-> & -> & -> & -> & ->).
    rewrite !fmap_cons, !sumZ_cons. cbn [Agent.accumulate Pricing.model
      Pricing.promptTokens Pricing.completionTokens Pricing.totalTokens
      Pricing.cachedTokens]. repeat split; lia.
Qed.

(** The cost of the run total is the sum of the costs that are there. *)
Lemma foldl_accumulate_cost l z :
  Pricing.cost z = None ->
  Pricing.cost (foldl Agent.accumulate z l) = Agent.sumCosts (Pricing.cost <$> l).
Proof.
  unfold Agent.sumCosts. intros <-. revert z.
  induction l as [|u l IH]; intros z; [done|].
  cbn [foldl fmap list_fmap]. rewrite IH. reflexivity.
Qed.

Lemma sumZ_nonneg l : Forall (fun n => 0 <= n)%Z l -> (0 <= Agent.sumZ l)%Z.
Proof. unfold Agent.sumZ. induction 1; simpl; lia. Qed.

(** C9.  In a run that completes, the plan call and (when the plan has
    actions) the follow-up call each answer with usage counters or without;
    the usage events of phase "plan" and "followup" are exactly the
    summaries of these two responses.  A usage event with phase "run" is
    emitted exactly when the token totals of these summaries add up to
    something other than zero (token totals being counts, none of them
    negative).  There is at most one such event; its prompt, completion,
    total and cached counts are the sums of those of the two summaries, and
    its cost is the sum of the costs of the summaries that have one, unset
    when none has. *)
Theorem run_usage_is_sum {W} (tools : Agent.ToolAdapters W) (services : Agent.Services W)
    (options : Agent.RunAgentOptions) (w w' : W) (events : list Agent.AgentEvent) :
  Agent.runAgent tools services options (w, []) = (Ok tt, (w', events)) ->
  let summarize (response : ChatResponse) :=
    Pricing.summarizeUsage (OpenAI.resolveModel (Agent.config options))
      (resp_usage response) (Config.pricing (Agent.config options)) in
  exists planResponse w1 plan (followResponse : option ChatResponse),
    Agent.chatCompletion services (Agent.planRequest services options) w
    = (Ok planResponse, w1)
    /\ Agent.parsePlan services (default [] (resp_content planResponse)) = Ok plan
    /\ match followResponse with
       | Some response =>
           Agent.actions plan <> []
           /\ exists log w2 w3,
                length log = length (Agent.actions plan)
                /\ Agent.chatCompletion services (Agent.followUpRequest options log) w2
                   = (Ok response, w3)
       | None => Agent.actions plan = []
       end
    /\ let parts :=
         option_list (summarize planResponse)
         ++ option_list (followResponse ≫= summarize) in
       Agent.usagesOf Agent.phase_plan events = option_list (summarize planResponse)
       /\ Agent.usagesOf Agent.phase_followup events
          = option_list (followResponse ≫= summarize)
       /\ (Forall (fun u => 0 <= Pricing.totalTokens u)%Z parts ->
           (Agent.usagesOf Agent.phase_run events <> []
            <-> Agent.sumZ (Pricing.totalTokens <$> parts) <> 0%Z))
       /\ (forall u, u ∈ Agent.usagesOf Agent.phase_run events ->
             Agent.usagesOf Agent.phase_run events = [u]
             /\ Pricing.promptTokens u = Agent.sumZ (Pricing.promptTokens <$> parts)
             /\ Pricing.completionTokens u
                = Agent.sumZ (Pricing.completionTokens <$> parts)
             /\ Pricing.totalTokens u = Agent.sumZ (Pricing.totalTokens <$> parts)
             /\ Pricing.cachedTokens u = Agent.sumZ (Pricing.cachedTokens <$> parts)
             /\ Pricing.cost u = Agent.sumCosts (Pricing.cost <$> parts)).
Proof.
  intros Hrun summarize. subst summarize.
  pose proof (runAgent_usage_events tools services options w w' events Hrun) as H.
  cbv beta zeta in H |- *.
  destruct H as (planResponse & w1 & plan & followResponse & Hcall & Hplan & Hfollow
                 & Hp & Hf & Hr).
  exists planResponse, w1, plan, followResponse.
  split; [exact Hcall|]. split; [exact Hplan|]. split; [exact Hfollow|].
  split; [exact Hp|]. split; [exact Hf|].
  match type of Hr with
  | context [foldl Agent.accumulate _ ?l] => set (parts := l) in *
  end.
  set (total := foldl Agent.accumulate _ parts) in *.
  destruct (foldl_accumulate_tokens parts
              (Agent.zeroUsage (OpenAI.resolveModel (Agent.config options))))
    as (_ & Hpt & Hct & Htt & Hcach).
  fold total in Hpt, Hct, Htt, Hcach. simpl in Hpt, Hct, Htt, Hcach.
  split.
  - intros Hnonneg.
    assert (0 <= Agent.sumZ (Pricing.totalTokens <$> parts))%Z as Hsum.
    { apply sumZ_nonneg. by apply Forall_fmap. }
    rewrite Hr. destruct (0 <? Pricing.totalTokens total)%Z eqn:Hpos.
    + apply Z.ltb_lt in Hpos. split; [lia | done].
    + apply Z.ltb_ge in Hpos. split; [done | lia].
  - intros u Hu. rewrite Hr in Hu |- *.
    destruct (0 <? Pricing.totalTokens total)%Z; [|by apply elem_of_nil in Hu].
    apply list_elem_of_singleton in Hu as ->.
    repeat split; try done.
    by apply foldl_accumulate_cost.
Qed.

Lemma run_usage_is_sum_witness :
  let todo := [Agent.create_file "notes.txt" "hello" None None] in
  let run :=
    Agent.runAgent Scenario.tools (Scenario.services (Scenario.planOf todo))
      (Scenario.options true) (Scenario.emptyWorld, []) in
  exists planResponse followResponse,
    resp_usage planResponse = Some (Scenario.counters 1200 300)
    /\ resp_usage followResponse = Some (Scenario.counters 800 100)
    /\ Agent.usagesOf Agent.phase_plan run.2.2
       = option_list (Pricing.summarizeUsage "gpt-4.1" (resp_usage planResponse) None)
    /\ Agent.usagesOf Agent.phase_followup run.2.2
       = option_list (Pricing.summarizeUsage "gpt-4.1" (resp_usage followResponse) None).
Proof.
  intros todo run.
  assert (run = (Ok tt, (run.2.1, run.2.2))) as Hrun by (vm_compute; reflexivity).
  destruct (run_usage_is_sum Scenario.tools (Scenario.services (Scenario.planOf todo))
              (Scenario.options true) Scenario.emptyWorld run.2.1 run.2.2 Hrun)
    as (planResponse & w1 & plan & followResponse & Hcall & Hplan & Hfollow
        & Hp & Hf & _).
  injection Hcall as <- _.
  destruct followResponse as [response|].
  - destruct Hfollow as (_ & log & w2 & w3 & _ & Hcall'). injection Hcall' as <- _.
    exists {| resp_usage := Some (Scenario.counters 1200 300);
              resp_content := Some ("PLAN" : str) |},
           {| resp_usage := Some (Scenario.counters 800 100);
              resp_content := Some ("All done." : str) |}.
    split; [reflexivity|]. split; [reflexivity|]. split; [exact Hp | exact Hf].
  - exfalso. subst todo. vm_compute in Hplan. injection Hplan as <-.
    discriminate Hfollow.
Defined.

(** * [replace_in_file] *)

Section ReplaceFacts.
Implicit Types (s raw find template : str).

Lemma includes_cons c s find :
  JS.includes (c :: s) find = JS.startsWith (c :: s) find || JS.includes s find.
Proof.
  unfold JS.includes. destruct (JS.startsWith (c :: s) find) eqn:E.
  - by rewrite indexOf_here.
  - rewrite indexOf_cons_false by done. by destruct (JS.indexOf s find).
Qed.

Lemma includes_nil find : find <> [] -> JS.includes [] find = false.
Proof. by destruct find. Qed.

Lemma startsWith_head c s d find :
  JS.startsWith (c :: s) (d :: find) = true -> d = c.
Proof. simpl. by case_decide. Qed.

(** A match that begins inside [s] and does not fit into [s] runs over the
    character that follows. *)
Lemma startsWith_app_cons s r t find :
  JS.startsWith (s ++ r :: t) find = true -> JS.startsWith s find = true \/ r ∈ find.
Proof.
  revert find; induction s as [|c s IH]; intros [|d find]; simpl; auto.
  - case_decide; [|done]. subst. intros _. right. left.
  - case_decide; [|done]. intros [?|?]%IH; [by left | right; by right].
Qed.

Lemma startsWith_take i s find :
  JS.startsWith (take i s) find = true -> JS.startsWith s find = true.
Proof.
  rewrite !startsWith_prefix. intros H. etrans; [done|]. apply prefix_take.
Qed.

(** No occurrence begins in a stretch of characters foreign to [find]. *)
Lemma includes_foreign_prefix x s find :
  find <> [] -> (forall c, c ∈ x -> c ∉ find) ->
  JS.includes s find = false -> JS.includes (x ++ s) find = false.
Proof.
  intros Hne Hx Hs. induction x as [|c x IH]; [done|]. simpl.
  rewrite includes_cons, IH by (intros c' ?; apply Hx; by right).
  destruct find as [|d find]; [done|].
  destruct (JS.startsWith (c :: x ++ s) (d :: find)) eqn:E; [|done].
  apply startsWith_head in E as ->. exfalso. apply (Hx c); left.
Qed.

(** Two texts free of [find], joined by a non-empty separator foreign to
    [find], are free of [find]. *)
Lemma includes_separated a x b find :
  find <> [] -> x <> [] -> (forall c, c ∈ x -> c ∉ find) ->
  JS.includes a find = false -> JS.includes b find = false ->
  JS.includes (a ++ x ++ b) find = false.
Proof.
  intros Hne Hxne Hx Ha Hb.
  pose proof (includes_foreign_prefix x b find Hne Hx Hb) as Hxb.
  destruct x as [|r x]; [done|].
  induction a as [|c a IH]; [done|].
  rewrite includes_cons in Ha. apply orb_false_iff in Ha as [Hc Ha].
  rewrite <- app_comm_cons, includes_cons, (IH Ha), orb_false_r.
  destruct (JS.startsWith (c :: a ++ (r :: x) ++ b) find) eqn:E; [|done].
  change (c :: a ++ (r :: x) ++ b) with ((c :: a) ++ r :: (x ++ b)) in E.
  apply startsWith_app_cons in E as [E|E]; [congruence|].
  exfalso. apply (Hx r); [left | done].
Qed.

(** The text before the first occurrence is free of the pattern. *)
Lemma includes_before_first s find i :
  find <> [] -> JS.indexOf s find = Some i -> JS.includes (take i s) find = false.
Proof.
  intros Hne [_ Hmin]%indexOf_Some. unfold JS.includes.
  destruct (JS.indexOf (take i s) find) as [j|] eqn:E; [|done].
  apply indexOf_Some in E as [Hj _]. exfalso.
  destruct (decide (j < i)) as [Hlt|Hge].
  - replace i with (j + (i - j)) in Hj by lia.
    rewrite <- take_drop_commute in Hj. apply startsWith_take in Hj.
    rewrite (Hmin j Hlt) in Hj. done.
  - rewrite drop_ge in Hj by (rewrite length_take; lia). by destruct find.
Qed.

Lemma indexOf_bound s find i :
  JS.indexOf s find = Some i -> i + length find <= length s.
Proof.
  revert i; induction s as [|c s IH]; intros i.
  - destruct (JS.startsWith [] find) eqn:E.
    + rewrite indexOf_here by done. intros [= <-]. by destruct find.
    + by rewrite indexOf_nil_false.
  - destruct (JS.startsWith (c :: s) find) eqn:E.
    + rewrite indexOf_here by done. intros [= <-].
      apply startsWith_prefix, prefix_length in E. simpl in *. lia.
    + rewrite indexOf_cons_false by done.
      destruct (JS.indexOf s find) as [k|]; [|done]. intros [= <-].
      specialize (IH k eq_refl). simpl. lia.
Qed.

(** Every piece of a split is free of the separator. *)
Lemma splitFrom_pieces fuel s find :
  find <> [] -> length s <= fuel ->
  Forall (fun piece => JS.includes piece find = false) (JS.splitFrom fuel s find).
Proof.
  intros Hne. revert s; induction fuel as [|fuel IH]; intros s Hlen; simpl.
  - destruct s; [|simpl in Hlen; lia]. constructor; [by apply includes_nil | done].
  - destruct (JS.indexOf s find) as [i|] eqn:E.
    + constructor; [by eapply includes_before_first|].
      apply IH. rewrite length_drop. apply indexOf_bound in E.
      destruct find; [done|]. simpl in *. lia.
    + constructor; [|done]. unfold JS.includes. by rewrite E.
Qed.

Lemma join_free x pieces find :
  find <> [] -> x <> [] -> (forall c, c ∈ x -> c ∉ find) ->
  Forall (fun piece => JS.includes piece find = false) pieces ->
  JS.includes (JS.join x pieces) find = false.
Proof.
  intros Hne Hxne Hx. induction 1 as [|a pieces Ha Hrest IH]; [by apply includes_nil|].
  destruct pieces as [|b pieces]; [done|].
  change (JS.join x (a :: b :: pieces)) with (a ++ x ++ JS.join x (b :: pieces)).
  by apply includes_separated.
Qed.

(** Counting with more fuel than needed changes nothing. *)
Lemma countFrom_enough fuel1 fuel2 s find :
  find <> [] -> length s <= fuel1 -> length s <= fuel2 ->
  Tools.countFrom fuel1 s find = Tools.countFrom fuel2 s find.
Proof.
  intros Hne. revert fuel2 s.
  assert (forall s i, JS.indexOf s find = Some i ->
                      S (length (drop (i + length find) s)) <= length s) as Hshrink.
  { intros s i E. apply indexOf_bound in E. rewrite length_drop.
    destruct find; [done|]. simpl in *. lia. }
  induction fuel1 as [|fuel1 IH]; intros fuel2 s H1 H2.
  - destruct s; [|simpl in H1; lia]. destruct fuel2; [done|].
    cbn [Tools.countFrom]. rewrite indexOf_nil_false; [done | by destruct find].
  - destruct fuel2 as [|fuel2].
    + destruct s; [|simpl in H2; lia].
      cbn [Tools.countFrom]. rewrite indexOf_nil_false; [done | by destruct find].
    + cbn [Tools.countFrom]. destruct (JS.indexOf s find) as [i|] eqn:E; [|done].
      apply Hshrink in E. f_equal. apply IH; lia.
Qed.

Lemma countFrom_fuel fuel s find :
  find <> [] -> length s <= fuel ->
  Tools.countFrom fuel s find = Tools.occurrences s find.
Proof. intros Hne Hlen. by apply countFrom_enough. Qed.

(** The count, unfolded once. *)
Lemma occurrences_unfold s find :
  find <> [] ->
  Tools.occurrences s find
  = match JS.indexOf s find with
    | None => 0
    | Some i => S (Tools.occurrences (drop (i + length find) s) find)
    end.
Proof.
  intros Hne. unfold Tools.occurrences at 1. destruct s as [|c s].
  - cbn [Tools.countFrom length]. rewrite indexOf_nil_false; [done | by destruct find].
  - change (length (c :: s)) with (S (length s)). cbn [Tools.countFrom].
    destruct (JS.indexOf (c :: s) find) as [i|] eqn:E; [|done].
    f_equal. apply countFrom_fuel; [done|].
    apply indexOf_bound in E. rewrite length_drop.
    destruct find; [done|]. simpl in *. lia.
Qed.

Lemma occurrences_none s find :
  find <> [] -> JS.includes s find = false -> Tools.occurrences s find = 0.
Proof.
  intros Hne Hs. rewrite occurrences_unfold by done.
  unfold JS.includes in Hs. by destruct (JS.indexOf s find).
Qed.

(** If no occurrence begins within [x], the search in [x ++ s] finds what
    it finds in [s]. *)
Lemma indexOf_skip x s find :
  (forall j, j < length x -> JS.startsWith (drop j (x ++ s)) find = false) ->
  JS.indexOf (x ++ s) find = (fun k => length x + k) <$> JS.indexOf s find.
Proof.
  induction x as [|c x IH]; intros Hfree.
  - simpl. by destruct (JS.indexOf s find).
  - rewrite <- app_comm_cons, indexOf_cons_false by (apply (Hfree 0); simpl; lia).
    rewrite IH.
    + by destruct (JS.indexOf s find).
    + intros j Hj. apply (Hfree (S j)). simpl. lia.
Qed.

Lemma occurrences_skip x s find :
  find <> [] ->
  (forall j, j < length x -> JS.startsWith (drop j (x ++ s)) find = false) ->
  Tools.occurrences (x ++ s) find = Tools.occurrences s find.
Proof.
  intros Hne Hfree. rewrite (occurrences_unfold (x ++ s)), (occurrences_unfold s) by done.
  rewrite indexOf_skip by done. destruct (JS.indexOf s find) as [k|]; [|done].
  simpl. by rewrite <- Nat.add_assoc, drop_app_add.
Qed.

(** Splitting with more fuel than needed changes nothing. *)
Lemma splitFrom_enough fuel1 fuel2 s sep :
  sep <> [] -> length s <= fuel1 -> length s <= fuel2 ->
  JS.splitFrom fuel1 s sep = JS.splitFrom fuel2 s sep.
Proof.
  intros Hne. revert fuel2 s.
  induction fuel1 as [|fuel1 IH]; intros fuel2 s H1 H2.
  - destruct s; [|simpl in H1; lia]. destruct fuel2; [done|].
    cbn [JS.splitFrom]. rewrite indexOf_nil_false; [done | by destruct sep].
  - destruct fuel2 as [|fuel2].
    + destruct s; [|simpl in H2; lia].
      cbn [JS.splitFrom]. rewrite indexOf_nil_false; [done | by destruct sep].
    + cbn [JS.splitFrom]. destruct (JS.indexOf s sep) as [i|] eqn:E; [|done].
      apply indexOf_bound in E. f_equal.
      apply IH; rewrite length_drop; destruct sep; try done; simpl in *; lia.
Qed.

(** [split] follows the loop of the language definition: cut at the first
    occurrence of the separator and go on behind it. *)
Lemma split_unfold s sep :
  sep <> [] ->
  JS.split s sep
  = match JS.indexOf s sep with
    | None => [s]
    | Some i => take i s :: JS.split (drop (i + length sep) s) sep
    end.
Proof.
  intros Hne. unfold JS.split. destruct sep as [|d sep]; [done|].
  destruct s as [|c s].
  - cbn [JS.splitFrom length]. by rewrite indexOf_nil_false.
  - change (length (c :: s)) with (S (length s)). cbn [JS.splitFrom].
    destruct (JS.indexOf (c :: s) (d :: sep)) as [i|] eqn:E; [|done].
    f_equal. apply indexOf_bound in E.
    apply splitFrom_enough; [done | rewrite length_drop; simpl in *; lia | done].
Qed.

(** The pieces of a split are one more than the occurrences. *)
Lemma split_length s find :
  find <> [] -> length (JS.split s find) = S (Tools.occurrences s find).
Proof.
  intros Hne. remember (length s) as n eqn:Hn. revert s Hn.
  induction n as [n IH] using lt_wf_ind. intros s ->.
  rewrite split_unfold, occurrences_unfold by done.
  destruct (JS.indexOf s find) as [i|] eqn:E; [|done].
  simpl. f_equal. eapply IH; [|reflexivity].
  apply indexOf_bound in E. rewrite length_drop.
  destruct find; [done|]. simpl in *. lia.
Qed.

(** A template without "$" stands for itself. *)
Lemma getSubstitution_plain matched before after template :
  "$"%char ∉ template ->
  JS.getSubstitution matched before after template = template.
Proof.
  induction template as [|c t IH]; intros Hd; [done|].
  rewrite not_elem_of_cons in Hd. destruct Hd as [Hc Ht].
  simpl. rewrite decide_False by done. by rewrite IH.
Qed.

(** Replacing the first occurrence by a text foreign to the pattern takes
    one occurrence away. *)
Lemma replace_first_occurrences raw find template :
  find <> [] -> template <> [] -> (forall c, c ∈ template -> c ∉ find) ->
  "$"%char ∉ template -> JS.includes raw find = true ->
  Tools.occurrences (JS.replace raw find template) find
  = Tools.occurrences raw find - 1.
Proof.
  intros Hne Htne Hforeign Hplain Hin. unfold JS.replace.
  rewrite (occurrences_unfold raw) by done.
  unfold JS.includes in Hin. destruct (JS.indexOf raw find) as [i|] eqn:E; [|done].
  rewrite getSubstitution_plain by done.
  pose proof (indexOf_bound _ _ _ E) as Hbound.
  apply indexOf_Some in E as [_ Hmin].
  rewrite app_assoc, occurrences_skip; [simpl; lia | done |].
  intros j Hj. rewrite length_app, length_take in Hj.
  destruct (JS.startsWith _ find) eqn:Hs; [exfalso | done].
  destruct (decide (j < i)) as [Hlt|Hge].
  - rewrite <- app_assoc, drop_app_le in Hs by (rewrite length_take; lia).
    destruct template as [|r template]; [done|].
    change (drop j (take i raw) ++ (r :: template) ++ drop (i + length find) raw)
      with (drop j (take i raw) ++ r :: (template ++ drop (i + length find) raw)) in Hs.
    apply startsWith_app_cons in Hs as [Hs|Hs].
    + replace i with (j + (i - j)) in Hs by lia.
      rewrite <- take_drop_commute in Hs. apply startsWith_take in Hs.
      rewrite (Hmin j Hlt) in Hs. done.
    + apply (Hforeign r); [left | done].
  - rewrite <- app_assoc, drop_app_ge in Hs by (rewrite length_take; lia).
    rewrite length_take in Hs.
    rewrite drop_app_le in Hs by lia.
    destruct (drop (j - i `min` length raw) template) as [|r rest] eqn:Hd.
    { apply (f_equal length) in Hd. rewrite length_drop in Hd. simpl in Hd. lia. }
    destruct find as [|d find]; [done|].
    apply startsWith_head in Hs as ->.
    apply (Hforeign r); [|left].
    apply (subseteq_drop (j - i `min` length raw)). rewrite Hd. left.
Qed.

(** Replacing every occurrence by a text foreign to the pattern leaves
    none. *)
Lemma replace_all_occurrences raw find template :
  find <> [] -> template <> [] -> (forall c, c ∈ template -> c ∉ find) ->
  JS.includes (JS.join template (JS.split raw find)) find = false.
Proof.
  intros Hne Htne Hforeign. apply join_free; try done.
  unfold JS.split. destruct find as [|d find]; [done|]. by apply splitFrom_pieces.
Qed.

End ReplaceFacts.

(** [replaceInFile] reads the file, computes the new text and writes it
    back. *)
Lemma replaceInFile_content host ctx target find template replaceAll w resolved raw :
  Tools.resolveWithinRoot host (Tools.root ctx) target (Tools.allowOutsideRoot ctx)
  = Ok resolved ->
  Fs.contentAt resolved w = Some raw ->
  exists w',
    Tools.replaceInFile host ctx target find template replaceAll w
    = (Ok (("Replaced text in " : str) ++ target), w')
    /\ Fs.contentAt resolved w'
       = Some (Tools.replacedText raw find template replaceAll).
Proof.
  intros Hres Hraw. unfold Tools.replaceInFile, io_bind, io_lift. rewrite Hres.
  unfold Fs.contentAt in Hraw. unfold Fs.readFile, Fs.writeFile, Fs.writableAt.
  destruct (Fs.lookupNode (files w) (Path.components resolved)) as [[c|]|] eqn:E;
    [|done..]. injection Hraw as ->. cbv beta iota. rewrite E.
  eexists. split; [reflexivity|]. unfold Fs.contentAt. simpl files.
  destruct (Path.components resolved) as [|seg key]; [done|].
  simpl. by rewrite lookup_insert_eq.
Qed.

(** C4, as the code has it.  Let the file hold a text in which the
    non-empty search string occurs, and let the replacement be non-empty
    and share no character with the search string.  With
    [replaceAll = true] the search string does not occur in the resulting
    content.  With [replaceAll = false], and a replacement without "$", the
    resulting content has one occurrence less than the original, the
    occurrences being counted from the left without overlap. *)
Theorem replaceInFile_occurrences host ctx target find template w resolved raw :
  Tools.resolveWithinRoot host (Tools.root ctx) target (Tools.allowOutsideRoot ctx)
  = Ok resolved ->
  Fs.contentAt resolved w = Some raw ->
  JS.includes raw find = true ->
  find <> [] -> template <> [] -> (forall c, c ∈ template -> c ∉ find) ->
  (exists w' updated,
     Tools.replaceInFile host ctx target find template true w
     = (Ok (("Replaced text in " : str) ++ target), w')
     /\ Fs.contentAt resolved w' = Some updated
     /\ JS.includes updated find = false
     /\ Tools.occurrences updated find = 0)
  /\ ("$"%char ∉ template ->
      exists w' updated,
        Tools.replaceInFile host ctx target find template false w
        = (Ok (("Replaced text in " : str) ++ target), w')
        /\ Fs.contentAt resolved w' = Some updated
        /\ Tools.occurrences updated find = Tools.occurrences raw find - 1).
Proof.
  intros Hres Hraw Hin Hne Htne Hforeign. split.
  - destruct (replaceInFile_content host ctx target find template true w resolved raw
                Hres Hraw) as (w' & Hrun & Hcontent).
    exists w', (Tools.replacedText raw find template true).
    pose proof (replace_all_occurrences raw find template Hne Htne Hforeign) as Hfree.
    repeat split; try done. by apply occurrences_none.
  - intros Hplain.
    destruct (replaceInFile_content host ctx target find template false w resolved raw
                Hres Hraw) as (w' & Hrun & Hcontent).
    exists w', (Tools.replacedText raw find template false).
    repeat split; try done. by apply replace_first_occurrences.
Qed.

Lemma replaceInFile_occurrences_witness :
  exists w' updated,
    Tools.replaceInFile Scenario.host Scenario.confined "notes.txt" "l" "L" false
      Scenario.workspace
    = (Ok ("Replaced text in notes.txt" : str), w')
    /\ Fs.contentAt "/work/notes.txt" w' = Some updated
    /\ Tools.occurrences updated "l" = Tools.occurrences "hello" "l" - 1.
Proof.
  apply (replaceInFile_occurrences Scenario.host Scenario.confined "notes.txt" "l" "L"
           Scenario.workspace "/work/notes.txt" "hello");
    try reflexivity; try done.
  - intros c Hc. apply list_elem_of_singleton in Hc as ->.
    simpl. rewrite list_elem_of_singleton. done.
  - simpl. rewrite list_elem_of_singleton. done.
Defined.

(** The claim C4 as stated fails.  The second half carries no condition on
    the replacement: replacing the first "a" of "a" by "aa" leaves two
    occurrences, not none.  Nor do conditions on the two strings alone
    rescue it: the empty replacement differs from "ab" and shares nothing
    with it, yet taking "ab" out of "aabb" leaves "ab" under either flag;
    and the replacement "$&" differs from "a" and shares nothing with it,
    yet stands for the match, so that "a" remains. *)
Lemma replaceInFile_occurrences_counterexample :
  ~ (forall raw find template : str,
       JS.includes raw find = true ->
       (find <> template -> (forall c, c ∈ template -> c ∉ find) ->
        Tools.occurrences (Tools.replacedText raw find template true) find = 0)
       /\ Tools.occurrences (Tools.replacedText raw find template false) find
          = Tools.occurrences raw find - 1)
  /\ (Tools.occurrences "a" "a" = 1
      /\ Tools.replacedText "a" "a" "aa" false = ("aa" : str)
      /\ Tools.occurrences "aa" "a" = 2)
  /\ (Tools.occurrences "aabb" "ab" = 1
      /\ Tools.replacedText "aabb" "ab" "" true = ("ab" : str)
      /\ Tools.replacedText "aabb" "ab" "" false = ("ab" : str)
      /\ Tools.occurrences "ab" "ab" = 1)
  /\ Tools.replacedText "a" "a" "$&" false = ("a" : str).
Proof.
  split; [|by vm_compute].
  intros H. destruct (H "a" "a" "aa" eq_refl) as [_ H2]. vm_compute in H2. done.
Qed.

(** * More about resolution *)

Section ResolutionFacts.
Context (host : Host).
Hypothesis cwd_absolute : Path.isAbsolute (cwd host) = true.

Lemma normalizeSegs_plain stack segs :
  Forall Path.plainSeg stack ->
  Forall (fun seg => "/"%char ∉ seg) segs ->
  Forall Path.plainSeg (Path.normalizeSegs false stack segs).
Proof.
  revert stack; induction segs as [|seg segs IH]; intros stack Hst Hsegs; simpl.
  - by apply Forall_reverse.
  - inversion Hsegs as [|?? Hseg Hrest]; subst.
    case_decide as Hne; [by apply IH|].
    case_decide as Hdd.
    + destruct stack as [|top stack'].
      * by apply IH.
      * case_decide; [by apply IH|]. apply IH; [|done]. by inversion Hst.
    + apply IH; [|done]. constructor; [|done].
      repeat split; try done; tauto.
Qed.

(** Components that name entries pass through normalisation unchanged;
    empty ones are dropped. *)
Lemma normalizeSegs_plain_id allowAboveRoot stack segs :
  Forall (fun seg => seg = [] \/ Path.plainSeg seg) segs ->
  Path.normalizeSegs allowAboveRoot stack segs
  = reverse stack ++ filter (fun seg : str => seg <> []) segs.
Proof.
  intros Hall. revert stack.
  induction Hall as [|seg segs Hseg _ IH]; intros stack; simpl.
  - by rewrite app_nil_r.
  - destruct Hseg as [->|(Hclean & Hd & Hdd)].
    + rewrite decide_True by (by left). rewrite filter_cons_False by (by intros H).
      apply IH.
    + destruct Hclean as [Hne _].
      rewrite decide_False by (by intros [?|?]). rewrite decide_False by done.
      rewrite filter_cons_True by done. rewrite IH, reverse_cons, <- app_assoc. done.
Qed.

Lemma splitChar_snoc c x : Path.splitChar c (x ++ [c]) = Path.splitChar c x ++ [[]].
Proof.
  induction x as [|a x IH]; simpl.
  - by rewrite decide_True.
  - case_decide; [by rewrite IH|]. rewrite IH.
    pose proof (splitChar_nonempty c x). by destruct (Path.splitChar c x).
Qed.

(** Resolved paths are absolute and made of components that name entries. *)
Lemma resolve_plain args :
  exists segs, Forall Path.plainSeg segs /\
    Path.resolve (cwd host) args = Path.sep ++ JS.join Path.sep segs /\
    Path.components (Path.resolve (cwd host) args) = segs.
Proof.
  destruct (resolve_components host cwd_absolute args) as (segs & Hclean & Heq & Hc).
  exists segs. split; [|done].
  unfold Path.resolve in Heq.
  pose proof (prependUntilAbsolute_absolute (reverse args) (cwd host) [] [] cwd_absolute)
    as Habs.
  rewrite reverse_cons in Heq.
  destruct (Path.prependUntilAbsolute (reverse args ++ [cwd host]) []) as [rp ra].
  simpl in Habs; subst ra. simpl in Heq.
  injection Heq as Heq. unfold Path.normalizeString in Heq.
  assert (Forall Path.plainSeg (Path.normalizeSegs false [] (Path.splitChar "/" rp)))
    as Hplain by (apply normalizeSegs_plain; [constructor | apply splitChar_free]).
  assert (Path.normalizeSegs false [] (Path.splitChar "/" rp) = segs) as <-; [|done].
  pose proof (normalizeSegs_clean false [] (Path.splitChar "/" rp)
                (Forall_nil _) (splitChar_free _ _)) as Hclean'.
  rewrite <- (components_join_clean _ Hclean'), <- (components_join_clean _ Hclean).
  by rewrite Heq.
Qed.

(** A path built from components that name entries resolves to itself,
    whatever stands before it. *)
Lemma resolve_resolved before segs :
  Forall Path.plainSeg segs ->
  Path.resolve (cwd host) (before ++ [Path.sep ++ JS.join Path.sep segs])
  = Path.sep ++ JS.join Path.sep segs.
Proof.
  intros Hplain. unfold Path.resolve.
  rewrite reverse_cons, reverse_app. simpl.
  unfold Path.normalizeString.
  change ("/"%char :: JS.join Path.sep segs ++ ["/"%char])
    with ((Path.sep ++ JS.join Path.sep segs) ++ ["/"%char]).
  rewrite splitChar_snoc.
  assert (Forall Path.cleanSeg segs) as Hclean.
  { revert Hplain. apply Forall_impl. intros x Hx. apply Hx. }
  assert (Path.splitChar "/" (Path.sep ++ JS.join Path.sep segs) = [] :: segs
          \/ (segs = [] /\ Path.splitChar "/" (Path.sep ++ JS.join Path.sep segs) = [[]; []]))
    as [Hs|[-> Hs]].
  { destruct segs as [|seg segs]; [right; done|]. left.
    rewrite sep_join_render by done. simpl. by rewrite splitChar_render_tail. }
  - rewrite Hs, normalizeSegs_plain_id.
    + simpl. rewrite filter_cons_False by (by intros H).
      rewrite list.filter_app, filter_cons_False by (by intros H).
      rewrite app_nil_r. f_equal. f_equal.
      clear Hs Hplain.
      induction Hclean as [|s l [Hs' _] _ IH]; [done|].
      rewrite filter_cons_True by done. by f_equal.
    + constructor; [by left|]. apply Forall_app. split.
      * revert Hplain. apply Forall_impl. intros x Hx. by right.
      * constructor; [by left | done].
  - rewrite Hs. reflexivity.
Qed.

Lemma splitChar_app c x y :
  Path.splitChar c (x ++ c :: y) = Path.splitChar c x ++ Path.splitChar c y.
Proof.
  induction x as [|a x IH]; simpl.
  - by rewrite decide_True.
  - case_decide; [by rewrite IH|]. rewrite IH.
    pose proof (splitChar_nonempty c x). by destruct (Path.splitChar c x).
Qed.

Lemma normalizeSegs_app_tail allowAboveRoot stack xs ys ys' :
  (forall stack', Path.normalizeSegs allowAboveRoot stack' ys
                  = Path.normalizeSegs allowAboveRoot stack' ys') ->
  Path.normalizeSegs allowAboveRoot stack (xs ++ ys)
  = Path.normalizeSegs allowAboveRoot stack (xs ++ ys').
Proof.
  intros Htail. revert stack.
  induction xs as [|seg xs IH]; intros stack; simpl; [done|].
  repeat case_match; apply IH.
Qed.

(** What [path.resolve] has collected is prepended to what it started
    from. *)
Lemma prependUntilAbsolute_acc l acc :
  Path.prependUntilAbsolute l acc
  = ((Path.prependUntilAbsolute l []).1 ++ acc, (Path.prependUntilAbsolute l []).2).
Proof.
  revert acc. induction l as [|p l IH]; intros acc; simpl; [done|].
  destruct p as [|c p]; [apply IH|].
  destruct (Path.isAbsolute (c :: p)); simpl.
  - by rewrite <- app_assoc.
  - rewrite IH. rewrite (IH (c :: p ++ ["/"%char])). simpl.
    f_equal. rewrite <- app_assoc. f_equal. simpl. by rewrite <- app_assoc.
Qed.

Lemma prependUntilAbsolute_ends l :
  (Path.prependUntilAbsolute l []).1 = []
  \/ exists q, (Path.prependUntilAbsolute l []).1 = q ++ Path.sep.
Proof.
  induction l as [|p l IH]; simpl; [by left|].
  destruct p as [|c p]; [done|].
  destruct (Path.isAbsolute (c :: p)); simpl.
  - right. by exists (c :: p).
  - right. rewrite prependUntilAbsolute_acc. simpl.
    exists ((Path.prependUntilAbsolute l []).1 ++ c :: p).
    by rewrite <- app_assoc.
Qed.

(** The current directory as last argument changes nothing. *)
Lemma resolve_dot args :
  Path.resolve (cwd host) (args ++ [("." : str)]) = Path.resolve (cwd host) args.
Proof.
  unfold Path.resolve.
  change (cwd host :: args ++ [("." : str)]) with ((cwd host :: args) ++ [("." : str)]).
  rewrite reverse_app. simpl.
  rewrite prependUntilAbsolute_acc.
  destruct (Path.prependUntilAbsolute (reverse (cwd host :: args)) []) as [pre abs] eqn:Hpre.
  simpl.
  assert (Path.normalizeString (pre ++ ["."%char; "/"%char]) (negb abs)
          = Path.normalizeString pre (negb abs)) as ->; [|done].
  unfold Path.normalizeString. f_equal.
  pose proof (prependUntilAbsolute_ends (reverse (cwd host :: args))) as Hends.
  rewrite Hpre in Hends. simpl in Hends.
  destruct Hends as [->|[q ->]].
  - simpl. done.
  - rewrite <- app_assoc. simpl.
    change (q ++ Path.sep) with (q ++ ["/"%char]).
    rewrite splitChar_app, (splitChar_snoc "/" q).
    apply normalizeSegs_app_tail. intros stack'. reflexivity.
Qed.

Lemma expandHome_absolute p :
  Path.isAbsolute p = true -> Tools.expandHome host p = p.
Proof.
  destruct p as [|c p]; [done|]. simpl. intros Hc%bool_decide_eq_true. subst c.
  unfold Tools.expandHome. rewrite decide_False by done. done.
Qed.

(** The root itself is let through. *)
Lemma resolveWithinRoot_dot r flag :
  Tools.resolveWithinRoot host r "." flag = Ok (Path.resolve (cwd host) [r]).
Proof.
  unfold Tools.resolveWithinRoot.
  change (Tools.expandHome host ".") with ("." : str).
  change [r; ("." : str)] with ([r] ++ [("." : str)]). rewrite resolve_dot.
  rewrite bool_decide_true by done. by rewrite andb_false_r.
Qed.

Lemma resolveWithinRoot_Ok r t flag p :
  Tools.resolveWithinRoot host r t flag = Ok p ->
  p = Path.resolve (cwd host) [r; Tools.expandHome host t].
Proof.
  unfold Tools.resolveWithinRoot. case_match; [done|]. by intros [= <-].
Qed.

End ResolutionFacts.

(** X1.  With outside-root resolution disabled, whatever the root, a
    target that is let through resolves to the root or to a path below
    it. *)
Theorem resolveWithinRoot_confines host r t p :
  Path.isAbsolute (cwd host) = true ->
  Tools.resolveWithinRoot host r t (Some false) = Ok p ->
  p = Path.resolve (cwd host) [r; Tools.expandHome host t]
  /\ Path.inside (Path.resolve (cwd host) [r]) p.
Proof.
  intros Habs Hres. pose proof (resolveWithinRoot_Ok host r t _ p Hres) as Hp.
  split; [done|]. unfold Path.inside.
  destruct (resolve_components host Habs [r]) as (rs & Hrs & Er & Cr).
  destruct (resolve_components host Habs [r; Tools.expandHome host t])
    as (ss & Hss & Es & Cs).
  rewrite Cr, Hp, Cs.
  destruct rs as [|seg rs]; [apply prefix_nil|].
  apply (roottest_components (seg :: rs) ss); [done..|].
  unfold Tools.resolveWithinRoot in Hres. simpl default in Hres. cbv zeta in Hres.
  rewrite Er, Es in Hres. simpl negb in Hres at 1. rewrite andb_true_l, <- negb_orb in Hres.
  destruct (JS.startsWith _ _ || bool_decide _); [done|]. discriminate.
Qed.

Lemma resolveWithinRoot_confines_witness :
  ("/work/docs/a.txt" : str)
  = Path.resolve (cwd Scenario.host) [("/work" : str);
      Tools.expandHome Scenario.host "docs/./a.txt"]
  /\ Path.inside (Path.resolve (cwd Scenario.host) [("/work" : str)]) "/work/docs/a.txt".
Proof.
  apply (resolveWithinRoot_confines Scenario.host "/work" "docs/./a.txt"
           "/work/docs/a.txt"); reflexivity.
Defined.

(** X2.  A path that resolution lets through is in normal form: absolute,
    spelled "/" followed by its components joined with "/", and none of
    the components is empty, "." or "..". *)
Theorem resolveWithinRoot_normal_form host r t flag p :
  Path.isAbsolute (cwd host) = true ->
  Tools.resolveWithinRoot host r t flag = Ok p ->
  Path.isAbsolute p = true
  /\ p = Path.sep ++ JS.join Path.sep (Path.components p)
  /\ Forall Path.plainSeg (Path.components p).
Proof.
  intros Habs Hres. rewrite (resolveWithinRoot_Ok host r t _ p Hres).
  destruct (resolve_plain host Habs [r; Tools.expandHome host t])
    as (segs & Hplain & Heq & Hc).
  rewrite Hc. split; [by rewrite Heq|]. done.
Qed.

Lemma resolveWithinRoot_normal_form_witness :
  Path.isAbsolute ("/home/dev/b" : str) = true
  /\ ("/home/dev/b" : str) = Path.sep ++ JS.join Path.sep (Path.components "/home/dev/b")
  /\ Forall Path.plainSeg (Path.components ("/home/dev/b" : str)).
Proof.
  apply (resolveWithinRoot_normal_form Scenario.host "work/.." "~/a//../b" None
           "/home/dev/b"); reflexivity.
Defined.

(** X3.  Resolution is idempotent: a path it has returned is let through
    again, under the same root and flag, and comes back unchanged. *)
Theorem resolveWithinRoot_idempotent host r t flag p :
  Path.isAbsolute (cwd host) = true ->
  Tools.resolveWithinRoot host r t flag = Ok p ->
  Tools.resolveWithinRoot host r p flag = Ok p.
Proof.
  intros Habs Hres. pose proof (resolveWithinRoot_Ok host r t _ p Hres) as Hp.
  destruct (resolve_plain host Habs [r; Tools.expandHome host t])
    as (segs & Hplain & Heq & _).
  assert (Path.resolve (cwd host) [r; Tools.expandHome host p] = p) as Hagain.
  { rewrite expandHome_absolute by (by rewrite Hp, Heq).
    rewrite Hp, Heq. apply (resolve_resolved host [r] segs Hplain). }
  unfold Tools.resolveWithinRoot in *. rewrite Hagain. rewrite <- Hp in Hres.
  by case_match.
Qed.

Lemma resolveWithinRoot_idempotent_witness :
  Tools.resolveWithinRoot Scenario.host "/work" "/work/b" (Some false)
  = Ok ("/work/b" : str).
Proof.
  apply (resolveWithinRoot_idempotent Scenario.host "/work" "a/../b" (Some false)
           "/work/b"); reflexivity.
Defined.

(** X4.  The root itself is never refused, whatever the root and the flag:
    the targets "." and "" resolve to the resolved root.  (These are the
    targets [applyPatch] and [searchFiles] resolve.) *)
Theorem resolveWithinRoot_root_itself host r flag :
  Tools.resolveWithinRoot host r "." flag = Ok (Path.resolve (cwd host) [r])
  /\ Tools.resolveWithinRoot host r [] flag = Ok (Path.resolve (cwd host) [r]).
Proof.
  split; [apply resolveWithinRoot_dot|].
  unfold Tools.resolveWithinRoot.
  change (Tools.expandHome host []) with ([] : str).
  assert (Path.resolve (cwd host) [r; []] = Path.resolve (cwd host) [r]) as ->.
  { unfold Path.resolve. by rewrite !reverse_cons. }
  rewrite bool_decide_true by done. by rewrite andb_false_r.
Qed.

(** * The file adapters *)

Section AdapterFacts.
Context (host : Host).
Implicit Types (fs : gmap (list str) Node) (key done todo : list str) (w : World).

Local Abbreviation preserves m :=
  (forall w, Fs.wellFormed (files w) -> Fs.wellFormed (files (m w).2)).

(** [mkdir -p] touches only the chain it walks. *)
Lemma mkdirFrom_other fs done todo fs' :
  Fs.mkdirFrom fs done todo = Ok fs' ->
  forall key, (forall pre, pre <> [] -> pre `prefix_of` todo -> key <> done ++ pre) ->
  fs' !! key = fs !! key.
Proof.
  revert fs done. induction todo as [|seg rest IH]; intros fs done Hmk key Hkey;
    simpl in Hmk.
  - by injection Hmk as <-.
  - assert (key <> done ++ [seg]) as Hne.
    { apply Hkey; [done | apply prefix_cons, prefix_nil]. }
    assert (forall pre, pre <> [] -> pre `prefix_of` rest ->
              key <> (done ++ [seg]) ++ pre) as Hrest.
    { intros pre Hp Hpre. rewrite <- app_assoc. simpl.
      apply Hkey; [done | by apply prefix_cons]. }
    destruct (fs !! (done ++ [seg])) as [[c|]|] eqn:Hlook.
    + done.
    + by apply (IH _ _ Hmk).
    + rewrite (IH _ _ Hmk key Hrest). by rewrite lookup_insert_ne.
Qed.

Lemma wellFormed_insert_dir fs key seg :
  Fs.wellFormed fs -> Fs.lookupNode fs key = Some Dir ->
  Fs.wellFormed (<[key ++ [seg] := Dir]> fs).
Proof.
  intros [Hroot Hwf] Hdir. split.
  - rewrite lookup_insert_ne; [done | by destruct key].
  - intros k s node Hnode.
    assert (Fs.lookupNode fs k = Some Dir) as Hk.
    { destruct (decide (key ++ [seg] = k ++ [s])) as [Heq|Hneq].
      - apply app_inj_tail in Heq as [<- _]. done.
      - rewrite lookup_insert_ne in Hnode by done. by eapply Hwf. }
    destruct k as [|x k]; [done|]. simpl in *.
    destruct (decide (key ++ [seg] = x :: k)) as [<-|Hneq].
    + by rewrite lookup_insert_eq.
    + by rewrite lookup_insert_ne.
Qed.

Lemma mkdirFrom_wellFormed fs done todo fs' :
  Fs.wellFormed fs -> Fs.lookupNode fs done = Some Dir ->
  Fs.mkdirFrom fs done todo = Ok fs' -> Fs.wellFormed fs'.
Proof.
  revert fs done. induction todo as [|seg rest IH]; intros fs done Hwf Hdone Hmk;
    simpl in Hmk.
  - by injection Hmk as <-.
  - destruct (fs !! (done ++ [seg])) as [[c|]|] eqn:Hlook; [done| |].
    + apply (IH fs (done ++ [seg])); [done | by rewrite lookupNode_snoc | done].
    + apply (IH _ (done ++ [seg])) in Hmk; [done | by apply wellFormed_insert_dir |].
      by rewrite lookupNode_snoc, lookup_insert_eq.
Qed.

Lemma writableAt_key fs key old : Fs.writableAt fs key = Ok old -> key <> [].
Proof. by intros Hw ->. Qed.

Lemma wellFormed_insert_file fs key content old :
  Fs.wellFormed fs -> Fs.writableAt fs key = Ok old ->
  Fs.wellFormed (<[key := File content]> fs).
Proof.
  intros Hwf Hw. pose proof Hwf as [Hroot Hchain].
  pose proof (writableAt_key _ _ _ Hw) as Hkey.
  unfold Fs.writableAt in Hw. rewrite lookupNode_nonempty in Hw by done.
  assert (fs !! key <> Some Dir) as Hnodir. { intros E. by rewrite E in Hw. }
  split.
  - by rewrite lookup_insert_ne.
  - intros k s node Hnode.
    destruct (decide (key = k ++ [s])) as [->|Hneq].
    + assert (Fs.lookupNode fs k = Some Dir) as Hparent.
      { rewrite removelast_last in Hw.
        destruct (fs !! (k ++ [s])) as [[c|]|] eqn:E.
        - by eapply Hchain.
        - done.
        - destruct (Fs.lookupNode fs k) as [[?|]|]; try done.
          by destruct (Fs.fileAbove _ _). }
      assert (k ++ [s] <> k) as Hks.
      { intros E. apply (f_equal length) in E. rewrite length_app in E. simpl in E. lia. }
      destruct k as [|x k]; [done|]. simpl in *. by rewrite lookup_insert_ne.
    + rewrite lookup_insert_ne in Hnode by done. apply Hchain in Hnode.
      destruct k as [|x k]; [done|]. simpl in *.
      rewrite lookup_insert_ne; [done|]. intros E. by rewrite E, Hnode in Hnodir.
Qed.

Lemma wellFormed_filter fs key :
  Fs.wellFormed fs ->
  Fs.wellFormed (filter (fun kv : list str * Node => ~ key `prefix_of` kv.1) fs).
Proof.
  intros [Hroot Hchain]. split.
  - apply map_lookup_filter_None. by left.
  - intros k s node [Hnode Hnp]%map_lookup_filter_Some. simpl in Hnp.
    apply Hchain in Hnode. destruct k as [|x k]; [done|]. simpl in *.
    apply map_lookup_filter_Some. split; [done|]. simpl. intros Hp. apply Hnp.
    by apply (prefix_app_r key (x :: k) [s]).
Qed.

Lemma preserves_bind {A B} (m : IO World A) (k : A -> IO World B) :
  preserves m -> (forall a, preserves (k a)) -> preserves (io_bind m k).
Proof.
  intros Hm Hk w Hwf. unfold io_bind. specialize (Hm w Hwf).
  destruct (m w) as [[a|e] w1]; simpl in *; [by apply Hk | done].
Qed.

Lemma preserves_mkdirRecursive p : preserves (Fs.mkdirRecursive p).
Proof.
  intros w Hwf. unfold Fs.mkdirRecursive.
  destruct (Fs.mkdirFrom (files w) [] (Path.components p)) as [fs'|e] eqn:Hmk; [|done].
  simpl. by apply (mkdirFrom_wellFormed (files w) [] (Path.components p)).
Qed.

Lemma preserves_writeFile p content : preserves (Fs.writeFile p content).
Proof.
  intros w Hwf. unfold Fs.writeFile.
  destruct (Fs.writableAt (files w) (Path.components p)) as [old|e] eqn:Hw; [|done].
  simpl. by eapply wellFormed_insert_file.
Qed.

Lemma preserves_appendFile p content : preserves (Fs.appendFile p content).
Proof.
  intros w Hwf. unfold Fs.appendFile.
  destruct (Fs.writableAt (files w) (Path.components p)) as [old|e] eqn:Hw; [|done].
  simpl. by eapply wellFormed_insert_file.
Qed.

Lemma preserves_readFile p : preserves (Fs.readFile p).
Proof. intros w Hwf. unfold Fs.readFile. by repeat case_match. Qed.

Lemma preserves_rm p : preserves (Fs.rmRecursiveForce p).
Proof.
  intros w Hwf. unfold Fs.rmRecursiveForce. case_match; [done|].
  simpl. by apply wellFormed_filter.
Qed.

Local Ltac preserve :=
  lazymatch goal with
  | |- forall w : World, Fs.wellFormed (files w) -> _ =>
      first [ by auto
            | apply preserves_bind; [preserve | intros ?; preserve]
            | case_match; preserve
            | progress cbv zeta; preserve ]
  | |- forall _, _ => intros ?; preserve
  end.

Lemma preserves_adapters ctx :
  (forall target content, preserves (Tools.writeFile host ctx target content))
  /\ (forall target content, preserves (Tools.appendFile host ctx target content))
  /\ (forall target content overwrite,
        preserves (Tools.createFile host ctx target content overwrite))
  /\ (forall target, preserves (Tools.deleteFile host ctx target))
  /\ (forall target find replace replaceAll,
        preserves (Tools.replaceInFile host ctx target find replace replaceAll))
  /\ (forall target start end_, preserves (Tools.readFile host ctx target start end_)).
Proof.
  pose proof preserves_mkdirRecursive. pose proof preserves_writeFile.
  pose proof preserves_appendFile. pose proof preserves_readFile.
  pose proof preserves_rm.
  assert (forall A (r : Result A), preserves (io_lift (W := World) r)) by done.
  assert (forall A (a : A), preserves (io_ret (W := World) a)) by done.
  assert (forall A e, preserves (io_throw (W := World) (A := A) e)) by done.
  assert (preserves (io_get (W := World))) by done.
  unfold Tools.writeFile, Tools.appendFile, Tools.createFile, Tools.deleteFile,
    Tools.replaceInFile, Tools.readFile.
  split; [|split; [|split; [|split; [|split]]]]; preserve.
Qed.

End AdapterFacts.

(** X5.  The file adapters keep the file system well formed, in every
    outcome: below the root every node sits in a chain of directories
    before and after [writeFile], [appendFile], [createFile], [deleteFile],
    [replaceInFile] and [readFile], also where the adapter fails half-way. *)
Theorem file_adapters_keep_wellFormed host ctx w :
  Fs.wellFormed (files w) ->
  (forall target content,
     Fs.wellFormed (files (Tools.writeFile host ctx target content w).2))
  /\ (forall target content,
        Fs.wellFormed (files (Tools.appendFile host ctx target content w).2))
  /\ (forall target content overwrite,
        Fs.wellFormed (files (Tools.createFile host ctx target content overwrite w).2))
  /\ (forall target, Fs.wellFormed (files (Tools.deleteFile host ctx target w).2))
  /\ (forall target find replace replaceAll,
        Fs.wellFormed
          (files (Tools.replaceInFile host ctx target find replace replaceAll w).2))
  /\ (forall target start end_,
        Fs.wellFormed (files (Tools.readFile host ctx target start end_ w).2)).
Proof.
  intros Hwf.
  destruct (preserves_adapters host ctx) as (H1 & H2 & H3 & H4 & H5 & H6).
  split; [|split; [|split; [|split; [|split]]]]; intros; auto.
Qed.

Lemma file_adapters_keep_wellFormed_witness :
  Fs.wellFormed
    (files (Tools.deleteFile Scenario.host Scenario.confined "notes.txt"
              Scenario.workspace).2).
Proof.
  destruct (file_adapters_keep_wellFormed Scenario.host Scenario.confined
              Scenario.workspace workspace_wellFormed) as (_ & _ & _ & Hdelete & _).
  apply Hdelete.
Defined.

Section AdapterEffects.
Context (host : Host).
Hypothesis cwd_absolute : Path.isAbsolute (cwd host) = true.
Implicit Types (fs : gmap (list str) Node) (key : list str) (w : World).

(** Creating the directory of a resolved path leaves the node at the path
    itself alone. *)
Lemma mkdir_dirname_keeps r t flag resolved w fs' :
  Tools.resolveWithinRoot host r t flag = Ok resolved ->
  Fs.mkdirFrom (files w) [] (Path.components (Path.dirname resolved)) = Ok fs' ->
  fs' !! Path.components resolved = files w !! Path.components resolved.
Proof.
  intros Hres Hmk. rewrite (components_dirname host cwd_absolute _ _ _ _ Hres) in Hmk.
  apply (mkdirFrom_other _ _ _ _ Hmk). intros pre Hne [rest Hrest]. simpl.
  by eapply removelast_not_extension.
Qed.

Lemma appendFile_content ctx target content w w' msg resolved :
  Tools.resolveWithinRoot host (Tools.root ctx) target (Tools.allowOutsideRoot ctx)
  = Ok resolved ->
  Tools.appendFile host ctx target content w = (Ok msg, w') ->
  msg = ("Appended " : str) ++ target
  /\ Fs.contentAt resolved w'
     = Some (default [] (Fs.contentAt resolved w) ++ content).
Proof.
  intros Hres. unfold Tools.appendFile, io_bind, io_lift. rewrite Hres.
  unfold Fs.mkdirRecursive.
  destruct (Fs.mkdirFrom _ _ _) as [fs'|e] eqn:Hmk; [|done].
  pose proof (mkdir_dirname_keeps _ _ _ _ _ _ Hres Hmk) as Hkeep.
  unfold Fs.appendFile. simpl files.
  destruct (Fs.writableAt fs' (Path.components resolved)) as [old|e] eqn:Hw; [|done].
  unfold io_ret. intros [= <- <-]. split; [done|].
  pose proof (writableAt_key _ _ _ Hw) as Hkey.
  unfold Fs.contentAt. simpl files.
  rewrite !lookupNode_nonempty by done. rewrite lookup_insert_eq. do 2 f_equal.
  unfold Fs.writableAt in Hw. rewrite lookupNode_nonempty, Hkeep in Hw by done.
  destruct (files w !! Path.components resolved) as [[c|]|]; simpl.
  - by injection Hw as <-.
  - done.
  - destruct (Fs.lookupNode fs' _) as [[?|]|]; simplify_eq; try done.
    by destruct (Fs.fileAbove _ _).
Qed.

End AdapterEffects.

(** X6.  What [writeFile] has written, [readFile] returns: after a
    successful write, reading the same target in the world it left gives
    exactly the content written, and changes nothing. *)
Theorem writeFile_then_readFile host ctx target content w w' msg :
  Tools.writeFile host ctx target content w = (Ok msg, w') ->
  msg = ("Wrote " : str) ++ target
  /\ Tools.readFile host ctx target None None w' = (Ok content, w').
Proof.
  unfold Tools.writeFile, Tools.readFile, io_bind, io_lift.
  destruct (Tools.resolveWithinRoot _ _ _ _) as [resolved|e]; [|done].
  destruct (Fs.mkdirRecursive _ w) as [[[]|e] w1]; [|done].
  unfold Fs.writeFile.
  destruct (Fs.writableAt (files w1) (Path.components resolved)) as [old|e] eqn:Hw;
    [|done].
  unfold io_ret. intros [= <- <-]. split; [done|].
  pose proof (writableAt_key _ _ _ Hw) as Hkey.
  unfold Fs.readFile. simpl files.
  by rewrite lookupNode_nonempty, lookup_insert_eq.
Qed.

Lemma writeFile_then_readFile_witness :
  exists w',
    Tools.writeFile Scenario.host Scenario.confined "docs/a.txt" "text"
      Scenario.workspace = (Ok ("Wrote docs/a.txt" : str), w')
    /\ Tools.readFile Scenario.host Scenario.confined "docs/a.txt" None None w'
       = (Ok ("text" : str), w').
Proof.
  eexists. split; [reflexivity|].
  apply (writeFile_then_readFile Scenario.host Scenario.confined "docs/a.txt" "text"
           Scenario.workspace _ "Wrote docs/a.txt"). reflexivity.
Defined.

(** X7.  [appendFile] appends: after a successful call the file holds its
    former content followed by the given text, and just the given text
    where there was no file. *)
Theorem appendFile_appends host ctx target content w w' msg resolved :
  Path.isAbsolute (cwd host) = true ->
  Tools.resolveWithinRoot host (Tools.root ctx) target (Tools.allowOutsideRoot ctx)
  = Ok resolved ->
  Tools.appendFile host ctx target content w = (Ok msg, w') ->
  msg = ("Appended " : str) ++ target
  /\ Fs.contentAt resolved w'
     = Some (default [] (Fs.contentAt resolved w) ++ content).
Proof. intros Habs. by apply appendFile_content. Qed.

Lemma appendFile_appends_witness :
  Fs.contentAt "/work/notes.txt"
    (Tools.appendFile Scenario.host Scenario.confined "notes.txt" ", world"
       Scenario.workspace).2
  = Some ("hello, world" : str).
Proof.
  apply (appendFile_appends Scenario.host Scenario.confined "notes.txt" ", world"
           Scenario.workspace _ "Appended notes.txt" "/work/notes.txt");
    reflexivity.
Defined.

Lemma existsb_agree {A} (f g : A -> bool) (l : list A) :
  (forall x, x ∈ l -> f x = g x) -> existsb f l = existsb g l.
Proof.
  induction l as [|x l IH]; intros Hfg; [done|]. simpl.
  rewrite (Hfg x) by left. rewrite IH; [done|]. intros y Hy. apply Hfg. by right.
Qed.

(** Whether a regular file is in the way depends on the nodes above the
    path only. *)
Lemma fileAbove_agree (fs fs' : gmap (list str) Node) (key : list str) :
  (forall n, 1 <= n < length key -> fs' !! take n key = fs !! take n key) ->
  Fs.fileAbove fs' key = Fs.fileAbove fs key.
Proof.
  intros Hsame. unfold Fs.fileAbove. apply existsb_agree.
  intros n Hn. apply elem_of_seq in Hn. rewrite Hsame by lia. done.
Qed.

(** X8.  [deleteFile] removes the target with everything below it and
    nothing else.  Unless a regular file stands where the path needs a
    directory, it succeeds whether or not the target exists, starts no
    process, and a second call changes nothing more; with a regular file in
    the way it fails with ENOTDIR and changes nothing. *)
Theorem deleteFile_removes_subtree host ctx target w resolved :
  Tools.resolveWithinRoot host (Tools.root ctx) target (Tools.allowOutsideRoot ctx)
  = Ok resolved ->
  if Fs.fileAbove (files w) (Path.components resolved)
  then Tools.deleteFile host ctx target w
       = (Err ("ENOTDIR: not a directory, lstat" : str), w)
  else
    exists w',
      Tools.deleteFile host ctx target w = (Ok (("Deleted " : str) ++ target), w')
      /\ (forall key, Path.components resolved `prefix_of` key -> files w' !! key = None)
      /\ (forall key, ~ Path.components resolved `prefix_of` key ->
            files w' !! key = files w !! key)
      /\ spawned w' = spawned w
      /\ Tools.deleteFile host ctx target w' = (Ok (("Deleted " : str) ++ target), w').
Proof.
  intros Hres. unfold Tools.deleteFile, io_bind, io_lift. rewrite Hres.
  unfold Fs.rmRecursiveForce, io_ret.
  destruct (Fs.fileAbove (files w) (Path.components resolved)) eqn:Hway; [done|].
  eexists. split; [reflexivity|].
  set (keep := fun kv : list str * Node =>
                 ~ Path.components resolved `prefix_of` kv.1).
  assert (forall key, ~ Path.components resolved `prefix_of` key ->
            filter keep (files w) !! key = files w !! key) as Hother.
  { intros key Hnp. destruct (files w !! key) as [node|] eqn:Hk.
    - by apply map_lookup_filter_Some.
    - apply map_lookup_filter_None. by left. }
  simpl files. split; [|split; [|split; [done|]]].
  - intros key Hp. apply map_lookup_filter_None. right. intros node _ Hn. by apply Hn.
  - exact Hother.
  - assert (Fs.fileAbove (filter keep (files w)) (Path.components resolved) = false)
      as ->.
    { rewrite <- Hway. apply fileAbove_agree. intros n Hn. apply Hother.
      intros Hp%prefix_length. rewrite length_take in Hp. lia. }
    assert (filter keep (filter keep (files w)) = filter keep (files w)) as Hagain.
    { apply map_eq. intros key.
      destruct (filter keep (files w) !! key) as [node|] eqn:Hk.
      - apply map_lookup_filter_Some. split; [done|].
        by apply map_lookup_filter_Some in Hk as [_ Hkeep].
      - apply map_lookup_filter_None. by left. }
    rewrite Hagain. reflexivity.
Qed.

Lemma deleteFile_removes_subtree_witness :
  exists w',
    Tools.deleteFile Scenario.host Scenario.confined "notes.txt" Scenario.workspace
    = (Ok ("Deleted notes.txt" : str), w')
    /\ (forall key, Path.components ("/work/notes.txt" : str) `prefix_of` key ->
          files w' !! key = None)
    /\ (forall key, ~ Path.components ("/work/notes.txt" : str) `prefix_of` key ->
          files w' !! key = files Scenario.workspace !! key)
    /\ spawned w' = spawned Scenario.workspace
    /\ Tools.deleteFile Scenario.host Scenario.confined "notes.txt" w'
       = (Ok ("Deleted notes.txt" : str), w').
Proof.
  exact (deleteFile_removes_subtree Scenario.host Scenario.confined "notes.txt"
           Scenario.workspace "/work/notes.txt" eq_refl).
Defined.

(** X9.  The root itself passes the test of [resolveWithinRoot], so
    [deleteFile] on "." removes the whole tree at and below the root, also
    with outside-root resolution disabled; it fails, with ENOTDIR and
    without a change, only where the root lies below a regular file. *)
Theorem deleteFile_dot_removes_root host ctx w :
  let rootKey := Path.components (Path.resolve (cwd host) [Tools.root ctx]) in
  if Fs.fileAbove (files w) rootKey
  then Tools.deleteFile host ctx "." w
       = (Err ("ENOTDIR: not a directory, lstat" : str), w)
  else
    exists w',
      Tools.deleteFile host ctx "." w = (Ok ("Deleted ." : str), w')
      /\ forall key, rootKey `prefix_of` key -> files w' !! key = None.
Proof.
  intros rootKey. unfold Tools.deleteFile, io_bind, io_lift.
  rewrite (resolveWithinRoot_dot host).
  unfold Fs.rmRecursiveForce, io_ret. fold rootKey.
  destruct (Fs.fileAbove (files w) rootKey); [done|].
  eexists. split; [reflexivity|].
  intros key Hp. simpl files.
  apply map_lookup_filter_None. right. intros node _ Hn. by apply Hn.
Qed.

(** X10.  A refused target stops every path adapter before it touches
    anything: the adapter fails with the escape error naming the target and
    the world is as it was.  [moveFile] and [renameFile] check the source
    first and the destination second, and do not reach [fs.rename] in
    either case. *)
Theorem refused_target_changes_nothing host rename ctx target msg w :
  Tools.resolveWithinRoot host (Tools.root ctx) target (Tools.allowOutsideRoot ctx)
  = Err msg ->
  msg = ("Path escapes root: " : str) ++ target
  /\ (forall start end_, Tools.readFile host ctx target start end_ w = (Err msg, w))
  /\ (forall content, Tools.writeFile host ctx target content w = (Err msg, w))
  /\ (forall content, Tools.appendFile host ctx target content w = (Err msg, w))
  /\ (forall content overwrite,
        Tools.createFile host ctx target content overwrite w = (Err msg, w))
  /\ Tools.deleteFile host ctx target w = (Err msg, w)
  /\ (forall find replace replaceAll,
        Tools.replaceInFile host ctx target find replace replaceAll w = (Err msg, w))
  /\ (forall to, Tools.moveFile host rename ctx target to w = (Err msg, w))
  /\ (forall to, Tools.renameFile host rename ctx target to w = (Err msg, w))
  /\ (forall from,
        isErr (Tools.resolveWithinRoot host (Tools.root ctx) from
                 (Tools.allowOutsideRoot ctx)) = false ->
        Tools.moveFile host rename ctx from target w = (Err msg, w)
        /\ Tools.renameFile host rename ctx from target w = (Err msg, w)).
Proof.
  intros Hres. split; [by destruct (resolveWithinRoot_err_escape host _ _ _ _ Hres)|].
  unfold Tools.readFile, Tools.writeFile, Tools.appendFile, Tools.createFile,
    Tools.deleteFile, Tools.replaceInFile, Tools.moveFile, Tools.renameFile,
    io_bind, io_lift.
  rewrite Hres. repeat split; try done.
  all: by destruct (Tools.resolveWithinRoot _ _ from _).
Qed.

Lemma refused_target_changes_nothing_witness :
  Tools.deleteFile Scenario.host Scenario.confined "../work2" Scenario.workspace
  = (Err ("Path escapes root: ../work2" : str), Scenario.workspace).
Proof.
  apply (refused_target_changes_nothing Scenario.host (fun _ _ => io_ret tt)
           Scenario.confined "../work2" "Path escapes root: ../work2"
           Scenario.workspace). reflexivity.
Defined.

(** X11.  [moveFile] is [renameFile] preceded by the creation of the
    destination's directory: where that directory exists already, the two
    leave the same world and fail or succeed together, whatever [fs.rename]
    does. *)
Theorem moveFile_agrees_with_renameFile host rename ctx from to w dest :
  Path.isAbsolute (cwd host) = true ->
  Fs.wellFormed (files w) ->
  Tools.resolveWithinRoot host (Tools.root ctx) to (Tools.allowOutsideRoot ctx)
  = Ok dest ->
  Fs.lookupNode (files w) (removelast (Path.components dest)) = Some Dir ->
  (Tools.moveFile host rename ctx from to w).2
  = (Tools.renameFile host rename ctx from to w).2
  /\ match (Tools.moveFile host rename ctx from to w).1,
           (Tools.renameFile host rename ctx from to w).1 with
     | Ok moved, Ok renamed =>
         moved = ("Moved " : str) ++ from ++ " -> " ++ to
         /\ renamed = ("Renamed " : str) ++ from ++ " -> " ++ to
     | Err e, Err e' => e = e'
     | _, _ => False
     end.
Proof.
  intros Habs Hwf Hres Hdir.
  unfold Tools.moveFile, Tools.renameFile, io_bind, io_lift. rewrite Hres.
  destruct (Tools.resolveWithinRoot host (Tools.root ctx) from _) as [source|e];
    [|done].
  unfold Fs.mkdirRecursive.
  rewrite (components_dirname host Habs _ _ _ _ Hres).
  rewrite mkdirFrom_present, setFiles_same.
  - destruct (rename source dest w) as [[[]|e] w1]; done.
  - intros pre Hne [rest Hrest]. simpl.
    rewrite <- (lookupNode_nonempty _ pre) by done.
    destruct rest as [|s rest].
    + rewrite app_nil_r in Hrest. by rewrite <- Hrest.
    + apply (wellFormed_ancestors _ pre (s :: rest) Dir Hwf); [|done].
      by rewrite <- Hrest.
Qed.

Lemma moveFile_agrees_with_renameFile_witness :
  (Tools.moveFile Scenario.host (fun _ _ => io_throw "EXDEV") Scenario.confined
     "notes.txt" "moved.txt" Scenario.workspace).2
  = (Tools.renameFile Scenario.host (fun _ _ => io_throw "EXDEV") Scenario.confined
       "notes.txt" "moved.txt" Scenario.workspace).2.
Proof.
  assert (Tools.resolveWithinRoot Scenario.host (Tools.root Scenario.confined)
            "moved.txt" (Tools.allowOutsideRoot Scenario.confined)
          = Ok ("/work/moved.txt" : str)) as Hdest by (vm_compute; reflexivity).
  assert (Fs.lookupNode (files Scenario.workspace)
            (removelast (Path.components ("/work/moved.txt" : str))) = Some Dir)
    as Hdir by (vm_compute; reflexivity).
  destruct (moveFile_agrees_with_renameFile Scenario.host
              (fun _ _ => io_throw "EXDEV") Scenario.confined "notes.txt" "moved.txt"
              Scenario.workspace "/work/moved.txt" eq_refl workspace_wellFormed
              Hdest Hdir) as [Hsame _].
  exact Hsame.
Defined.

(** * Reading a range of lines *)

Section ReadFacts.
Context (host : Host).

Lemma relativeIndex_nonneg len i :
  (0 <= i)%Z -> JS.relativeIndex len i = Z.to_nat i `min` len.
Proof.
  intros Hi. unfold JS.relativeIndex.
  destruct (Z.ltb_spec i 0); lia.
Qed.

Lemma relativeIndex_negative len i :
  (i < 0)%Z -> JS.relativeIndex len i = len - Z.to_nat (- i).
Proof.
  intros Hi. unfold JS.relativeIndex.
  destruct (Z.ltb_spec i 0); lia.
Qed.

Lemma splitLines_nonempty s : JS.splitLines s <> [].
Proof.
  induction s as [|c s IH]; simpl; [done|].
  repeat case_match; done.
Qed.

Lemma join_cons sep x y rest :
  JS.join sep (x :: y :: rest) = x ++ sep ++ JS.join sep (y :: rest).
Proof. done. Qed.

(** Without carriage returns, joining the lines gives the text back. *)
Lemma join_splitLines raw :
  JS.carriageReturn ∉ raw -> JS.join [JS.lineFeed] (JS.splitLines raw) = raw.
Proof.
  induction raw as [|c raw IH]; intros Hcr; [done|].
  rewrite not_elem_of_cons in Hcr. destruct Hcr as [Hc Hcr].
  specialize (IH Hcr). simpl.
  pose proof (splitLines_nonempty raw) as Hne.
  case_decide as Hlf.
  - subst c. destruct (JS.splitLines raw) as [|l ls]; [done|].
    by rewrite join_cons, IH.
  - rewrite bool_decide_false by done. simpl.
    destruct (JS.splitLines raw) as [|l ls]; [done|].
    destruct ls as [|l' ls]; simpl in *; by rewrite <- IH.
Qed.

(** What [readFile] returns once a bound is given. *)
Lemma readFile_ranged ctx target start end_ w resolved raw :
  Tools.resolveWithinRoot host (Tools.root ctx) target (Tools.allowOutsideRoot ctx)
  = Ok resolved ->
  Fs.contentAt resolved w = Some raw ->
  ~ (start = None /\ end_ = None) ->
  let lines := JS.splitLines raw in
  let len := Z.of_nat (length lines) in
  Tools.readFile host ctx target start end_ w
  = (Ok (JS.join [JS.lineFeed]
           (JS.slice lines (Z.max 1 (default 1%Z start) - 1)
                     (Z.min len (default len end_)))), w).
Proof.
  intros Hres Hcontent Hsome. unfold Tools.readFile, io_bind, io_lift.
  rewrite Hres. unfold Fs.readFile. unfold Fs.contentAt in Hcontent.
  destruct (Fs.lookupNode (files w) (Path.components resolved)) as [[c|]|]; try done.
  injection Hcontent as ->.
  destruct start, end_; try done. exfalso. by apply Hsome.
Qed.

End ReadFacts.

(** X12.  [readFile] with both bounds inside the text returns exactly the
    lines from [start] to [end], counted from 1 and both included, joined
    by line feeds; nothing is changed. *)
Theorem readFile_line_range host ctx target (s e : Z) w resolved raw :
  Tools.resolveWithinRoot host (Tools.root ctx) target (Tools.allowOutsideRoot ctx)
  = Ok resolved ->
  Fs.contentAt resolved w = Some raw ->
  (1 <= s)%Z -> (s <= e)%Z -> (e <= Z.of_nat (length (JS.splitLines raw)))%Z ->
  Tools.readFile host ctx target (Some s) (Some e) w
  = (Ok (JS.join [JS.lineFeed]
           (take (Z.to_nat (e - s + 1))
                 (drop (Z.to_nat (s - 1)) (JS.splitLines raw)))), w).
Proof.
  intros Hres Hcontent Hs Hse He.
  rewrite (readFile_ranged host ctx target (Some s) (Some e) w resolved raw Hres Hcontent)
    by (by intros [? _]).
  cbv zeta. simpl default. unfold JS.slice.
  rewrite !relativeIndex_nonneg by lia.
  replace (Z.to_nat (Z.max 1 s - 1) `min` length (JS.splitLines raw))
    with (Z.to_nat (s - 1)) by lia.
  replace (Z.to_nat (Z.min (Z.of_nat (length (JS.splitLines raw))) e)
           `min` length (JS.splitLines raw) - Z.to_nat (s - 1))
    with (Z.to_nat (e - s + 1)) by lia.
  done.
Qed.

Lemma readFile_line_range_witness :
  Tools.readFile Scenario.host Scenario.confined "notes.txt" (Some 1%Z) (Some 1%Z)
    Scenario.workspace
  = (Ok (JS.join [JS.lineFeed]
           (take (Z.to_nat (1 - 1 + 1))
                 (drop (Z.to_nat (1 - 1)) (JS.splitLines "hello")))),
     Scenario.workspace).
Proof.
  apply (readFile_line_range Scenario.host Scenario.confined "notes.txt" 1 1
           Scenario.workspace "/work/notes.txt" "hello"); [reflexivity..| | |];
    vm_compute; discriminate.
Defined.

(** X13.  Bounds beyond the text are cut back to it: a start of 1 or less
    (or none) and an end at or after the last line (or none), not both
    missing, give all lines joined by line feeds, which is the text itself
    when it holds no carriage return. *)
Theorem readFile_bounds_are_clamped host ctx target start end_ w resolved raw :
  Tools.resolveWithinRoot host (Tools.root ctx) target (Tools.allowOutsideRoot ctx)
  = Ok resolved ->
  Fs.contentAt resolved w = Some raw ->
  ~ (start = None /\ end_ = None) ->
  (default 1 start <= 1)%Z ->
  (Z.of_nat (length (JS.splitLines raw))
   <= default (Z.of_nat (length (JS.splitLines raw))) end_)%Z ->
  Tools.readFile host ctx target start end_ w
  = (Ok (JS.join [JS.lineFeed] (JS.splitLines raw)), w)
  /\ (JS.carriageReturn ∉ raw ->
      Tools.readFile host ctx target start end_ w = (Ok raw, w)).
Proof.
  intros Hres Hcontent Hsome Hs He.
  rewrite (readFile_ranged host ctx target start end_ w resolved raw Hres Hcontent Hsome).
  cbv zeta. unfold JS.slice.
  rewrite !relativeIndex_nonneg by lia.
  replace (Z.to_nat (Z.max 1 (default 1%Z start) - 1)) with 0 by lia.
  rewrite Nat.min_0_l, Nat.sub_0_r, drop_0.
  rewrite take_ge by lia.
  split; [done|]. intros Hcr. by rewrite join_splitLines.
Qed.

Lemma readFile_bounds_are_clamped_witness :
  Tools.readFile Scenario.host Scenario.confined "notes.txt" (Some (-3)%Z) (Some 99%Z)
    Scenario.workspace
  = (Ok ("hello" : str), Scenario.workspace).
Proof.
  apply (readFile_bounds_are_clamped Scenario.host Scenario.confined "notes.txt"
           (Some (-3)%Z) (Some 99%Z) Scenario.workspace "/work/notes.txt" "hello");
    try reflexivity; try (vm_compute; discriminate).
  - intros [? _]. discriminate.
  - vm_compute. intros H. repeat (apply elem_of_cons in H as [H|H]; [discriminate|]).
    by apply elem_of_nil in H.
Defined.

(** X14.  A negative end is not cut back to the first line: it counts
    from the last line, so that many lines are left out at the end; and
    an end before the start (but not negative) gives the empty text. *)
Theorem readFile_end_before_start host ctx target start (e : Z) w resolved raw :
  Tools.resolveWithinRoot host (Tools.root ctx) target (Tools.allowOutsideRoot ctx)
  = Ok resolved ->
  Fs.contentAt resolved w = Some raw ->
  let lines := JS.splitLines raw in
  ((e < 0)%Z -> (default 1 start <= 1)%Z ->
   Tools.readFile host ctx target start (Some e) w
   = (Ok (JS.join [JS.lineFeed] (take (length lines - Z.to_nat (- e)) lines)), w))
  /\ ((0 <= e)%Z -> (e < default 1 start)%Z ->
      Tools.readFile host ctx target start (Some e) w = (Ok [], w)).
Proof.
  intros Hres Hcontent lines.
  rewrite (readFile_ranged host ctx target start (Some e) w resolved raw Hres Hcontent)
    by (by intros [_ ?]).
  cbv zeta. simpl default. fold lines. unfold JS.slice. split.
  - intros He Hs. rewrite (relativeIndex_nonneg _ (_ - 1)) by lia.
    replace (Z.to_nat (Z.max 1 (default 1%Z start) - 1)) with 0 by lia.
    rewrite Nat.min_0_l, Nat.sub_0_r, drop_0.
    rewrite Z.min_r by lia. by rewrite relativeIndex_negative.
  - intros He Hs. rewrite !relativeIndex_nonneg by lia.
    replace (_ - _) with 0 by lia. done.
Qed.

Lemma readFile_end_before_start_witness :
  Tools.readFile Scenario.host Scenario.confined "notes.txt" None (Some (-1)%Z)
    Scenario.workspace
  = (Ok ([] : str), Scenario.workspace).
Proof.
  pose proof (readFile_end_before_start Scenario.host Scenario.confined "notes.txt"
                None (-1) Scenario.workspace "/work/notes.txt" "hello"
                eq_refl eq_refl) as H.
  cbv zeta in H. destruct H as [Hnegative _].
  apply Hnegative; [reflexivity | simpl; lia].
Defined.

(** * More about replacing *)

(** Joining the pieces of a split with the separator gives the text
    back. *)
Lemma join_split s find : find <> [] -> JS.join find (JS.split s find) = s.
Proof.
  intros Hne. remember (length s) as n eqn:Hn. revert s Hn.
  induction n as [n IH] using lt_wf_ind. intros s ->.
  rewrite split_unfold by done.
  destruct (JS.indexOf s find) as [i|] eqn:E; [|done].
  pose proof (indexOf_bound _ _ _ E) as Hbound.
  pose proof (split_length (drop (i + length find) s) find Hne) as Hlen.
  assert (JS.join find (JS.split (drop (i + length find) s) find)
          = drop (i + length find) s) as Hrest.
  { eapply IH; [|reflexivity]. rewrite length_drop.
    destruct find; [done|]. simpl in *. lia. }
  destruct (JS.split (drop (i + length find) s) find) as [|piece pieces]; [done|].
  rewrite join_cons, Hrest.
  apply indexOf_Some in E as [Hi _].
  apply startsWith_prefix in Hi as [v Hv].
  assert (drop (i + length find) s = v) as ->.
  { rewrite <- drop_drop, Hv. by rewrite drop_app_length. }
  rewrite <- Hv. apply take_drop.
Qed.

(** X15.  Where the search string does not occur in the file, and where
    every occurrence is replaced by the search string itself,
    [replaceInFile] reports success and leaves the world exactly as it
    was. *)
Theorem replaceInFile_leaves_text host ctx target find replace replaceAll w resolved raw :
  Tools.resolveWithinRoot host (Tools.root ctx) target (Tools.allowOutsideRoot ctx)
  = Ok resolved ->
  Fs.contentAt resolved w = Some raw ->
  find <> [] ->
  JS.includes raw find = false \/ (replaceAll = true /\ replace = find) ->
  Tools.replaceInFile host ctx target find replace replaceAll w
  = (Ok (("Replaced text in " : str) ++ target), w).
Proof.
  intros Hres Hraw Hne Hcase.
  assert (Tools.replacedText raw find replace replaceAll = raw) as Hsame.
  { unfold Tools.replacedText. destruct Hcase as [Hno|[-> ->]].
    - unfold JS.includes in Hno. destruct replaceAll.
      + rewrite split_unfold by done. by destruct (JS.indexOf raw find).
      + unfold JS.replace. by destruct (JS.indexOf raw find).
    - by apply join_split. }
  unfold Tools.replaceInFile, io_bind, io_lift. rewrite Hres.
  unfold Fs.contentAt in Hraw. unfold Fs.readFile, Fs.writeFile, Fs.writableAt.
  destruct (Fs.lookupNode (files w) (Path.components resolved)) as [[c|]|] eqn:E;
    [|done..]. injection Hraw as ->. cbv beta iota. rewrite E, Hsame.
  unfold io_ret. f_equal.
  destruct (Path.components resolved) as [|seg key]; [done|]. simpl in E.
  rewrite insert_id by done. apply setFiles_same.
Qed.

Lemma replaceInFile_leaves_text_witness :
  Tools.replaceInFile Scenario.host Scenario.confined "notes.txt" "l" "l" true
    Scenario.workspace
  = (Ok ("Replaced text in notes.txt" : str), Scenario.workspace).
Proof.
  apply (replaceInFile_leaves_text Scenario.host Scenario.confined "notes.txt"
           "l" "l" true Scenario.workspace "/work/notes.txt" "hello");
    [reflexivity | reflexivity | discriminate | right; split; reflexivity].
Defined.

(** X16.  [replaceInFile] and [readFile] need the file.  Where the target
    is not a regular file both fail with the error of the read and the
    world is unchanged, so [replaceInFile] creates nothing: EISDIR for a
    directory, ENOTDIR where a regular file stands above the target, and
    ENOENT otherwise. *)
Theorem replaceInFile_requires_file host ctx target find replace replaceAll start end_
    w resolved :
  Tools.resolveWithinRoot host (Tools.root ctx) target (Tools.allowOutsideRoot ctx)
  = Ok resolved ->
  Fs.contentAt resolved w = None ->
  let e : str :=
    match Fs.lookupNode (files w) (Path.components resolved) with
    | Some _ => "EISDIR: illegal operation on a directory, read"
    | None =>
        if Fs.fileAbove (files w) (Path.components resolved)
        then "ENOTDIR: not a directory, open"
        else "ENOENT: no such file or directory, open"
    end in
  Tools.replaceInFile host ctx target find replace replaceAll w = (Err e, w)
  /\ Tools.readFile host ctx target start end_ w = (Err e, w).
Proof.
  intros Hres Hnone e. subst e.
  unfold Tools.replaceInFile, Tools.readFile, io_bind, io_lift.
  rewrite Hres. unfold Fs.contentAt in Hnone. unfold Fs.readFile.
  destruct (Fs.lookupNode (files w) (Path.components resolved)) as [[c|]|]; [done| |].
  - done.
  - by destruct (Fs.fileAbove (files w) (Path.components resolved)).
Qed.

Lemma replaceInFile_requires_file_witness :
  Tools.replaceInFile Scenario.host Scenario.confined "notes.txt/x" "a" "b" true
    Scenario.workspace
  = (Err ("ENOTDIR: not a directory, open" : str), Scenario.workspace)
  /\ Tools.readFile Scenario.host Scenario.confined "notes.txt/x" None None
       Scenario.workspace
     = (Err ("ENOTDIR: not a directory, open" : str), Scenario.workspace).
Proof.
  exact (replaceInFile_requires_file Scenario.host Scenario.confined "notes.txt/x"
           "a" "b" true None None Scenario.workspace "/work/notes.txt/x"
           eq_refl eq_refl).
Defined.

(** * Processes *)

(** X17.  [runShell] succeeds exactly when the process closes with exit
    code 0.  Neither kind of result is empty when it comes from a closed
    process: silent success is reported as "Command completed", and a
    failure without error output names the exit code.  A process that
    cannot be started fails with the error of the spawn.  The files are as
    the process left them. *)
Theorem runShell_outcome host ctx command args w :
  let request := Tools.shellRequest ctx command args in
  let run := Tools.runShell host ctx command args w in
  files run.2 = (run_process host request (files w)).2
  /\ match (run_process host request (files w)).1 with
     | SpawnFailed error => run.1 = Err error
     | Closed code stdout stderr =>
         if decide (code = Some 0%Z)
         then exists text,
                run.1 = Ok text /\ text <> []
                /\ (text = JS.trim stdout
                    \/ JS.trim stdout = [] /\ text = ("Command completed" : str))
         else exists text,
                run.1 = Err text /\ text <> []
                /\ (text = JS.trim stderr
                    \/ JS.trim stderr = []
                       /\ text = ("Command failed with code " : str)
                                 ++ Tools.showCode host code)
     end.
Proof.
  intros request run. subst run. unfold Tools.runShell, io_bind, Tools.spawn.
  fold request.
  destruct (run_process host request (files w)) as [outcome fs].
  destruct outcome as [e|code out err]; [done|]. simpl.
  case_decide; simpl; (split; [done|]); unfold Tools.orElse.
  - destruct (JS.trim out) as [|c t] eqn:E; eexists; (split; [reflexivity|]);
      split; auto; done.
  - destruct (JS.trim err) as [|c t] eqn:E; eexists; (split; [reflexivity|]);
      split; auto; done.
Qed.

(** X18.  [runGit] never goes through the shell: whatever the arguments,
    also none, "git" is started directly with them in the root. *)
Theorem runGit_never_uses_shell host ctx args w :
  spawned (Tools.runGit host ctx args w).2
  = spawned w ++ [ {| spawn_file := "git"; spawn_args := args;
                      spawn_cwd := Tools.root ctx; spawn_shell := false |} ].
Proof.
  unfold Tools.runGit, Tools.runShell, io_bind, Tools.spawn.
  assert (Tools.shellRequest ctx "git" args
          = {| spawn_file := "git"; spawn_args := args;
               spawn_cwd := Tools.root ctx; spawn_shell := false |}) as ->.
  { unfold Tools.shellRequest.
    change (JS.includes ("git" : str) (" " : str)) with false.
    by rewrite andb_false_r. }
  destruct (run_process host _ (files w)) as [outcome fs].
  destruct outcome as [e|code out err]; [done|].
  by case_decide.
Qed.

Section PatchFacts.
Context (host : Host).

Lemma rmForce_no_file temp w :
  Fs.contentAt temp (Fs.rmForce temp w).2 = None.
Proof.
  unfold Fs.rmForce, Fs.contentAt.
  destruct (Fs.lookupNode (files w) (Path.components temp)) as [[c|]|] eqn:E;
    simpl.
  - destruct (Path.components temp) as [|seg key]; [done|]. simpl.
    by rewrite lookup_delete_eq.
  - by rewrite E.
  - destruct (Fs.fileAbove _ _); simpl; by rewrite E.
Qed.

Lemma rmForce_spawned temp w : spawned (Fs.rmForce temp w).2 = spawned w.
Proof. unfold Fs.rmForce. by repeat case_match. Qed.

Lemma io_finally_world {A} (m : IO World A) cleanup w :
  (io_finally m cleanup w).2 = (cleanup (m w).2).2.
Proof.
  unfold io_finally. destruct (m w) as [r w']. simpl.
  by destruct (cleanup w') as [[[]|e] w''].
Qed.

Lemma io_then_ret_world {A B} (m : IO World A) (b : B) w :
  (io_bind m (fun _ => io_ret b) w).2 = (m w).2.
Proof. unfold io_bind. by destruct (m w) as [[a|e] w']. Qed.

Lemma runShell_spawned ctx command args w :
  spawned (Tools.runShell host ctx command args w).2
  = spawned w ++ [Tools.shellRequest ctx command args].
Proof.
  unfold Tools.runShell, io_bind, Tools.spawn.
  destruct (run_process host _ (files w)) as [outcome fs].
  destruct outcome as [e|code out err]; [done|]. by case_decide.
Qed.

(** [applyPatch] writes the patch, then runs one tool and removes the
    patch again. *)
Lemma applyPatch_shape tmpdir now ctx patch :
  let temp := Tools.tempPath host tmpdir now in
  exists body : IO World str,
    (forall w,
       Tools.applyPatch host tmpdir now ctx patch w
       = io_bind (Fs.writeFile temp patch)
           (fun _ => io_finally body (Fs.rmForce temp)) w)
    /\ forall w1,
         spawned (body w1).2
         = spawned w1 ++ [
             if Fs.exists_ (Path.join [Path.resolve (cwd host) [Tools.root ctx];
                                       (".git" : str)]) w1
             then {| spawn_file := "git";
                     spawn_args := strs ["apply"; "--whitespace=nowarn"] ++ [temp];
                     spawn_cwd := Tools.root ctx; spawn_shell := false |}
             else {| spawn_file := "patch";
                     spawn_args := strs ["-p0"; "-i"] ++ [temp];
                     spawn_cwd := Tools.root ctx; spawn_shell := false |} ].
Proof.
  intros temp. eexists. split.
  - intros w. unfold Tools.applyPatch, io_bind at 1, io_lift.
    rewrite (resolveWithinRoot_dot host). reflexivity.
  - intros w1. unfold io_bind at 1, io_get. rewrite io_then_ret_world.
    destruct (Fs.exists_ _ w1); by rewrite runShell_spawned.
Qed.

End PatchFacts.

(** X19.  [applyPatch] cleans up behind itself and runs one tool.  In
    every outcome no regular file is left at the temporary path.  Once the
    patch has been written there, exactly one process is started, directly
    and in the root, with the temporary path as last argument: "git apply"
    when the root holds ".git", "patch -p0 -i" otherwise.  When the patch
    cannot be written, nothing is started. *)
Theorem applyPatch_cleans_up host tmpdir now ctx patch w :
  let temp := Tools.tempPath host tmpdir now in
  let written := Fs.writeFile temp patch w in
  let run := Tools.applyPatch host tmpdir now ctx patch w in
  Fs.contentAt temp run.2 = None
  /\ match written.1 with
     | Ok _ =>
         spawned run.2
         = spawned w ++ [
             if Fs.exists_ (Path.join [Path.resolve (cwd host) [Tools.root ctx];
                                       (".git" : str)]) written.2
             then {| spawn_file := "git";
                     spawn_args := strs ["apply"; "--whitespace=nowarn"] ++ [temp];
                     spawn_cwd := Tools.root ctx; spawn_shell := false |}
             else {| spawn_file := "patch";
                     spawn_args := strs ["-p0"; "-i"] ++ [temp];
                     spawn_cwd := Tools.root ctx; spawn_shell := false |} ]
     | Err e => run = (Err e, w)
     end.
Proof.
  intros temp written run. subst written run.
  destruct (applyPatch_shape host tmpdir now ctx patch) as (body & -> & Hbody).
  fold temp in Hbody |- *. unfold io_bind.
  destruct (Fs.writeFile temp patch w) as [[[]|e] w1] eqn:Hwrite; cbn [fst snd].
  - rewrite io_finally_world. split; [apply rmForce_no_file|].
    rewrite rmForce_spawned, Hbody.
    assert (spawned w1 = spawned w) as ->; [|done].
    unfold Fs.writeFile in Hwrite. by repeat case_match; simplify_eq.
  - assert (w1 = w) as ->.
    { unfold Fs.writeFile in Hwrite. by repeat case_match; simplify_eq. }
    split; [|done].
    unfold Fs.writeFile in Hwrite. unfold Fs.contentAt. unfold Fs.writableAt in Hwrite.
    by destruct (Fs.lookupNode (files w) (Path.components temp)) as [[c|]|].
Qed.

(** * The configuration, the command line and the agent view *)

Section SliceFacts.
Context {A : Type}.

(** [l.slice(-n)] is the last [n] elements. *)
Lemma sliceFrom_last (l : list A) (n : nat) :
  0 < n -> JS.sliceFrom l (- Z.of_nat n) = drop (length l - n) l.
Proof.
  intros Hn. unfold JS.sliceFrom, JS.slice.
  rewrite (relativeIndex_negative _ (- Z.of_nat n)) by lia.
  rewrite (relativeIndex_nonneg _ (Z.of_nat (length l))) by lia.
  replace (Z.to_nat (- - Z.of_nat n)) with n by lia.
  apply take_ge. rewrite length_drop. lia.
Qed.

End SliceFacts.

(** X20.  [redactConfig] shows the last four characters of the key behind
    three stars and keeps every other field; a key of four characters or
    fewer is shown in full. *)
Theorem redactConfig_shows_last_four config key :
  Config.apiKey config = Some key -> key <> [] ->
  let redacted := Config.redactConfig config in
  Config.apiKey redacted = Some (("***" : str) ++ drop (length key - 4) key)
  /\ (length key <= 4 -> Config.apiKey redacted = Some (("***" : str) ++ key))
  /\ Config.baseUrl redacted = Config.baseUrl config
  /\ Config.organization redacted = Config.organization config
  /\ Config.model redacted = Config.model config
  /\ Config.autoApprove redacted = Config.autoApprove config
  /\ Config.allowOutsideRoot redacted = Config.allowOutsideRoot config
  /\ Config.pricing redacted = Config.pricing config.
Proof.
  intros Hkey Hne redacted. subst redacted. unfold Config.redactConfig.
  rewrite Hkey. destruct key as [|c key]; [done|].
  cbn [Config.apiKey Config.baseUrl Config.organization Config.model
       Config.autoApprove Config.allowOutsideRoot Config.pricing].
  change (-4)%Z with (- Z.of_nat 4)%Z. rewrite (sliceFrom_last (c :: key) 4) by lia.
  split; [done|]. split; [|done].
  intros Hlen. replace (length (c :: key) - 4) with 0 by lia. done.
Qed.

Lemma redactConfig_shows_last_four_witness :
  Config.apiKey (Config.redactConfig Scenario.theConfig) = Some ("***test" : str).
Proof.
  pose proof (redactConfig_shows_last_four Scenario.theConfig "sk-test" eq_refl
                ltac:(discriminate)) as H.
  cbv zeta in H. destruct H as [Hkey _]. exact Hkey.
Defined.

(** X21.  The agent view shows the last twelve events: after any sequence
    of events the display holds the twelve most recent ones in their order,
    or all of them while there are fewer. *)
Theorem display_last_twelve {E} (events : list E) :
  AgentApp.display events = drop (length events - 12) events
  /\ length (AgentApp.display events) = length events `min` 12.
Proof.
  assert (AgentApp.display events = drop (length events - 12) events) as Heq.
  { induction events as [|e events IH] using rev_ind; [done|].
    unfold AgentApp.display in *. rewrite foldl_app. simpl. rewrite IH.
    unfold AgentApp.pushEvent.
    change (-12)%Z with (- Z.of_nat 12)%Z. rewrite (sliceFrom_last _ 12) by lia.
    rewrite !length_app, length_drop. simpl.
    destruct (decide (length events <= 12)) as [Hle|Hgt].
    - replace (length events - 12) with 0 by lia. rewrite drop_0.
      replace (length events - 0 + 1 - 12) with (length events + 1 - 12) by lia.
      done.
    - replace (length events - (length events - 12) + 1 - 12) with 1 by lia.
      rewrite drop_app_le by (rewrite length_drop; lia).
      rewrite drop_drop.
      replace (length events + 1 - 12) with (length events - 12 + 1) by lia.
      rewrite drop_app_le by lia. done. }
  split; [done|]. rewrite Heq, length_drop. lia.
Qed.

Section CliFacts.

Lemma startsWith_dashes word :
  JS.startsWith word "-" = false -> JS.startsWith word "--" = false.
Proof.
  destruct word as [|c word]; [done|]. simpl.
  case_decide; [|done]. by rewrite startsWith_nil.
Qed.

Lemma parseRest_positionals rest :
  forall args positionals,
  exists more,
    (Cli.parseRest rest args positionals).2 = positionals ++ more
    /\ more `sublist_of` rest
    /\ Forall (fun word => JS.startsWith word "-" = false) more.
Proof.
  remember (length rest) as n eqn:Hn. revert rest Hn.
  induction n as [n IH] using lt_wf_ind. intros rest -> args positionals.
  destruct rest as [|value rest]; cbn [Cli.parseRest].
  { exists []. by rewrite app_nil_r. }
  assert (forall args' positionals',
            exists more,
              (Cli.parseRest rest args' positionals').2 = positionals' ++ more
              /\ more `sublist_of` value :: rest
              /\ Forall (fun word => JS.startsWith word "-" = false) more) as Hnext.
  { intros args' positionals'.
    destruct (IH (length rest) ltac:(simpl; lia) rest eq_refl args' positionals')
      as (more & Heq & Hsub & Hall).
    exists more. split; [done|]. split; [by apply sublist_cons | done]. }
  destruct (JS.startsWith value "--") eqn:Hlong.
  - destruct (JS.split (drop 2 value) "=") as [|key [|inlineValue pieces]];
      [apply Hnext | | apply Hnext].
    destruct rest as [|next rest']; [apply Hnext|].
    destruct (bool_decide (next <> []) && negb (JS.startsWith next "-"));
      [|apply Hnext].
    destruct (IH (length rest') ltac:(simpl; lia) rest' eq_refl
                (<[key := Cli.Text next]> args) positionals)
      as (more & Heq & Hsub & Hall).
    exists more. split; [done|]. split; [by do 2 apply sublist_cons | done].
  - destruct (JS.startsWith value "-") eqn:Hshort; [apply Hnext|].
    destruct (IH (length rest) ltac:(simpl; lia) rest eq_refl args
                (positionals ++ [value])) as (more & Heq & Hsub & Hall).
    exists (value :: more). split; [by rewrite Heq, <- app_assoc|].
    split; [by apply sublist_skip | by constructor].
Qed.

Lemma parseRest_plain_words rest :
  Forall (fun word => JS.startsWith word "-" = false) rest ->
  forall args positionals,
    Cli.parseRest rest args positionals = (args, positionals ++ rest).
Proof.
  induction 1 as [|value rest Hvalue _ IH]; intros args positionals;
    cbn [Cli.parseRest].
  - by rewrite app_nil_r.
  - rewrite (startsWith_dashes value Hvalue), Hvalue, IH. by rewrite <- app_assoc.
Qed.

End CliFacts.

(** X22.  The words [parseArgs] hands on as positionals are words of the
    command line after the command, in their order, and none of them
    begins with a dash; when no word after the command begins with a dash,
    all of them are positionals and no option is set. *)
Theorem parseArgs_positionals command rest :
  Cli.command (Cli.parseArgs (command :: rest)) = Some command
  /\ Cli.positionals (Cli.parseArgs (command :: rest)) `sublist_of` rest
  /\ Forall (fun word => JS.startsWith word "-" = false)
       (Cli.positionals (Cli.parseArgs (command :: rest)))
  /\ (Forall (fun word => JS.startsWith word "-" = false) rest ->
      Cli.parseArgs (command :: rest)
      = {| Cli.command := Some command; Cli.args := ∅; Cli.positionals := rest |}).
Proof.
  unfold Cli.parseArgs.
  destruct (parseRest_positionals rest ∅ []) as (more & Heq & Hsub & Hall).
  split; [by destruct (Cli.parseRest rest ∅ [])|].
  split; [|split].
  - destruct (Cli.parseRest rest ∅ []) as [args positionals]. simpl in *. by subst.
  - destruct (Cli.parseRest rest ∅ []) as [args positionals]. simpl in *. by subst.
  - intros Hplain. by rewrite (parseRest_plain_words rest Hplain).
Qed.

(** X23.  The long and the short spelling of the auto-approve option
    differ: "--yes" takes the word after it as its value, so
    [agent --yes task] is left without a task and asks for one, whereas
    [agent -y task] runs the task with auto-approval. *)
Theorem long_yes_takes_the_task cwd config task :
  task <> [] -> JS.startsWith task "-" = false ->
  Cli.agentCommand cwd (Cli.parseArgs (strs ["agent"; "--yes"] ++ [task])) config
  = None
  /\ exists props,
       Cli.agentCommand cwd (Cli.parseArgs (strs ["agent"; "-y"] ++ [task])) config
       = Some props
       /\ Cli.task props = task /\ Cli.root props = cwd
       /\ Cli.autoApprove props = Some true.
Proof.
  intros Hne Hdash. pose proof (startsWith_dashes task Hdash) as Hlong.
  change (JS.startsWith task ["-"%char] = false) in Hdash.
  change (JS.startsWith task ["-"%char; "-"%char] = false) in Hlong.
  split.
  - unfold Cli.parseArgs. simpl.
    rewrite bool_decide_true by done. rewrite Hdash. reflexivity.
  - unfold Cli.parseArgs. simpl. rewrite Hlong, Hdash.
    unfold Cli.agentCommand. simpl.
    destruct task as [|c task]; [done|]. eexists. split; [reflexivity|]. done.
Qed.

Lemma long_yes_takes_the_task_witness :
  Cli.agentCommand "/work"
    (Cli.parseArgs (strs ["agent"; "--yes"] ++ [("tidy" : str)])) Scenario.theConfig
  = None.
Proof.
  destruct (long_yes_takes_the_task "/work" Scenario.theConfig "tidy"
              ltac:(discriminate) eq_refl) as [Hlong _].
  exact Hlong.
Defined.

(** X24.  The agent command replaces the configured model by the value of
    "--model": without that option (or when it has no value) the run uses
    the fallback model, whatever the configuration names. *)
Theorem agentCommand_drops_configured_model cwd parsed config props :
  Cli.agentCommand cwd parsed config = Some props ->
  Config.model (Cli.config props) = Cli.stringArg (Cli.args parsed) "model"
  /\ (Cli.stringArg (Cli.args parsed) "model" = None ->
      OpenAI.resolveModel (Cli.config props) = ("gpt-4o-mini" : str))
  /\ Config.apiKey (Cli.config props) = Config.apiKey config.
Proof.
  unfold Cli.agentCommand.
  destruct (JS.join " " (Cli.positionals parsed)); [done|].
  intros [= <-]. simpl. split; [done|]. split; [|done].
  unfold OpenAI.resolveModel. simpl. by intros ->.
Qed.

Lemma agentCommand_drops_configured_model_witness :
  Config.model Scenario.theConfig = Some ("gpt-4.1" : str)
  /\ forall props,
       Cli.agentCommand "/work" (Cli.parseArgs (strs ["agent"; "tidy"; "up"]))
         Scenario.theConfig = Some props ->
       OpenAI.resolveModel (Cli.config props) = ("gpt-4o-mini" : str).
Proof.
  split; [reflexivity|]. intros props Hprops.
  destruct (agentCommand_drops_configured_model "/work"
              (Cli.parseArgs (strs ["agent"; "tidy"; "up"])) Scenario.theConfig
              props Hprops) as (_ & Hmodel & _).
  apply Hmodel. reflexivity.
Defined.

(** * More about a run *)

Section RunEdges.
Context {W : Type} (tools : Agent.ToolAdapters W) (services : Agent.Services W).

Lemma io_bind_ext {S A B} (m m' : IO S A) (k k' : A -> IO S B) s :
  m s = m' s -> (forall a s', k a s' = k' a s') ->
  io_bind m k s = io_bind m' k' s.
Proof.
  intros Hm Hk. unfold io_bind. rewrite <- Hm.
  destruct (m s) as [[a|e] s']; [apply Hk | done].
Qed.

(** With auto-approval the loop does not look at the callback. *)
Lemma runActions_without_confirm options options' ctx todo log st :
  Agent.autoApprove options = Some true ->
  Agent.autoApprove options' = Some true ->
  Agent.runActions tools services options ctx log todo st
  = Agent.runActions tools services options' ctx log todo st.
Proof.
  intros Hauto Hauto'. revert log st.
  induction todo as [|a todo IH]; intros log st; [done|].
  cbn [Agent.runActions]. apply io_bind_ext; [|intros; apply IH].
  unfold Agent.runAction, Agent.approval. by rewrite Hauto, Hauto'.
Qed.

End RunEdges.

(** X25.  Without an API key (none, or the empty one) [runAgent] fails at
    once with the hint to configure one: no event is emitted, the model is
    not asked and the world is untouched. *)
Theorem runAgent_needs_api_key {W} (tools : Agent.ToolAdapters W)
    (services : Agent.Services W) options st :
  Config.apiKey (Agent.config options) = None
  \/ Config.apiKey (Agent.config options) = Some [] ->
  Agent.runAgent tools services options st
  = (Err ("Missing OpenAI API key. Run `darell configure` or set OPENAI_API_KEY." : str),
     st).
Proof.
  intros Hkey. unfold Agent.runAgent, io_bind at 1, io_lift, OpenAI.createClient.
  by destruct Hkey as [-> | ->].
Qed.

Lemma runAgent_needs_api_key_witness :
  let options : Agent.RunAgentOptions (W := World) :=
    {| Agent.task := "tidy up"; Agent.root := "/work";
       Agent.config :=
         {| Config.apiKey := Some []; Config.baseUrl := None;
            Config.organization := None; Config.model := None;
            Config.autoApprove := None; Config.allowOutsideRoot := None;
            Config.pricing := None |};
       Agent.autoApprove := None; Agent.confirm := None; Agent.history := None |} in
  Agent.runAgent Scenario.tools (Scenario.services (Scenario.planOf [])) options
    (Scenario.workspace, [])
  = (Err ("Missing OpenAI API key. Run `darell configure` or set OPENAI_API_KEY." : str),
     (Scenario.workspace, [])).
Proof.
  intros options.
  apply (runAgent_needs_api_key Scenario.tools (Scenario.services (Scenario.planOf []))
           options (Scenario.workspace, [])).
  by right.
Defined.

(** X26.  With auto-approval the confirmation callback plays no part: a
    run gives the same result, events and world whichever callback it is
    given, or none. *)
Theorem autoApprove_never_confirms {W} (tools : Agent.ToolAdapters W)
    (services : Agent.Services W) options confirm' st :
  Agent.autoApprove options = Some true ->
  Agent.runAgent tools services options st
  = Agent.runAgent tools services
      {| Agent.task := Agent.task options; Agent.root := Agent.root options;
         Agent.config := Agent.config options;
         Agent.autoApprove := Agent.autoApprove options;
         Agent.confirm := confirm'; Agent.history := Agent.history options |} st.
Proof.
  intros Hauto. unfold Agent.runAgent.
  cbn [Agent.task Agent.root Agent.config Agent.autoApprove Agent.history].
  repeat (apply io_bind_ext; [try reflexivity | intros]).
  - by apply runActions_without_confirm.
  - reflexivity.
Qed.

Lemma autoApprove_never_confirms_witness :
  Agent.runAgent Scenario.tools
    (Scenario.services (Scenario.planOf [Agent.delete_file "notes.txt" None]))
    (Scenario.options true) (Scenario.workspace, [])
  = Agent.runAgent Scenario.tools
      (Scenario.services (Scenario.planOf [Agent.delete_file "notes.txt" None]))
      {| Agent.task := Agent.task (Scenario.options true);
         Agent.root := Agent.root (Scenario.options true);
         Agent.config := Agent.config (Scenario.options true);
         Agent.autoApprove := Agent.autoApprove (Scenario.options true);
         Agent.confirm := Some (fun _ => io_ret false);
         Agent.history := Agent.history (Scenario.options true) |}
      (Scenario.workspace, []).
Proof.
  apply (autoApprove_never_confirms Scenario.tools
           (Scenario.services (Scenario.planOf [Agent.delete_file "notes.txt" None]))
           (Scenario.options true) (Some (fun _ => io_ret false))
           (Scenario.workspace, [])).
  reflexivity.
Defined.

(** X27.  When the answer of the model cannot be parsed as a plan, the run
    fails before anything is done: with a key configured the error is
    "Failed to parse plan" with the parser's message and the raw answer;
    beyond the events it was started with the run has announced no plan,
    attempted no action and reported no result, and the world is as the
    model call left it (untouched, for a model endpoint that only
    answers). *)
Theorem runAgent_unparsable_plan host endpoint parsePlan toFixed6
    (tools : Agent.ToolAdapters World) options w events planResponse message :
  let services := Runtime.services host endpoint parsePlan toFixed6 in
  let raw := default [] (resp_content planResponse) in
  endpoint (Agent.planRequest services options) = Ok planResponse ->
  parsePlan raw = Err message ->
  let run := Agent.runAgent tools services options (w, events) in
  isErr run.1 = true
  /\ (OpenAI.createClient (Agent.config options) = Ok tt ->
      run.1 = Err (("Failed to parse plan: " : str) ++ message ++ Agent.nl
                   ++ "Raw: " ++ raw))
  /\ run.2.1 = w
  /\ exists more,
       run.2.2 = events ++ more
       /\ Agent.messagesOf Agent.ev_plan more = []
       /\ Agent.messagesOf Agent.ev_action more = []
       /\ Agent.messagesOf Agent.ev_result more = []
       /\ Agent.messagesOf Agent.ev_error more = [].
Proof.
  intros services raw Hanswer Hparse run. subst run services raw.
  unfold Agent.runAgent, io_bind, io_lift, Agent.emit, io_modify, Agent.inWorld,
    Agent.recordUsage, io_ret, io_throw.
  cbn [fst snd Agent.chatCompletion Agent.parsePlan Runtime.services].
  destruct (OpenAI.createClient (Agent.config options)) as [[]|e].
  2:{ simpl. split; [done|]. split; [done|]. split; [done|].
      exists []. by rewrite app_nil_r. }
  unfold io_lift. unfold Agent.planRequest in Hanswer. rewrite Hanswer, Hparse.
  destruct (Pricing.summarizeUsage _ (resp_usage planResponse) _) as [u|];
    simpl; (split; [done|]); (split; [done|]); (split; [done|]).
  - eexists. rewrite <- app_assoc. split; [reflexivity|]. done.
  - eexists. split; [reflexivity|]. done.
Qed.

Lemma runAgent_unparsable_plan_witness :
  (Agent.runAgent Scenario.tools
     (Runtime.services Scenario.host
        (fun _ => Ok {| resp_usage := None; resp_content := Some ("no plan" : str) |})
        (fun raw => if decide (raw = "PLAN") then Ok (Scenario.planOf [])
                    else Err ("SyntaxError" : str))
        (fun _ => ("0.000000" : str)))
     (Scenario.options true) (Scenario.workspace, [])).1
  = Err (("Failed to parse plan: " : str) ++ "SyntaxError" ++ Agent.nl
         ++ "Raw: " ++ "no plan").
Proof.
  pose proof (runAgent_unparsable_plan Scenario.host
                (fun _ => Ok {| resp_usage := None;
                                resp_content := Some ("no plan" : str) |})
                (fun raw => if decide (raw = "PLAN") then Ok (Scenario.planOf [])
                            else Err ("SyntaxError" : str))
                (fun _ => ("0.000000" : str))
                Scenario.tools (Scenario.options true) Scenario.workspace []
                {| resp_usage := None; resp_content := Some ("no plan" : str) |}
                "SyntaxError" eq_refl eq_refl) as H.
  cbv zeta in H. destruct H as (_ & Hmessage & _). apply Hmessage. reflexivity.
Defined.
